(** * symmetric-crypto-es: the cryptor of [basic.ts] and its file layer

    A shallow embedding of [SymmetricCryptoService], [SymmetricCryptorBasic]
    ([basic.ts]) and of the file methods of [SymmetricCryptor]
    ([standard.ts]) and [SymmetricCryptorEnhance] ([enhance.ts]).

    The Web Crypto primitives, the random source, the text codecs and
    [Buffer] are collaborators of the module: they are gathered in the
    record [Runtime] and every definition is parameterised by it.  Effects
    are threaded explicitly through a state-and-exception monad; the
    state holds the private fields of the cryptor object and a [World]
    (random source position, file system, log of collaborator calls). *)

From Stdlib Require Import ZArith QArith Strings.Byte Ascii String.
From stdpp Require Import base option list strings gmap.

Set Default Proof Using "Type".
Local Open Scope Z_scope.
Local Open Scope list_scope.

Abbreviation bytes := (list byte).

#[global] Instance byte_eq_decision : EqDecision byte.
Proof.
  intros a b. destruct (N.eq_dec (Byte.to_N a) (Byte.to_N b)) as [E | E].
  - left. apply (f_equal Byte.of_N) in E. rewrite !Byte.of_to_N in E. congruence.
  - right. congruence.
Defined.

(** ** JavaScript errors *)

Inductive ErrorClass : Type :=
  | ClsError
  | ClsRangeError
  | ClsReferenceError
  | ClsTypeError
  | ClsDOMException (name : string)
  | ClsDenoError (name : string).

Record JSError : Type := mkError {
  err_class : ErrorClass;
  err_message : string
}.

Inductive Result (A : Type) : Type :=
  | Ok (a : A)
  | Throw (e : JSError).
Arguments Ok {A} a.
Arguments Throw {A} e.

(** ** The monad of effectful code: state passing with exceptions.
    A [throw] keeps the state reached so far, as a JavaScript exception
    keeps the assignments made before it. *)

Definition M (S A : Type) : Type := S -> Result A * S.

Definition ret {S A} (a : A) : M S A := fun s => (Ok a, s).

Definition throw {S A} (e : JSError) : M S A := fun s => (Throw e, s).

Definition bind {S A B} (m : M S A) (k : A -> M S B) : M S B :=
  fun s =>
    match m s with
    | (Ok a, s') => k a s'
    | (Throw e, s') => (Throw e, s')
    end.

Definition try_catch {S A} (m : M S A) (handler : JSError -> M S A) : M S A :=
  fun s =>
    match m s with
    | (Ok a, s') => (Ok a, s')
    | (Throw e, s') => handler e s'
    end.

Definition gets {S A} (f : S -> A) : M S A := fun s => (Ok (f s), s).

Definition modify {S} (f : S -> S) : M S unit := fun s => (Ok tt, f s).

Definition lift_result {S A} (r : Result A) : M S A := fun s => (r, s).

Declare Scope js_scope.
Delimit Scope js_scope with js.
Notation "'let!' x ':=' m 'in' k" := (bind m (fun x => k))
  (at level 10, x name, m at level 100, k at level 200,
   format "'[v' 'let!'  x  ':='  m  'in' '/' k ']'") : js_scope.
Local Open Scope js_scope.

(** [for (const x of xs) { acc = await body(x, acc); }] *)
Fixpoint for_of {S A B} (xs : list A) (body : A -> B -> M S B) (acc : B) : M S B :=
  match xs with
  | [] => ret acc
  | x :: xs' => let! acc' := body x acc in for_of xs' body acc'
  end.

(** ** Numbers, as far as [options.times] needs them.  A finite double is
    a rational; [NaN] and the infinities are apart. *)

Inductive JSNumber : Type :=
  | NumNaN
  | NumInfinity (negative : bool)
  | NumFinite (q : Q).

Definition MAX_SAFE_INTEGER : Z := 2 ^ 53 - 1.

Definition Number_isInteger (x : JSNumber) : bool :=
  match x with
  | NumFinite q => (Qnum q mod Zpos (Qden q) =? 0)
  | _ => false
  end.

Definition Number_isSafeInteger (x : JSNumber) : bool :=
  match x with
  | NumFinite q =>
      Number_isInteger x && (Z.abs (Qnum q / Zpos (Qden q)) <=? MAX_SAFE_INTEGER)
  | _ => false
  end.

(** [x >= 1] *)
Definition number_ge_1 (x : JSNumber) : bool :=
  match x with
  | NumNaN => false
  | NumInfinity negative => negb negative
  | NumFinite q => Qle_bool 1 q
  end.

(** The integer a number stands for, once it is known to be one. *)
Definition number_to_Z (x : JSNumber) : Z :=
  match x with
  | NumFinite q => Qnum q / Zpos (Qden q)
  | _ => 0
  end.

(** ** Strings *)

(** [text.toLowerCase()], on the ASCII letters: the names it is compared
    with are ASCII. *)
Definition ascii_toLowerCase (a : ascii) : ascii :=
  let n := nat_of_ascii a in
  if ((65 <=? n) && (n <=? 90))%nat then ascii_of_nat (n + 32) else a.

Fixpoint toLowerCase (s : string) : string :=
  match s with
  | EmptyString => EmptyString
  | String a s' => String (ascii_toLowerCase a) (toLowerCase s')
  end.

(** [xs.join(sep)] *)
Fixpoint join (sep : string) (xs : list string) : string :=
  match xs with
  | [] => EmptyString
  | [x] => x
  | x :: xs' => x +:+ sep +:+ join sep xs'
  end.

(** [xs.includes(x)] on an array of strings (strict equality). *)
Definition includes (xs : list string) (x : string) : bool :=
  bool_decide (x ∈ xs).

(** [data.slice(0, n)] and [data.slice(n)] for a length [n]: both clamp at
    the end of the array. *)
Definition slice_to (n : nat) (data : bytes) : bytes := take n data.
Definition slice_from (n : nat) (data : bytes) : bytes := drop n data.

(** ** Collaborators *)

(** An imported key: the name of its algorithm ([cryptoKey.algorithm.name])
    and the raw material behind the opaque handle. *)
Record CryptoKey : Type := mkCryptoKey {
  ck_algorithm_name : string;
  ck_material : bytes
}.

(** [AesCbcParams | AesGcmParams] carry an [iv]; [AesCtrParams] a
    [counter] and a bit [length]. *)
Inductive AesParams : Type :=
  | AesIvParams (name : string) (iv : bytes)
  | AesCtrParams (name : string) (counter : bytes) (length : Z).

Record Runtime : Type := mkRuntime {
  (** the bytes [crypto.getRandomValues] hands out, in order *)
  entropy : nat -> byte;
  (** [crypto.subtle.digest("SHA-256", data)] *)
  sha256 : bytes -> bytes;
  (** [crypto.subtle.importKey("raw", material, { name }, false, ["decrypt", "encrypt"])] *)
  importKey : bytes -> string -> Result CryptoKey;
  (** [crypto.subtle.encrypt(params, key, data)] *)
  subtle_encrypt : AesParams -> CryptoKey -> bytes -> Result bytes;
  (** [crypto.subtle.decrypt(params, key, data)] *)
  subtle_decrypt : AesParams -> CryptoKey -> bytes -> Result bytes;
  (** [new TextEncoder().encode(text)] and [new TextDecoder().decode(data)] *)
  text_encode : string -> bytes;
  text_decode : bytes -> string;
  (** [Buffer.from(text, encoding)] and [Buffer.from(data).toString(encoding)] *)
  buffer_from : string -> string -> bytes;
  buffer_toString : bytes -> string -> string;
  (** the text of a number inside a template literal *)
  number_toString : JSNumber -> string
}.

(** ** The world outside the object *)

Inductive Event : Type :=
  | EvDigest (data : bytes)
  | EvImportKey (material : bytes) (name : string)
  | EvGetRandomValues (n : nat)
  | EvSubtleEncrypt (params : AesParams) (key : CryptoKey) (data : bytes)
  | EvSubtleDecrypt (params : AesParams) (key : CryptoKey) (data : bytes)
  | EvReadFile (path : string)
  | EvWriteFile (path : string) (data : bytes).

Record World : Type := mkWorld {
  entropy_pos : nat;
  files : gmap string bytes;
  trace : list Event
}.

Definition log (ev : Event) : M World unit :=
  modify (fun w => mkWorld (entropy_pos w) (files w) (trace w ++ [ev])).

(** [crypto.getRandomValues(new Uint8Array(n))] *)
Definition getRandomValues (rt : Runtime) (n : nat) : M World bytes :=
  let! _ := log (EvGetRandomValues n) in
  let! pos := gets entropy_pos in
  let! _ := modify (fun w => mkWorld (pos + n) (files w) (trace w)) in
  ret (map (entropy rt) (seq pos n)).

Definition digest (rt : Runtime) (data : bytes) : M World bytes :=
  let! _ := log (EvDigest data) in
  ret (sha256 rt data).

Definition import_key (rt : Runtime) (material : bytes) (name : string) : M World CryptoKey :=
  let! _ := log (EvImportKey material name) in
  lift_result (importKey rt material name).

Definition encrypt_primitive (rt : Runtime) (params : AesParams) (key : CryptoKey)
    (data : bytes) : M World bytes :=
  let! _ := log (EvSubtleEncrypt params key data) in
  lift_result (subtle_encrypt rt params key data).

Definition decrypt_primitive (rt : Runtime) (params : AesParams) (key : CryptoKey)
    (data : bytes) : M World bytes :=
  let! _ := log (EvSubtleDecrypt params key data) in
  lift_result (subtle_decrypt rt params key data).

(** ** [basic.ts]: key inputs and options *)

Definition algorithms : list string := ["AES-CBC"; "AES-CTR"; "AES-GCM"]%string.

(** [SymmetricCryptorKeyType]: a string, or one of the buffer types, which
    all stand for their bytes. *)
Inductive SymmetricCryptorKeyType : Type :=
  | KeyString (text : string)
  | KeyBuffer (data : bytes).

(** [SymmetricCryptorKeyInput].  The algorithm is whatever string the
    caller put there: the check at run time is what [create] does. *)
Record SymmetricCryptorKeyInput : Type := mkKeyInput {
  ki_algorithm : option string;
  ki_key : SymmetricCryptorKeyType
}.

Inductive KeySpec : Type :=
  | KeyPlain (key : SymmetricCryptorKeyType)
  | KeyObject (input : SymmetricCryptorKeyInput).

(** The first argument of the constructor: [Array.isArray(keys)] or not. *)
Inductive KeysArgument : Type :=
  | KeysSingle (key : KeySpec)
  | KeysArray (keys : list KeySpec).

Definition cipherTextCodersDefault : list string := ["base64"; "base64url"]%string.

Record SymmetricCryptorCipherTextCoderOptions : Type := mkCoder {
  decoder : string -> Result bytes;
  encoder : bytes -> Result string
}.

Inductive CipherTextCoder : Type :=
  | CoderDefault (name : string)
  | CoderCustom (coder : SymmetricCryptorCipherTextCoderOptions).

Record SymmetricCryptorOptions : Type := mkOptions {
  opt_cipherTextCoder : option CipherTextCoder;
  opt_times : option JSNumber
}.

(** ** [SymmetricCryptoService] *)

Record SymmetricCryptoService : Type := mkService {
  sv_algorithmName : string;
  sv_cryptoKey : CryptoKey;
  sv_tokenLength : nat;
  sv_resolveDecryptParameters : bytes -> AesParams;
  sv_resolveEncryptParameters : bytes -> AesParams
}.

Definition Service_new (cryptoKey : CryptoKey) : Result SymmetricCryptoService :=
  let algorithmName := ck_algorithm_name cryptoKey in
  if bool_decide (algorithmName = "AES-CBC"%string \/ algorithmName = "AES-GCM"%string) then
    let tokenLength := if bool_decide (algorithmName = "AES-GCM"%string) then 12%nat else 16%nat in
    Ok {| sv_algorithmName := algorithmName;
          sv_cryptoKey := cryptoKey;
          sv_tokenLength := tokenLength;
          sv_resolveDecryptParameters := fun data =>
            AesIvParams algorithmName (slice_to tokenLength data);
          sv_resolveEncryptParameters := fun token =>
            AesIvParams algorithmName token |}
  else if bool_decide (algorithmName = "AES-CTR"%string) then
    let tokenLength := 16%nat in
    Ok {| sv_algorithmName := algorithmName;
          sv_cryptoKey := cryptoKey;
          sv_tokenLength := tokenLength;
          sv_resolveDecryptParameters := fun data =>
            AesCtrParams algorithmName (slice_to tokenLength data) 64;
          sv_resolveEncryptParameters := fun token =>
            AesCtrParams algorithmName token 64 |}
  else
    Throw (mkError ClsError ("Unsupported algorithm `" +:+ algorithmName +:+ "`!")).

Definition Service_decrypt (rt : Runtime) (sv : SymmetricCryptoService) (data : bytes)
    : M World bytes :=
  decrypt_primitive rt (sv_resolveDecryptParameters sv data) (sv_cryptoKey sv)
    (slice_from (sv_tokenLength sv) data).

(** [Uint8Array.from([...token, ...output])] is the random value followed
    by the output of the primitive.  The array literal is built in full
    first, and an engine that bounds the length of an array throws its own
    [RangeError] there when the two together exceed the bound.  The model
    has no such bound: it describes every call of the method that returns,
    and every call whose primitive throws. *)
Definition Service_encrypt (rt : Runtime) (sv : SymmetricCryptoService) (data : bytes)
    : M World bytes :=
  let! token := getRandomValues rt (sv_tokenLength sv) in
  let! output := encrypt_primitive rt (sv_resolveEncryptParameters sv token) (sv_cryptoKey sv) data in
  ret (token ++ output).

(** ** Promises

    A promise is represented by the outcome it settles with.  The flag
    [settled_at_return] tells whether the asynchronous function had already
    settled it when it returned, which is the case exactly when its body
    threw before its first [await]: such a rejection is seen by
    [Promise.all] before any rejection that comes from awaited work.
    Awaited work is taken to settle in the order it was dispatched. *)

Record Promise (A : Type) : Type := mkPromise {
  settled_at_return : bool;
  outcome : Result A
}.
Arguments mkPromise {A} _ _.
Arguments settled_at_return {A} _.
Arguments outcome {A} _.

(** An [async] function whose body has a synchronous prologue and a rest
    that starts with the first awaited call. *)
Definition async {X A} (prologue : Result X) (rest : X -> M World A) : M World (Promise A) :=
  match prologue with
  | Throw e => ret (mkPromise true (Throw e))
  | Ok x => fun w => let (r, w') := rest x w in (Ok (mkPromise false r), w')
  end.

Definition await {S A} (p : Promise A) : M S A := lift_result (outcome p).

Fixpoint early_rejection {A} (ps : list (Promise A)) : option JSError :=
  match ps with
  | [] => None
  | p :: ps' =>
      match settled_at_return p, outcome p with
      | true, Throw e => Some e
      | _, _ => early_rejection ps'
      end
  end.

Fixpoint all_outcomes {A} (ps : list (Promise A)) : Result (list A) :=
  match ps with
  | [] => Ok []
  | p :: ps' =>
      match outcome p with
      | Throw e => Throw e
      | Ok a =>
          match all_outcomes ps' with
          | Throw e => Throw e
          | Ok values => Ok (a :: values)
          end
      end
  end.

(** [Promise.all(ps)] *)
Definition Promise_all {A} (ps : list (Promise A)) : Promise (list A) :=
  match early_rejection ps with
  | Some e => mkPromise false (Throw e)
  | None => mkPromise false (all_outcomes ps)
  end.

(** [xs.map(f)] for an effectful [f] *)
Fixpoint map_M {S A B} (f : A -> M S B) (xs : list A) : M S (list B) :=
  match xs with
  | [] => ret []
  | x :: xs' =>
      let! y := f x in
      let! ys := map_M f xs' in
      ret (y :: ys)
  end.

(** ** [SymmetricCryptoService.create] *)

Definition InvalidAlgorithm (algorithm : string) : JSError :=
  mkError ClsRangeError
    ("`" +:+ algorithm +:+
     "` is not a valid symmetric crypto algorithm! Only accept these values: " +:+
     join ", " algorithms).

(** The part of [create] before its first [await]: the algorithm and the
    key it settles on, or the [RangeError]. *)
Definition create_resolve_input (input : KeySpec)
    : Result (string * SymmetricCryptorKeyType) :=
  let algorithm := "AES-CBC"%string in
  match input with
  | KeyPlain key => Ok (algorithm, key)
  | KeyObject input =>
      match ki_algorithm input with
      | Some given =>
          if negb (includes algorithms given) then Throw (InvalidAlgorithm given)
          else Ok (given, ki_key input)
      | None => Ok (algorithm, ki_key input)
      end
  end.

Definition create (rt : Runtime) (input : KeySpec) : M World (Promise SymmetricCryptoService) :=
  async (create_resolve_input input) (fun '(algorithm, key) =>
    let! material :=
      digest rt (match key with
                 | KeyString text => text_encode rt text
                 | KeyBuffer data => data
                 end) in
    let! cryptoKey := import_key rt material algorithm in
    lift_result (Service_new cryptoKey)).

(** ** [resolveCipherTextCoder] *)

Definition InvalidCoder (coder : string) : JSError :=
  mkError ClsRangeError
    ("`" +:+ coder +:+ "` is not a valid default coder! Only accept these values: " +:+
     join ", " cipherTextCodersDefault).

Definition resolveCipherTextCoder (rt : Runtime) (coder : option CipherTextCoder)
    : Result SymmetricCryptorCipherTextCoderOptions :=
  match default (CoderDefault "base64") coder with
  | CoderDefault name =>
      if includes cipherTextCodersDefault (toLowerCase name) then
        Ok {| decoder := fun data => Ok (buffer_from rt data name);
              encoder := fun data => Ok (buffer_toString rt data name) |}
      else Throw (InvalidCoder name)
  | CoderCustom coder => Ok coder
  end.

(** ** [SymmetricCryptorBasic] *)

Record Cryptor : Type := mkCryptor {
  cipherTextDecoder : string -> Result bytes;
  cipherTextEncoder : bytes -> Result string;
  cryptoKeysStorage : option (list SymmetricCryptoService);
  keyIsSingle : bool;
  keyOnSingleRepeats : Z;
  keysToCryptoKeysFail : option JSError;
  keysToCryptoKeysPromise : option (Promise (list SymmetricCryptoService))
}.

Definition MissingKeys : JSError :=
  mkError ClsReferenceError "Parameter `keys` is not defined!".

Definition InvalidRepeatCount (rt : Runtime) (times : JSNumber) : JSError :=
  mkError ClsTypeError
    ("`" +:+ number_toString rt times +:+
     "` (parameter `options.times`) is not a number which is integer, safe, and >= 1!").

(** The constructor.  [keyOnSingleRepeats] holds [options.times] only
    after the guard found it a safe integer, so the field is an integer. *)
Definition SymmetricCryptorBasic_new (rt : Runtime) (keys : KeysArgument)
    (options : SymmetricCryptorOptions) : M World Cryptor :=
  let! cipherTextCoder := lift_result (resolveCipherTextCoder rt (opt_cipherTextCoder options)) in
  match keys with
  | KeysArray keys =>
      if bool_decide (length keys = 0%nat) then throw MissingKeys
      else
        let! promises := map_M (create rt) keys in
        ret {| cipherTextDecoder := decoder cipherTextCoder;
               cipherTextEncoder := encoder cipherTextCoder;
               cryptoKeysStorage := None;
               keyIsSingle := false;
               keyOnSingleRepeats := 1;
               keysToCryptoKeysFail := None;
               keysToCryptoKeysPromise := Some (Promise_all promises) |}
  | KeysSingle key =>
      let! repeats :=
        match opt_times options with
        | Some times =>
            if negb (Number_isSafeInteger times && number_ge_1 times)
            then throw (InvalidRepeatCount rt times)
            else ret (number_to_Z times)
        | None => ret 1
        end in
      let! promise := create rt key in
      ret {| cipherTextDecoder := decoder cipherTextCoder;
             cipherTextEncoder := encoder cipherTextCoder;
             cryptoKeysStorage := None;
             keyIsSingle := true;
             keyOnSingleRepeats := repeats;
             keysToCryptoKeysFail := None;
             keysToCryptoKeysPromise := Some (Promise_all [promise]) |}
  end.

(** The state a method runs in: the object and the world. *)
Record Sys : Type := mkSys {
  self : Cryptor;
  world : World
}.

Definition in_world {A} (m : M World A) : M Sys A :=
  fun s => let (r, w') := m (world s) in (r, mkSys (self s) w').

Definition set_cryptoKeysStorage (v : option (list SymmetricCryptoService)) : M Sys unit :=
  modify (fun s =>
    mkSys (mkCryptor (cipherTextDecoder (self s)) (cipherTextEncoder (self s)) v
             (keyIsSingle (self s)) (keyOnSingleRepeats (self s))
             (keysToCryptoKeysFail (self s)) (keysToCryptoKeysPromise (self s)))
          (world s)).

Definition set_keysToCryptoKeysFail (v : option JSError) : M Sys unit :=
  modify (fun s =>
    mkSys (mkCryptor (cipherTextDecoder (self s)) (cipherTextEncoder (self s))
             (cryptoKeysStorage (self s)) (keyIsSingle (self s))
             (keyOnSingleRepeats (self s)) v (keysToCryptoKeysPromise (self s)))
          (world s)).

Definition set_keysToCryptoKeysPromise (v : option (Promise (list SymmetricCryptoService)))
    : M Sys unit :=
  modify (fun s =>
    mkSys (mkCryptor (cipherTextDecoder (self s)) (cipherTextEncoder (self s))
             (cryptoKeysStorage (self s)) (keyIsSingle (self s))
             (keyOnSingleRepeats (self s)) (keysToCryptoKeysFail (self s)) v)
          (world s)).

(** [this.#cryptoKeysStorage.push(...items)] *)
Definition push_cryptoKeysStorage (items : list SymmetricCryptoService) : M Sys unit :=
  let! storage := gets (fun s => cryptoKeysStorage (self s)) in
  set_cryptoKeysStorage (Some (default [] storage ++ items)).

(** [result[0]], which is there whenever the promise of the single-key
    constructor fulfils: [Promise.all] of one promise yields one value. *)
Definition first_service (result : list SymmetricCryptoService) : list SymmetricCryptoService :=
  take 1 result.

Definition ready : M Sys unit :=
  let! pending := gets (fun s => keysToCryptoKeysPromise (self s)) in
  let! _ :=
    match pending with
    | Some promise =>
        let! _ :=
          try_catch
            (let! result := await promise in
             let! _ := set_cryptoKeysStorage (Some []) in
             let! single := gets (fun s => keyIsSingle (self s)) in
             if single then
               let! repeats := gets (fun s => keyOnSingleRepeats (self s)) in
               for_of (seq 0 (Z.to_nat repeats))
                 (fun _ _ => push_cryptoKeysStorage (first_service result)) tt
             else push_cryptoKeysStorage result)
            (fun error => set_keysToCryptoKeysFail (Some error)) in
        set_keysToCryptoKeysPromise None
    | None => ret tt
    end in
  let! fail := gets (fun s => keysToCryptoKeysFail (self s)) in
  match fail with
  | Some error => throw error
  | None => ret tt
  end.

Definition MissingCryptoKeys : JSError :=
  mkError ClsError "Crypto keys are somehow not exist! Please submit a bug report.".

Definition getCryptoKeys : M Sys (list SymmetricCryptoService) :=
  let! _ := ready in
  let! storage := gets (fun s => cryptoKeysStorage (self s)) in
  match storage with
  | None => throw MissingCryptoKeys
  | Some cryptoKeys =>
      if bool_decide (length cryptoKeys = 0%nat) then throw MissingCryptoKeys
      else ret cryptoKeys
  end.

(** [#decrypt] *)
Definition decrypt_bin (rt : Runtime) (data : bytes) : M Sys bytes :=
  let! cryptoKeys := getCryptoKeys in
  if bool_decide (length data = 0%nat) then ret data
  else
    for_of (reverse cryptoKeys)
      (fun cryptoKey bin => in_world (Service_decrypt rt cryptoKey bin)) data.

(** [#encrypt] *)
Definition encrypt_bin (rt : Runtime) (data : bytes) : M Sys bytes :=
  let! cryptoKeys := getCryptoKeys in
  for_of cryptoKeys
    (fun cryptoKey bin => in_world (Service_encrypt rt cryptoKey bin)) data.

(** [decrypt(data: Uint8Array)] and [decrypt(data: string)] *)
Definition decrypt (rt : Runtime) (data : bytes) : M Sys bytes :=
  decrypt_bin rt data.

Definition decrypt_text (rt : Runtime) (data : string) : M Sys string :=
  let! decode := gets (fun s => cipherTextDecoder (self s)) in
  let! decoded := lift_result (decode data) in
  let! bin := decrypt_bin rt decoded in
  ret (text_decode rt bin).

(** [encrypt(data: Uint8Array)] and [encrypt(data: string)] *)
Definition encrypt (rt : Runtime) (data : bytes) : M Sys bytes :=
  encrypt_bin rt data.

Definition encrypt_text (rt : Runtime) (data : string) : M Sys string :=
  let! bin := encrypt_bin rt (text_encode rt data) in
  let! encode := gets (fun s => cipherTextEncoder (self s)) in
  lift_result (encode bin).

(** ** The file system of the runtime: [Deno.readFile], [Deno.writeFile] *)

Record WriteFileOptions : Type := mkWriteFileOptions {
  wo_append : option bool;
  wo_create : option bool;
  wo_createNew : option bool
}.

Definition NotFound (path : string) : JSError :=
  mkError (ClsDenoError "NotFound") path.

Definition AlreadyExists (path : string) : JSError :=
  mkError (ClsDenoError "AlreadyExists") path.

Definition set_files (fs : gmap string bytes) : M World unit :=
  modify (fun w => mkWorld (entropy_pos w) fs (trace w)).

Definition Deno_readFile (filePath : string) : M World bytes :=
  let! _ := log (EvReadFile filePath) in
  let! fs := gets files in
  match fs !! filePath with
  | Some content => ret content
  | None => throw (NotFound filePath)
  end.

(** [create] defaults to [true], [append] and [createNew] to [false]. *)
Definition Deno_writeFile (filePath : string) (data : bytes) (options : WriteFileOptions)
    : M World unit :=
  let! _ := log (EvWriteFile filePath data) in
  let! fs := gets files in
  match fs !! filePath with
  | Some content =>
      if default false (wo_createNew options) then throw (AlreadyExists filePath)
      else if default false (wo_append options) then set_files (<[filePath := content ++ data]> fs)
      else set_files (<[filePath := data]> fs)
  | None =>
      if default false (wo_createNew options) || default true (wo_create options)
      then set_files (<[filePath := data]> fs)
      else throw (NotFound filePath)
  end.

(** [{ create: false }] *)
Definition options_create_false : WriteFileOptions :=
  mkWriteFileOptions None (Some false) None.

(** [{ ...options, append: false }], where a missing [options] spreads to
    nothing. *)
Definition options_append_false (options : option WriteFileOptions) : WriteFileOptions :=
  match options with
  | Some o => mkWriteFileOptions (Some false) (wo_create o) (wo_createNew o)
  | None => mkWriteFileOptions (Some false) None None
  end.

(** ** [standard.ts]: class [SymmetricCryptor] *)
Module Standard.

Definition decryptFileInPlace (rt : Runtime) (filePath : string) : M Sys unit :=
  let! context := in_world (Deno_readFile filePath) in
  let! decrypted := decrypt rt context in
  in_world (Deno_writeFile filePath decrypted options_create_false).

Definition encryptFileInPlace (rt : Runtime) (filePath : string) : M Sys unit :=
  let! context := in_world (Deno_readFile filePath) in
  let! encrypted := encrypt rt context in
  in_world (Deno_writeFile filePath encrypted options_create_false).

Definition readEncryptedFile (rt : Runtime) (filePath : string) : M Sys bytes :=
  let! context := in_world (Deno_readFile filePath) in
  decrypt rt context.

Definition readEncryptedTextFile (rt : Runtime) (filePath : string) : M Sys string :=
  let! data := readEncryptedFile rt filePath in
  ret (text_decode rt data).

Definition writeEncryptedFile (rt : Runtime) (filePath : string) (data : bytes)
    (options : option WriteFileOptions) : M Sys unit :=
  let! encrypted := encrypt rt data in
  in_world (Deno_writeFile filePath encrypted (options_append_false options)).

Definition writeEncryptedTextFile (rt : Runtime) (filePath : string) (data : string)
    (options : option WriteFileOptions) : M Sys unit :=
  writeEncryptedFile rt filePath (text_encode rt data) options.

End Standard.

(** ** [enhance.ts]: class [SymmetricCryptorEnhance].  The arguments of
    [Deno.writeFile] are evaluated, and awaited, before the call. *)
Module Enhance.

Definition decryptFileInPlace (rt : Runtime) (filePath : string) : M Sys unit :=
  let! data :=
    (let! context := in_world (Deno_readFile filePath) in
     decrypt rt context) in
  in_world (Deno_writeFile filePath data options_create_false).

Definition encryptFileInPlace (rt : Runtime) (filePath : string) : M Sys unit :=
  let! data :=
    (let! context := in_world (Deno_readFile filePath) in
     encrypt rt context) in
  in_world (Deno_writeFile filePath data options_create_false).

Definition readEncryptedFile (rt : Runtime) (filePath : string) : M Sys bytes :=
  let! context := in_world (Deno_readFile filePath) in
  decrypt rt context.

Definition readEncryptedTextFile (rt : Runtime) (filePath : string) : M Sys string :=
  let! data := readEncryptedFile rt filePath in
  ret (text_decode rt data).

Definition writeEncryptedFile (rt : Runtime) (filePath : string) (data : bytes)
    (options : option WriteFileOptions) : M Sys unit :=
  let! encrypted := encrypt rt data in
  in_world (Deno_writeFile filePath encrypted (options_append_false options)).

Definition writeEncryptedTextFile (rt : Runtime) (filePath : string) (data : string)
    (options : option WriteFileOptions) : M Sys unit :=
  writeEncryptedFile rt filePath (text_encode rt data) options.

End Enhance.

(** ** Calls on an instance *)

Inductive Call : Type :=
  | CallReady
  | CallEncrypt (data : bytes)
  | CallDecrypt (data : bytes)
  | CallEncryptText (data : string)
  | CallDecryptText (data : string).

Inductive Value : Type :=
  | ValUndefined
  | ValBytes (data : bytes)
  | ValText (text : string).

Definition call (rt : Runtime) (c : Call) : M Sys Value :=
  match c with
  | CallReady => let! _ := ready in ret ValUndefined
  | CallEncrypt data => let! r := encrypt rt data in ret (ValBytes r)
  | CallDecrypt data => let! r := decrypt rt data in ret (ValBytes r)
  | CallEncryptText data => let! r := encrypt_text rt data in ret (ValText r)
  | CallDecryptText data => let! r := decrypt_text rt data in ret (ValText r)
  end.

(** A sequence of calls on one instance, each started when the one before
    has settled, with the results in order. *)
Fixpoint run_calls (rt : Runtime) (cs : list Call) (s : Sys) : list (Result Value) * Sys :=
  match cs with
  | [] => ([], s)
  | c :: cs' =>
      let (r, s') := call rt c s in
      let (rs, s'') := run_calls rt cs' s' in
      (r :: rs, s'')
  end.

(** ** A small runtime to run the definitions on: a cipher that reverses
    its input and appends the length of the parameters' token, keys that
    import under the three names, an entropy source that counts. *)

Definition toy_token (params : AesParams) : bytes :=
  match params with
  | AesIvParams _ iv => iv
  | AesCtrParams _ counter _ => counter
  end.

Definition toy_encrypt (params : AesParams) (key : CryptoKey) (data : bytes) : Result bytes :=
  Ok (reverse data ++ take 1 (toy_token params) ++ take 1 (ck_material key)).

Definition toy_decrypt (params : AesParams) (key : CryptoKey) (data : bytes) : Result bytes :=
  let tag := take 1 (toy_token params) ++ take 1 (ck_material key) in
  let n := (length data - length tag)%nat in
  if bool_decide (drop n data = tag /\ (length tag <= length data)%nat) then Ok (reverse (take n data))
  else Throw (mkError (ClsDOMException "OperationError") EmptyString).

Definition toy_importKey (material : bytes) (name : string) : Result CryptoKey :=
  if includes algorithms name then Ok (mkCryptoKey name material)
  else Throw (mkError (ClsDOMException "NotSupportedError") name).

Definition toy_entropy (n : nat) : byte :=
  default x00 (Byte.of_nat (n mod 256)).

Definition toy_runtime : Runtime :=
  {| entropy := toy_entropy;
     sha256 := fun data => take 32 (data ++ replicate 32 x00);
     importKey := toy_importKey;
     subtle_encrypt := toy_encrypt;
     subtle_decrypt := toy_decrypt;
     text_encode := list_byte_of_string;
     text_decode := string_of_list_byte;
     buffer_from := fun text _ => list_byte_of_string text;
     buffer_toString := fun data _ => string_of_list_byte data;
     number_toString := fun _ => "?"%string |}.

Definition empty_world : World := mkWorld 0 ∅ [].

Definition no_options : SymmetricCryptorOptions := mkOptions None None.

(** ** The earlier [basic.ts]: class [SymmetricCryptorService]

    The service of the earlier file takes the algorithm as an argument of
    its constructor instead of reading it off the imported key, and
    chooses the parameters by a [switch] in two methods instead of two
    closures.  Its field [#algorithm] has the type of the three names;
    [create] is the only caller of the constructor and passes a name it
    has checked. *)
Module Legacy.

Inductive SymmetricCryptorAlgorithm : Type :=
  | AES_CBC
  | AES_CTR
  | AES_GCM.

Definition algorithm_name (algorithm : SymmetricCryptorAlgorithm) : string :=
  match algorithm with
  | AES_CBC => "AES-CBC"
  | AES_CTR => "AES-CTR"
  | AES_GCM => "AES-GCM"
  end.

(** The value of the type that a string is, if it is one of the names. *)
Definition algorithm_of_string (name : string) : option SymmetricCryptorAlgorithm :=
  if bool_decide (name = "AES-CBC"%string) then Some AES_CBC
  else if bool_decide (name = "AES-CTR"%string) then Some AES_CTR
  else if bool_decide (name = "AES-GCM"%string) then Some AES_GCM
  else None.

Record SymmetricCryptorService : Type := mkService {
  sv_algorithm : SymmetricCryptorAlgorithm;
  sv_cryptoKey : CryptoKey;
  sv_saltLength : nat
}.

Definition Service_new (algorithm : SymmetricCryptorAlgorithm) (cryptoKey : CryptoKey)
    : SymmetricCryptorService :=
  {| sv_algorithm := algorithm;
     sv_cryptoKey := cryptoKey;
     sv_saltLength :=
       match algorithm with
       | AES_CBC | AES_CTR => 16%nat
       | AES_GCM => 12%nat
       end |}.

Definition resolveDecryptParameters (sv : SymmetricCryptorService) (data : bytes) : AesParams :=
  match sv_algorithm sv with
  | AES_CBC | AES_GCM =>
      AesIvParams (algorithm_name (sv_algorithm sv)) (slice_to (sv_saltLength sv) data)
  | AES_CTR =>
      AesCtrParams (algorithm_name (sv_algorithm sv)) (slice_to (sv_saltLength sv) data) 64
  end.

Definition resolveEncryptParameters (sv : SymmetricCryptorService) (salt : bytes) : AesParams :=
  match sv_algorithm sv with
  | AES_CBC | AES_GCM => AesIvParams (algorithm_name (sv_algorithm sv)) salt
  | AES_CTR => AesCtrParams (algorithm_name (sv_algorithm sv)) salt 64
  end.

Definition Service_decrypt (rt : Runtime) (sv : SymmetricCryptorService) (data : bytes)
    : M World bytes :=
  decrypt_primitive rt (resolveDecryptParameters sv data) (sv_cryptoKey sv)
    (slice_from (sv_saltLength sv) data).

Definition Service_encrypt (rt : Runtime) (sv : SymmetricCryptorService) (data : bytes)
    : M World bytes :=
  let! salt := getRandomValues rt (sv_saltLength sv) in
  let! output := encrypt_primitive rt (resolveEncryptParameters sv salt) (sv_cryptoKey sv) data in
  ret (salt ++ output).

(** The part of [create] before its first [await]: the algorithm, and the
    key already as bytes.  A name that passed the check is one of the
    three, so the default of the conversion is never used. *)
Definition create_resolve_input (rt : Runtime) (input : KeySpec)
    : Result (SymmetricCryptorAlgorithm * bytes) :=
  let algorithm := AES_CBC in
  match input with
  | KeyPlain (KeyString text) => Ok (algorithm, text_encode rt text)
  | KeyPlain (KeyBuffer data) => Ok (algorithm, data)
  | KeyObject input =>
      let key :=
        match ki_key input with
        | KeyString text => text_encode rt text
        | KeyBuffer data => data
        end in
      match ki_algorithm input with
      | Some given =>
          if negb (includes algorithms given) then Throw (InvalidAlgorithm given)
          else Ok (default algorithm (algorithm_of_string given), key)
      | None => Ok (algorithm, key)
      end
  end.

Definition create (rt : Runtime) (input : KeySpec) : M World (Promise SymmetricCryptorService) :=
  async (create_resolve_input rt input) (fun '(algorithm, key) =>
    let! keyFmt := digest rt key in
    let! cryptoKey := import_key rt keyFmt (algorithm_name algorithm) in
    ret (Service_new algorithm cryptoKey)).

End Legacy.

(** * Notions used in the statements *)

(** ** Stages *)

(** The stages the module builds are those of [Service_new]. *)
Definition service_wf (sv : SymmetricCryptoService) : Prop :=
  exists cryptoKey, Service_new cryptoKey = Ok sv.

(** The random value length of the specification. *)
Definition nonceLength (name : string) : nat :=
  if bool_decide (name = "AES-GCM"%string) then 12%nat else 16%nat.

(** The parameters of the specification: an [iv] for CBC and GCM, an
    initial counter block with bit length 64 for CTR. *)
Definition stage_params (name : string) (token : bytes) : AesParams :=
  if bool_decide (name = "AES-CTR"%string) then AesCtrParams name token 64
  else AesIvParams name token.

(** ** Assumptions on the cipher primitive and the key import *)

(** Decrypting under the parameters and key of an encryption gives the
    plaintext back. *)
Definition subtle_inverse (rt : Runtime) : Prop :=
  forall params key data output,
    subtle_encrypt rt params key data = Ok output ->
    subtle_decrypt rt params key output = Ok data.

Definition subtle_encrypt_total (rt : Runtime) : Prop :=
  forall params key data, exists output, subtle_encrypt rt params key data = Ok output.

(** A ciphertext is no shorter than its plaintext (CTR keeps the length,
    CBC pads, GCM appends its tag). *)
Definition subtle_nonshrinking (rt : Runtime) : Prop :=
  forall params key data output,
    subtle_encrypt rt params key data = Ok output ->
    (length data <= length output)%nat.

Definition importKey_total (rt : Runtime) : Prop :=
  forall material name, name ∈ algorithms ->
    exists cryptoKey,
      importKey rt material name = Ok cryptoKey /\ ck_algorithm_name cryptoKey = name.

(** ** The life of an instance *)

(** The bytes a chain adds: the sum of its stages' random value lengths. *)
Definition chain_overhead (stages : list SymmetricCryptoService) : nat :=
  sum_list (sv_tokenLength <$> stages).

(** The stage list [ready] stores for a fulfilled promise. *)
Definition stage_list (single : bool) (repeats : Z)
    (result : list SymmetricCryptoService) : list SymmetricCryptoService :=
  if single then concat (replicate (Z.to_nat repeats) (first_service result))
  else result.

(** The object after its readiness step has run. *)
Definition settle (c : Cryptor) : Cryptor :=
  match keysToCryptoKeysPromise c with
  | Some promise =>
      match outcome promise with
      | Ok result =>
          mkCryptor (cipherTextDecoder c) (cipherTextEncoder c)
            (Some (stage_list (keyIsSingle c) (keyOnSingleRepeats c) result))
            (keyIsSingle c) (keyOnSingleRepeats c) (keysToCryptoKeysFail c) None
      | Throw e =>
          mkCryptor (cipherTextDecoder c) (cipherTextEncoder c) (cryptoKeysStorage c)
            (keyIsSingle c) (keyOnSingleRepeats c) (Some e) None
      end
  | None => c
  end.

(** What a call raises, or the stages it works with, in a settled object. *)
Definition settled_keys (c : Cryptor) : Result (list SymmetricCryptoService) :=
  match keysToCryptoKeysFail c with
  | Some e => Throw e
  | None =>
      match cryptoKeysStorage c with
      | None => Throw MissingCryptoKeys
      | Some cryptoKeys =>
          if bool_decide (length cryptoKeys = 0%nat) then Throw MissingCryptoKeys
          else Ok cryptoKeys
      end
  end.

(** The states an instance goes through: the one the constructor made, and
    whatever a call leaves, in any world. *)
Inductive Reachable (rt : Runtime) (c0 : Cryptor) : Cryptor -> Prop :=
  | Reachable_new : Reachable rt c0 c0
  | Reachable_call c cl w :
      Reachable rt c0 c -> Reachable rt c0 (self (call rt cl (mkSys c w)).2).

(** ** What the constructor starts *)

(** The bytes that are digested for a key. *)
Definition key_bytes (rt : Runtime) (key : SymmetricCryptorKeyType) : bytes :=
  match key with
  | KeyString text => text_encode rt text
  | KeyBuffer data => data
  end.

(** What the promise of [create] settles with, whatever the world. *)
Definition derived_service (rt : Runtime) (input : KeySpec)
    : Result SymmetricCryptoService :=
  match create_resolve_input input with
  | Throw e => Throw e
  | Ok (algorithm, key) =>
      match importKey rt (sha256 rt (key_bytes rt key)) algorithm with
      | Throw e => Throw e
      | Ok cryptoKey => Service_new cryptoKey
      end
  end.

(** The collaborator calls one [create] makes. *)
Definition derivation_events (rt : Runtime) (input : KeySpec) : list Event :=
  match create_resolve_input input with
  | Throw _ => []
  | Ok (algorithm, key) =>
      [EvDigest (key_bytes rt key); EvImportKey (sha256 rt (key_bytes rt key)) algorithm]
  end.

Definition promise_of (rt : Runtime) (input : KeySpec) : Promise SymmetricCryptoService :=
  mkPromise (if create_resolve_input input is Ok _ then false else true)
    (derived_service rt input).

Definition add_events (w : World) (evs : list Event) : World :=
  mkWorld (entropy_pos w) (files w) (trace w ++ evs).

Definition key_list (keys : KeysArgument) : list KeySpec :=
  match keys with
  | KeysSingle key => [key]
  | KeysArray keys => keys
  end.

Definition is_single (keys : KeysArgument) : bool :=
  match keys with
  | KeysSingle _ => true
  | KeysArray _ => false
  end.

(** The repeat count the constructor settles on. *)
Definition repeats_of (keys : KeysArgument) (options : SymmetricCryptorOptions) : Z :=
  match keys, opt_times options with
  | KeysSingle _, Some times => number_to_Z times
  | _, _ => 1
  end.

(** ** Inputs for the small runtime *)

Definition toy_password : KeySpec := KeyPlain (KeyString "<PassWord123456>!!").

Definition toy_chain : KeysArgument :=
  KeysArray [KeyObject (mkKeyInput (Some "AES-CBC"%string) (KeyString "keyA"));
             KeyObject (mkKeyInput (Some "AES-CTR"%string) (KeyString "keyB"));
             KeyObject (mkKeyInput (Some "AES-GCM"%string) (KeyString "keyA"))].

(** [{ times: 3 }] *)
Definition times_3 : SymmetricCryptorOptions := mkOptions None (Some (NumFinite 3)).

(** An instance for the password, and a world whose only file holds
    [content]. *)
Definition toy_instance : Cryptor :=
  match SymmetricCryptorBasic_new toy_runtime (KeysSingle toy_password) no_options empty_world with
  | (Ok c, _) => c
  | (Throw _, _) =>
      mkCryptor (fun _ => Ok []) (fun _ => Ok EmptyString) None true 1 None None
  end.

Definition toy_file_world (content : bytes) : World :=
  mkWorld 0 {["file"%string := content]} [].

(** ** The order of the stages, as the specification words it *)

(** Run the stages found at the given indices, in the order given, each on
    the output of the one before. *)
Fixpoint apply_in_order (step : SymmetricCryptoService -> bytes -> M World bytes)
    (stages : list SymmetricCryptoService) (order : list nat) (bin : bytes) : M World bytes :=
  match order with
  | [] => ret bin
  | i :: order' =>
      match stages !! i with
      | Some sv => let! bin' := step sv bin in apply_in_order step stages order' bin'
      | None => apply_in_order step stages order' bin
      end
  end.

(** [0, 1, ..., n-1] *)
Definition encrypt_order (n : nat) : list nat := seq 0 n.

(** [n-1, ..., 1, 0] *)
Fixpoint decrypt_order (n : nat) : list nat :=
  match n with
  | O => []
  | S n' => n' :: decrypt_order n'
  end.

(** ** Events and what a call may do to the world *)

Definition is_cipher_event (ev : Event) : bool :=
  match ev with
  | EvGetRandomValues _ | EvSubtleEncrypt _ _ _ | EvSubtleDecrypt _ _ _ => true
  | _ => false
  end.

Definition is_decrypt_event (ev : Event) : bool :=
  match ev with
  | EvSubtleDecrypt _ _ _ => true
  | _ => false
  end.

Definition is_import_event (ev : Event) : bool :=
  match ev with
  | EvImportKey _ _ => true
  | _ => false
  end.

Definition is_write_event (ev : Event) : bool :=
  match ev with
  | EvWriteFile _ _ => true
  | _ => false
  end.

(** The number of key imports run so far. *)
Definition derivation_count (w : World) : nat :=
  length (List.filter is_import_event (trace w)).

(** The writes started so far. *)
Definition writes (w : World) : list Event :=
  List.filter is_write_event (trace w).

(** From [w] to [w'] only random values were drawn and the cipher
    primitive run: the files are the same and nothing else was logged. *)
Definition cipher_only (w w' : World) : Prop :=
  files w' = files w /\
  exists evs, trace w' = trace w ++ evs /\ forallb is_cipher_event evs = true.

(** The text handed to [decrypt] is one the decoder of the instance
    accepts. *)
Definition call_decodes (c : Cryptor) (cl : Call) : Prop :=
  match cl with
  | CallDecryptText data =>
      match cipherTextDecoder c data with
      | Ok _ => True
      | Throw _ => False
      end
  | _ => True
  end.

(** [options.times] is absent or passes the guard. *)
Definition times_ok (options : SymmetricCryptorOptions) : Prop :=
  match opt_times options with
  | Some times => Number_isSafeInteger times && number_ge_1 times = true
  | None => True
  end.

(** The key spec has no algorithm, or one of the three. *)
Definition accepted_algorithm (input : KeySpec) : Prop :=
  match create_resolve_input input with
  | Ok _ => True
  | Throw _ => False
  end.

(** ** File operations *)

(** A file operation: read (or not), run the crypto step, write. *)
Definition read_crypt_write (read : M Sys bytes) (crypt : bytes -> M Sys bytes)
    (write : bytes -> M Sys unit) : M Sys unit :=
  let! input := read in
  let! output := crypt input in
  write output.

(** ** Whole runs *)

(** Construct, encrypt, decrypt. *)
Definition encrypt_then_decrypt (rt : Runtime) (keys : KeysArgument)
    (options : SymmetricCryptorOptions) (data : bytes) : Result bytes :=
  match SymmetricCryptorBasic_new rt keys options empty_world with
  | (Throw e, _) => Throw e
  | (Ok c, w) =>
      match encrypt rt data (mkSys c w) with
      | (Throw e, _) => Throw e
      | (Ok blob, s) => (decrypt rt blob s).1
      end
  end.

(** Construct, put [content] in a file, decrypt the file in place: the
    result of the call and the content of the file afterwards. *)
Definition decrypt_file_in_place (rt : Runtime) (keys : KeysArgument)
    (content : bytes) : Result unit * option bytes :=
  match SymmetricCryptorBasic_new rt keys no_options empty_world with
  | (Throw e, _) => (Throw e, None)
  | (Ok c, w) =>
      let w' := mkWorld (entropy_pos w) (<["file" := content]> (files w)) (trace w) in
      let (r, s) := Standard.decryptFileInPlace rt "file" (mkSys c w') in
      (r, files (world s) !! "file"%string)
  end.

(** ** Overlapping readiness steps

    [ready] suspends once, at the [await] of the pending promise; between
    two suspension points a call runs alone.  A call therefore runs in
    two pieces, and the pieces of different calls interleave freely. *)

(** Up to the [await]: the promise the call will wait for, if one is
    pending. *)
Definition ready_begin : M Sys (option (Promise (list SymmetricCryptoService))) :=
  gets (fun s => keysToCryptoKeysPromise (self s)).

(** The end of every call: raise the captured failure, if there is one. *)
Definition ready_finish : M Sys unit :=
  let! fail := gets (fun s => keysToCryptoKeysFail (self s)) in
  match fail with
  | Some error => throw error
  | None => ret tt
  end.

(** From the [await] on, for a call that waited for [promise]. *)
Definition ready_resume (promise : Promise (list SymmetricCryptoService)) : M Sys unit :=
  let! _ :=
    try_catch
      (let! result := await promise in
       let! _ := set_cryptoKeysStorage (Some []) in
       let! single := gets (fun s => keyIsSingle (self s)) in
       if single then
         let! repeats := gets (fun s => keyOnSingleRepeats (self s)) in
         for_of (seq 0 (Z.to_nat repeats))
           (fun _ _ => push_cryptoKeysStorage (first_service result)) tt
       else push_cryptoKeysStorage result)
      (fun error => set_keysToCryptoKeysFail (Some error)) in
  let! _ := set_keysToCryptoKeysPromise None in
  ready_finish.

(** A configuration: the object and the world, the promises the suspended
    calls wait for, the results of the calls that have returned. *)
Record Overlap : Type := mkOverlap {
  ov_sys : Sys;
  ov_waiting : list (Promise (list SymmetricCryptoService));
  ov_returned : list (Result unit)
}.

Inductive overlap_step : Overlap -> Overlap -> Prop :=
  | step_call_waits s waiting returned promise s' :
      ready_begin s = (Ok (Some promise), s') ->
      overlap_step (mkOverlap s waiting returned)
                   (mkOverlap s' (promise :: waiting) returned)
  | step_call_returns s waiting returned s' r s'' :
      ready_begin s = (Ok None, s') ->
      ready_finish s' = (r, s'') ->
      overlap_step (mkOverlap s waiting returned) (mkOverlap s'' waiting (r :: returned))
  | step_resume s before promise after returned r s' :
      ready_resume promise s = (r, s') ->
      overlap_step (mkOverlap s (before ++ promise :: after) returned)
                   (mkOverlap s' (before ++ after) (r :: returned)).

Inductive overlap_steps : Overlap -> Overlap -> Prop :=
  | overlap_refl o : overlap_steps o o
  | overlap_more o1 o2 o3 : overlap_steps o1 o2 -> overlap_step o2 o3 -> overlap_steps o1 o3.

(** What every [ready] call on the instance returns. *)
Definition ready_outcome (promise : Promise (list SymmetricCryptoService)) : Result unit :=
  match outcome promise with
  | Ok _ => Ok tt
  | Throw e => Throw e
  end.

(** The object with [promise] pending. *)
Definition with_pending (c : Cryptor) (promise : Promise (list SymmetricCryptoService))
    : Cryptor :=
  mkCryptor (cipherTextDecoder c) (cipherTextEncoder c) (cryptoKeysStorage c)
    (keyIsSingle c) (keyOnSingleRepeats c) (keysToCryptoKeysFail c) (Some promise).

(** The object as the constructor leaves it: nothing stored, nothing
    captured, [promise] pending. *)
Definition fresh (c : Cryptor) (promise : Promise (list SymmetricCryptoService)) : Prop :=
  cryptoKeysStorage c = None /\
  keysToCryptoKeysFail c = None /\
  keysToCryptoKeysPromise c = Some promise.

(** ** Notions for the further properties *)

(** The stages an instance built from [keys] and [options] works with, or
    the error its calls raise: a function of the keys, the repeat count
    and the runtime only. *)
Definition chain_of (rt : Runtime) (keys : KeysArgument) (options : SymmetricCryptorOptions)
    : Result (list SymmetricCryptoService) :=
  match outcome (Promise_all (promise_of rt <$> key_list keys)) with
  | Ok result => Ok (stage_list (is_single keys) (repeats_of keys options) result)
  | Throw e => Throw e
  end.

(** The decoder of the instance undoes its encoder, as the declaration of
    the coder option asks of a custom pair. *)
Definition coder_roundtrip (c : Cryptor) : Prop :=
  forall data text, cipherTextEncoder c data = Ok text -> cipherTextDecoder c text = Ok data.

(** What [TextDecoder] makes of the bytes [TextEncoder] made of a text.
    It is the text itself for most texts, and not for all: the decoder
    drops a byte order mark at the start, and the encoder replaces a lone
    surrogate. *)
Definition text_recoded (rt : Runtime) (text : string) : string :=
  text_decode rt (text_encode rt text).

(** The text comes through the text encoder and decoder as it is. *)
Definition text_survives (rt : Runtime) (text : string) : Prop :=
  text_recoded rt text = text.

(** With an encoding name that the coder check accepts, in any spelling,
    [Buffer.from(_, encoding)] undoes [toString(encoding)]. *)
Definition builtin_buffer_roundtrip (rt : Runtime) : Prop :=
  forall data name,
    includes cipherTextCodersDefault (toLowerCase name) = true ->
    buffer_from rt (buffer_toString rt data name) name = data.

(** The imported key carries the algorithm name it was asked for. *)
Definition importKey_names_kept (rt : Runtime) : Prop :=
  forall material name cryptoKey,
    importKey rt material name = Ok cryptoKey -> ck_algorithm_name cryptoKey = name.

(** Two objects encrypt and decrypt alike: on every input and in every
    world they return the same and leave the world the same. *)
Definition same_behaviour (rt : Runtime) (c c' : Cryptor) : Prop :=
  forall data w,
    (encrypt rt data (mkSys c w)).1 = (encrypt rt data (mkSys c' w)).1 /\
    world (encrypt rt data (mkSys c w)).2 = world (encrypt rt data (mkSys c' w)).2 /\
    (decrypt rt data (mkSys c w)).1 = (decrypt rt data (mkSys c' w)).1 /\
    world (decrypt rt data (mkSys c w)).2 = world (decrypt rt data (mkSys c' w)).2.

(** A key spec written out in full: the algorithm named, the key as the
    bytes that are digested. *)
Definition written_out (rt : Runtime) (input : KeySpec) : KeySpec :=
  match create_resolve_input input with
  | Ok (algorithm, key) =>
      KeyObject (mkKeyInput (Some algorithm) (KeyBuffer (key_bytes rt key)))
  | Throw _ => input
  end.

Definition map_keys (f : KeySpec -> KeySpec) (keys : KeysArgument) : KeysArgument :=
  match keys with
  | KeysSingle key => KeysSingle (f key)
  | KeysArray keys => KeysArray (f <$> keys)
  end.

(** A service of the earlier file and one of the present file work
    alike: same key, same random value length, same encrypt and decrypt. *)
Definition services_agree (rt : Runtime) (old : Legacy.SymmetricCryptorService)
    (sv : SymmetricCryptoService) : Prop :=
  Legacy.sv_cryptoKey old = sv_cryptoKey sv /\
  Legacy.sv_saltLength old = sv_tokenLength sv /\
  Legacy.algorithm_name (Legacy.sv_algorithm old) = sv_algorithmName sv /\
  (forall data w, Legacy.Service_encrypt rt old data w = Service_encrypt rt sv data w) /\
  (forall data w, Legacy.Service_decrypt rt old data w = Service_decrypt rt sv data w).

(** Two promises settle alike: at the same time, with the same error or
    with services that work alike. *)
Definition promises_agree (rt : Runtime) (old : Promise Legacy.SymmetricCryptorService)
    (p : Promise SymmetricCryptoService) : Prop :=
  settled_at_return old = settled_at_return p /\
  match outcome old, outcome p with
  | Ok old_sv, Ok sv => services_agree rt old_sv sv
  | Throw e_old, Throw e => e_old = e
  | _, _ => False
  end.

(** Options that ask for the URL-safe built-in coder. *)
Definition base64url_options : SymmetricCryptorOptions :=
  mkOptions (Some (CoderDefault "base64url")) None.

(** A key list with one accepted and one refused algorithm name. *)
Definition half_bad_chain : KeysArgument :=
  KeysArray [KeyObject (mkKeyInput (Some "AES-CBC"%string) (KeyString "keyA"));
             KeyObject (mkKeyInput (Some "AES-ECB"%string) (KeyString "keyB"))].

(** * Properties *)

(** ** The monad and the loops *)

Lemma bind_ok {S A B} (m : M S A) (k : A -> M S B) s a s' :
  m s = (Ok a, s') -> bind m k s = k a s'.
Proof. intros H. unfold bind. by rewrite H. Qed.

Lemma bind_throw {S A B} (m : M S A) (k : A -> M S B) s e s' :
  m s = (Throw e, s') -> bind m k s = (Throw e, s').
Proof. intros H. unfold bind. by rewrite H. Qed.

Lemma bind_inv_ok {S A B} (m : M S A) (k : A -> M S B) s b s2 :
  bind m k s = (Ok b, s2) -> exists a s1, m s = (Ok a, s1) /\ k a s1 = (Ok b, s2).
Proof.
  unfold bind. destruct (m s) as [[a | e] s1]; intros H; [eauto | discriminate].
Qed.

Lemma for_of_app {S A B} (xs ys : list A) (body : A -> B -> M S B) acc s :
  for_of (xs ++ ys) body acc s = bind (for_of xs body acc) (for_of ys body) s.
Proof.
  revert acc s. induction xs as [| x xs IH]; intros acc s; simpl.
  { by unfold bind, ret. }
  unfold bind in *. destruct (body x acc s) as [[acc' | e] s']; [| done].
  apply IH.
Qed.

Lemma in_world_ok {A} (m : M World A) c w a w' :
  m w = (Ok a, w') -> in_world m (mkSys c w) = (Ok a, mkSys c w').
Proof. intros H. unfold in_world. simpl. by rewrite H. Qed.

Lemma in_world_self {A} (m : M World A) s : self (in_world m s).2 = self s.
Proof. unfold in_world. by destruct (m (world s)). Qed.

Lemma in_world_fst {A} (m : M World A) s : (in_world m s).1 = (m (world s)).1.
Proof. unfold in_world. by destruct (m (world s)). Qed.

Lemma in_world_world {A} (m : M World A) s : world (in_world m s).2 = (m (world s)).2.
Proof. unfold in_world. by destruct (m (world s)). Qed.

(** A loop whose body only touches the world is a loop in the world. *)
Lemma for_of_in_world {A B} (xs : list A) (body : A -> B -> M World B) acc s :
  for_of xs (fun x b => in_world (body x b)) acc s = in_world (for_of xs body acc) s.
Proof.
  revert acc s. induction xs as [| x xs IH]; intros acc [c w]; simpl; [done |].
  unfold bind, in_world; simpl.
  destruct (body x acc w) as [[acc' | e] w']; [| done].
  rewrite IH. unfold in_world. simpl. done.
Qed.

(** ** One stage *)

Section Stage.
Context (rt : Runtime).

Lemma Service_new_inv cryptoKey sv :
  Service_new cryptoKey = Ok sv ->
  ck_algorithm_name cryptoKey ∈ algorithms /\
  sv_algorithmName sv = ck_algorithm_name cryptoKey /\
  sv_cryptoKey sv = cryptoKey /\
  sv_tokenLength sv = nonceLength (ck_algorithm_name cryptoKey) /\
  (forall data, sv_resolveDecryptParameters sv data =
     stage_params (ck_algorithm_name cryptoKey) (take (sv_tokenLength sv) data)) /\
  (forall token, sv_resolveEncryptParameters sv token =
     stage_params (ck_algorithm_name cryptoKey) token).
Proof.
  intros Hnew. unfold Service_new in Hnew.
  destruct cryptoKey as [name material]; simpl in *.
  unfold nonceLength, stage_params, algorithms, slice_to.
  destruct (bool_decide_reflect (name = "AES-CBC"%string \/ name = "AES-GCM"%string))
    as [[-> | ->] | Hiv]; simpl in Hnew.
  - injection Hnew as <-. simpl. split_and!; first [done | set_solver].
  - injection Hnew as <-. simpl. split_and!; first [done | set_solver].
  - destruct (bool_decide_reflect (name = "AES-CTR"%string)) as [-> | Hctr];
      [| discriminate].
    injection Hnew as <-. simpl. split_and!; first [done | set_solver].
Qed.

Lemma getRandomValues_eq n w :
  getRandomValues rt n w =
    (Ok (map (entropy rt) (seq (entropy_pos w) n)),
     mkWorld (entropy_pos w + n) (files w) (trace w ++ [EvGetRandomValues n])).
Proof. done. Qed.

Lemma Service_encrypt_eq sv data w :
  let token := map (entropy rt) (seq (entropy_pos w) (sv_tokenLength sv)) in
  let params := sv_resolveEncryptParameters sv token in
  let w' := mkWorld (entropy_pos w + sv_tokenLength sv) (files w)
              ((trace w ++ [EvGetRandomValues (sv_tokenLength sv)]) ++
               [EvSubtleEncrypt params (sv_cryptoKey sv) data]) in
  Service_encrypt rt sv data w =
    (match subtle_encrypt rt params (sv_cryptoKey sv) data with
     | Ok output => Ok (token ++ output)
     | Throw e => Throw e
     end, w').
Proof.
  simpl. unfold Service_encrypt, bind, encrypt_primitive, bind, log, modify, lift_result, ret.
  rewrite getRandomValues_eq. simpl.
  by destruct (subtle_encrypt rt _ _ _).
Qed.

Lemma Service_decrypt_eq sv data w :
  let params := sv_resolveDecryptParameters sv data in
  let body := drop (sv_tokenLength sv) data in
  Service_decrypt rt sv data w =
    (subtle_decrypt rt params (sv_cryptoKey sv) body,
     mkWorld (entropy_pos w) (files w)
       (trace w ++ [EvSubtleDecrypt params (sv_cryptoKey sv) body])).
Proof. done. Qed.

Lemma entropy_token_length pos n : length (map (entropy rt) (seq pos n)) = n.
Proof. by rewrite length_map, length_seq. Qed.

Lemma service_wf_tokenLength sv : service_wf sv -> (12 <= sv_tokenLength sv)%nat.
Proof.
  intros [ck H]. apply Service_new_inv in H as (_ & _ & _ & -> & _).
  unfold nonceLength. case_bool_decide; lia.
Qed.

End Stage.

(** ** A list of stages, in the world *)

Section Chain.
Context (rt : Runtime).

Lemma stage_roundtrip sv data w blob w' :
  subtle_inverse rt -> service_wf sv ->
  Service_encrypt rt sv data w = (Ok blob, w') ->
  forall w2, (Service_decrypt rt sv blob w2).1 = Ok data.
Proof.
  intros Hinv [ck Hnew] Henc w2.
  apply Service_new_inv in Hnew as (_ & _ & Hkey & _ & Hdec & Hencp).
  rewrite Service_encrypt_eq in Henc. rewrite Service_decrypt_eq. simpl.
  destruct (subtle_encrypt rt _ _ _) as [output | e] eqn:Hout; [| discriminate].
  injection Henc as <- _.
  rewrite Hdec, Hencp in *.
  rewrite take_app_length', drop_app_length' by (symmetry; apply entropy_token_length).
  by apply Hinv.
Qed.

Lemma stage_encrypt_length sv data w blob w' :
  Service_encrypt rt sv data w = (Ok blob, w') ->
  (sv_tokenLength sv <= length blob)%nat /\
  (subtle_nonshrinking rt -> (sv_tokenLength sv + length data <= length blob)%nat).
Proof.
  intros Henc. rewrite Service_encrypt_eq in Henc.
  destruct (subtle_encrypt rt _ _ _) as [output | e] eqn:Hout; [| discriminate].
  injection Henc as <- _.
  rewrite length_app, entropy_token_length. split; [lia |].
  intros Hlen. apply Hlen in Hout. lia.
Qed.

Lemma stage_encrypt_total sv data w :
  subtle_encrypt_total rt -> exists blob w', Service_encrypt rt sv data w = (Ok blob, w').
Proof.
  intros Htot. rewrite Service_encrypt_eq.
  destruct (Htot (sv_resolveEncryptParameters sv
                    (map (entropy rt) (seq (entropy_pos w) (sv_tokenLength sv))))
                 (sv_cryptoKey sv) data) as [output ->].
  eauto.
Qed.

Lemma chain_roundtrip stages :
  subtle_inverse rt -> Forall service_wf stages ->
  forall data w blob w',
    for_of stages (Service_encrypt rt) data w = (Ok blob, w') ->
    forall w2, (for_of (reverse stages) (Service_decrypt rt) blob w2).1 = Ok data.
Proof.
  intros Hinv Hwf. induction Hwf as [| sv stages Hsv _ IH]; intros data w blob w' Henc w2.
  - simpl in *. unfold ret in *. by simplify_eq.
  - simpl in Henc. apply bind_inv_ok in Henc as (mid & w1 & Hfirst & Hrest).
    rewrite reverse_cons, for_of_app. unfold bind.
    specialize (IH _ _ _ _ Hrest w2).
    destruct (for_of (reverse stages) _ blob w2) as [[mid' | e] w3]; simpl in IH;
      [| discriminate].
    injection IH as ->. simpl. unfold bind.
    pose proof (stage_roundtrip _ _ _ _ _ Hinv Hsv Hfirst w3) as Hdec.
    destruct (Service_decrypt rt sv mid w3) as [[out | e] w4]; simpl in Hdec;
      [| discriminate].
    by injection Hdec as ->.
Qed.

Lemma chain_encrypt_length stages :
  forall data w blob w',
    for_of stages (Service_encrypt rt) data w = (Ok blob, w') ->
    (default 0%nat (sv_tokenLength <$> last stages) <= length blob)%nat /\
    (subtle_nonshrinking rt -> (chain_overhead stages + length data <= length blob)%nat).
Proof.
  induction stages as [| sv stages IH]; intros data w blob w' Henc.
  - simpl in *. unfold ret in Henc. simplify_eq. unfold chain_overhead. simpl.
    split; lia.
  - simpl in Henc. apply bind_inv_ok in Henc as (mid & w1 & Hfirst & Hrest).
    apply stage_encrypt_length in Hfirst as [Hone Hgrow].
    destruct (IH _ _ _ _ Hrest) as [IHlast IHgrow].
    split.
    + destruct stages as [| sv' stages'].
      * simpl in Hrest. unfold ret in Hrest. simplify_eq. done.
      * rewrite last_cons_cons. done.
    + intros Hlen. specialize (Hgrow Hlen). specialize (IHgrow Hlen).
      unfold chain_overhead in *. rewrite fmap_cons. simpl. lia.
Qed.

Lemma chain_encrypt_nonempty stages data w blob w' :
  stages <> [] -> Forall service_wf stages ->
  for_of stages (Service_encrypt rt) data w = (Ok blob, w') ->
  (12 <= length blob)%nat.
Proof.
  intros Hne Hwf Henc. apply chain_encrypt_length in Henc as [Hlast _].
  destruct (last stages) as [sv |] eqn:Hl.
  - apply last_Some in Hl as [front ->].
    apply Forall_app in Hwf as [_ Hsv]. apply Forall_inv in Hsv.
    apply service_wf_tokenLength in Hsv. simpl in Hlast. lia.
  - by apply last_None in Hl.
Qed.

Lemma chain_encrypt_total stages :
  subtle_encrypt_total rt ->
  forall data w, exists blob w', for_of stages (Service_encrypt rt) data w = (Ok blob, w').
Proof.
  intros Htot. induction stages as [| sv stages IH]; intros data w.
  - simpl. unfold ret. eauto.
  - simpl. destruct (stage_encrypt_total sv data w Htot) as (mid & w1 & Hfirst).
    destruct (IH mid w1) as (blob & w' & Hrest).
    exists blob, w'. by rewrite (bind_ok _ _ _ _ _ Hfirst).
Qed.

End Chain.

(** ** The readiness step *)

Lemma concat_replicate_singleton {A} (n : nat) (x : A) :
  concat (replicate n [x]) = replicate n x.
Proof. induction n as [| n IH]; simpl; [done | by rewrite IH]. Qed.

Lemma push_loop dec enc single repeats fail promise items w n :
  forall start stored,
    for_of (seq start n) (fun _ _ => push_cryptoKeysStorage items) tt
      (mkSys (mkCryptor dec enc (Some stored) single repeats fail promise) w) =
    (Ok tt,
     mkSys (mkCryptor dec enc (Some (stored ++ concat (replicate n items)))
              single repeats fail promise) w).
Proof.
  induction n as [| n IH]; intros start stored; simpl.
  - by rewrite app_nil_r.
  - unfold bind at 1. unfold push_cryptoKeysStorage at 1.
    unfold bind, gets, set_cryptoKeysStorage, modify. simpl.
    rewrite IH. by rewrite <- app_assoc.
Qed.

Lemma ready_eq c w :
  ready (mkSys c w) =
    (match keysToCryptoKeysFail (settle c) with
     | Some e => Throw e
     | None => Ok tt
     end, mkSys (settle c) w).
Proof.
  destruct c as [dec enc storage single repeats fail [[early [result | e]] |]];
    unfold ready, settle; simpl.
  - unfold bind at 1. unfold gets at 1. simpl.
    unfold bind at 1. unfold bind at 1. unfold try_catch, await, lift_result.
    unfold bind at 1. unfold bind at 1. unfold set_cryptoKeysStorage at 1, modify. simpl.
    unfold bind at 1. unfold gets at 1. simpl.
    destruct single; simpl.
    + unfold bind at 1. unfold gets at 1. simpl.
      rewrite push_loop. simpl.
      unfold set_keysToCryptoKeysPromise, modify, bind, gets. simpl.
      unfold stage_list. by destruct fail.
    + unfold push_cryptoKeysStorage, bind, gets, set_cryptoKeysStorage,
        set_keysToCryptoKeysPromise, modify. simpl.
      unfold stage_list. by destruct fail.
  - unfold bind, gets, try_catch, await, lift_result, set_keysToCryptoKeysFail,
      set_keysToCryptoKeysPromise, modify. simpl. done.
  - unfold bind, gets, ret. simpl. by destruct fail.
Qed.

Lemma settle_promise c : keysToCryptoKeysPromise (settle c) = None.
Proof.
  unfold settle. destruct (keysToCryptoKeysPromise c) as [[early [result | e]] |] eqn:H;
    simpl; done.
Qed.

Lemma settle_idem c : settle (settle c) = settle c.
Proof. unfold settle at 1. by rewrite settle_promise. Qed.

Lemma settle_coder c :
  cipherTextDecoder (settle c) = cipherTextDecoder c /\
  cipherTextEncoder (settle c) = cipherTextEncoder c.
Proof.
  unfold settle. by destruct (keysToCryptoKeysPromise c) as [[early [result | e]] |].
Qed.

Lemma getCryptoKeys_eq c w :
  getCryptoKeys (mkSys c w) = (settled_keys (settle c), mkSys (settle c) w).
Proof.
  unfold getCryptoKeys, settled_keys. unfold bind at 1. rewrite ready_eq.
  destruct (keysToCryptoKeysFail (settle c)) as [e |]; [done |].
  unfold bind, gets. simpl.
  destruct (cryptoKeysStorage (settle c)) as [cryptoKeys |]; [| done].
  by case_bool_decide.
Qed.

(** ** The calls, in terms of the settled object *)

Section Calls.
Context (rt : Runtime).

Lemma encrypt_eq c w data :
  encrypt rt data (mkSys c w) =
    match settled_keys (settle c) with
    | Throw e => (Throw e, mkSys (settle c) w)
    | Ok stages =>
        in_world (for_of stages (Service_encrypt rt) data) (mkSys (settle c) w)
    end.
Proof.
  unfold encrypt, encrypt_bin, bind. rewrite getCryptoKeys_eq.
  destruct (settled_keys (settle c)) as [stages | e]; [| done].
  apply for_of_in_world.
Qed.

Lemma decrypt_eq c w data :
  decrypt rt data (mkSys c w) =
    match settled_keys (settle c) with
    | Throw e => (Throw e, mkSys (settle c) w)
    | Ok stages =>
        if bool_decide (length data = 0%nat) then (Ok data, mkSys (settle c) w)
        else in_world (for_of (reverse stages) (Service_decrypt rt) data)
               (mkSys (settle c) w)
    end.
Proof.
  unfold decrypt, decrypt_bin, bind. rewrite getCryptoKeys_eq.
  destruct (settled_keys (settle c)) as [stages | e]; [| done].
  case_bool_decide; [done |]. apply for_of_in_world.
Qed.

Lemma encrypt_self c w data : self (encrypt rt data (mkSys c w)).2 = settle c.
Proof.
  rewrite encrypt_eq. destruct (settled_keys (settle c)); [| done].
  by rewrite in_world_self.
Qed.

Lemma decrypt_self c w data : self (decrypt rt data (mkSys c w)).2 = settle c.
Proof.
  rewrite decrypt_eq. destruct (settled_keys (settle c)); [| done].
  case_bool_decide; [done |]. by rewrite in_world_self.
Qed.

Lemma encrypt_text_self c w data : self (encrypt_text rt data (mkSys c w)).2 = settle c.
Proof.
  unfold encrypt_text, bind. fold (encrypt rt (text_encode rt data)).
  pose proof (encrypt_self c w (text_encode rt data)) as H.
  destruct (encrypt rt _ _) as [[bin | e] s]; simpl in *; [| done].
  unfold gets, lift_result. simpl. done.
Qed.

(** A text to decrypt is first decoded; when the decoder throws, the
    object is not touched at all. *)
Lemma decrypt_text_eq c w data :
  decrypt_text rt data (mkSys c w) =
    match cipherTextDecoder c data with
    | Throw e => (Throw e, mkSys c w)
    | Ok decoded =>
        match decrypt rt decoded (mkSys c w) with
        | (Ok bin, s) => (Ok (text_decode rt bin), s)
        | (Throw e, s) => (Throw e, s)
        end
    end.
Proof.
  unfold decrypt_text, bind, gets, lift_result. simpl.
  destruct (cipherTextDecoder c data) as [decoded | e]; [| done].
  fold (decrypt rt decoded). by destruct (decrypt rt decoded _) as [[bin | e] s].
Qed.

Lemma bind_ret_state {A B} (m : M Sys A) (f : A -> B) s :
  (bind m (fun a => ret (f a)) s).2 = (m s).2.
Proof. unfold bind, ret. by destruct (m s) as [[a | e] s']. Qed.

Lemma call_self c w cl :
  self (call rt cl (mkSys c w)).2 = c \/ self (call rt cl (mkSys c w)).2 = settle c.
Proof.
  destruct cl as [| data | data | data | data]; simpl; rewrite bind_ret_state.
  - right. rewrite ready_eq. done.
  - right. apply encrypt_self.
  - right. apply decrypt_self.
  - right. apply encrypt_text_self.
  - rewrite decrypt_text_eq.
    destruct (cipherTextDecoder c data) as [decoded | e]; [| by left].
    pose proof (decrypt_self c w decoded). right.
    by destruct (decrypt rt decoded _) as [[r | e] s].
Qed.

End Calls.

Lemma Reachable_cases rt c0 c : Reachable rt c0 c -> c = c0 \/ c = settle c0.
Proof.
  induction 1 as [| c cl w _ IH]; [by left |].
  destruct (call_self rt c w cl) as [-> | ->]; [done |].
  destruct IH as [-> | ->]; [by right |]. right. apply settle_idem.
Qed.

Lemma Reachable_settle rt c0 c : Reachable rt c0 c -> settle c = settle c0.
Proof.
  intros H. apply Reachable_cases in H as [-> | ->]; [done | apply settle_idem].
Qed.

(** ** The constructor *)

Section Constructor.
Context (rt : Runtime).

Lemma create_eq input w :
  create rt input w = (Ok (promise_of rt input), add_events w (derivation_events rt input)).
Proof.
  unfold create, promise_of, derived_service, derivation_events, add_events, async.
  destruct (create_resolve_input input) as [[algorithm key] | e].
  - unfold bind, digest, import_key, bind, log, modify, lift_result, ret. simpl.
    unfold key_bytes. rewrite <- app_assoc. simpl.
    by destruct key; destruct (importKey rt _ _).
  - unfold ret. destruct w. by rewrite app_nil_r.
Qed.

Lemma map_M_create_eq keys w :
  map_M (create rt) keys w =
    (Ok (promise_of rt <$> keys), add_events w (concat (derivation_events rt <$> keys))).
Proof.
  revert w. induction keys as [| k keys IH]; intros w; simpl.
  - unfold ret, add_events. destruct w. by rewrite app_nil_r.
  - unfold bind at 1. rewrite create_eq. unfold bind at 1. rewrite IH.
    unfold ret, add_events. simpl. by rewrite app_assoc.
Qed.

Lemma safe_integer_ge_1 times :
  Number_isSafeInteger times && number_ge_1 times = true -> 1 <= number_to_Z times.
Proof.
  destruct times as [| negative | [num den]]; simpl; try done.
  rewrite !andb_true_iff. intros [[Hint _] Hge].
  unfold Qle_bool in Hge. simpl in Hge.
  apply Z.leb_le in Hge. apply Z.div_le_lower_bound; lia.
Qed.

Lemma new_inv keys options w c0 w0 :
  SymmetricCryptorBasic_new rt keys options w = (Ok c0, w0) ->
  exists coder,
    resolveCipherTextCoder rt (opt_cipherTextCoder options) = Ok coder /\
    key_list keys <> [] /\
    1 <= repeats_of keys options /\
    c0 = mkCryptor (decoder coder) (encoder coder) None (is_single keys)
           (repeats_of keys options) None
           (Some (Promise_all (promise_of rt <$> key_list keys))) /\
    w0 = add_events w (concat (derivation_events rt <$> key_list keys)).
Proof.
  unfold SymmetricCryptorBasic_new. unfold bind at 1, lift_result at 1.
  destruct (resolveCipherTextCoder rt _) as [coder | e]; [| done].
  intros H. exists coder. split; [done |].
  destruct keys as [key | keys]; simpl.
  - unfold repeats_of. destruct (opt_times options) as [times |] eqn:Htimes.
    + destruct (Number_isSafeInteger times && number_ge_1 times) eqn:Hsafe;
        simpl in H; [| by unfold bind, throw in H].
      unfold bind at 1 in H. unfold ret at 1 in H.
      unfold bind in H. rewrite create_eq in H. unfold ret in H.
      injection H as <- <-. simpl. rewrite app_nil_r.
      split_and!; try done. by apply safe_integer_ge_1.
    + unfold bind at 1 in H. unfold ret at 1 in H.
      unfold bind in H. rewrite create_eq in H. unfold ret in H.
      injection H as <- <-. simpl. rewrite app_nil_r.
      split_and!; done.
  - case_bool_decide as Hlen; [by unfold throw in H |].
    unfold bind in H. rewrite map_M_create_eq in H. unfold ret in H.
    injection H as <- <-. unfold repeats_of.
    split_and!; try done. by intros ->.
Qed.

Lemma derived_service_wf input sv : derived_service rt input = Ok sv -> service_wf sv.
Proof.
  unfold derived_service, service_wf.
  destruct (create_resolve_input input) as [[algorithm key] | e]; [| done].
  destruct (importKey rt _ _) as [cryptoKey | e]; [eauto | done].
Qed.

Lemma all_outcomes_promise_of keys result :
  all_outcomes (promise_of rt <$> keys) = Ok result ->
  Forall2 (fun key sv => derived_service rt key = Ok sv) keys result.
Proof.
  revert result. induction keys as [| k keys IH]; intros result; simpl.
  - intros [= <-]. constructor.
  - destruct (derived_service rt k) as [sv | e] eqn:Hk; [| done].
    destruct (all_outcomes _) as [values | e]; [| done].
    intros [= <-]. constructor; [done | by apply IH].
Qed.

Lemma Promise_all_ok {A} (ps : list (Promise A)) result :
  outcome (Promise_all ps) = Ok result -> all_outcomes ps = Ok result.
Proof. unfold Promise_all. by destruct (early_rejection ps). Qed.

(** The stage list of a constructed instance whose keys all derive. *)
Lemma new_stages keys options w c0 w0 result :
  SymmetricCryptorBasic_new rt keys options w = (Ok c0, w0) ->
  (exists promise, keysToCryptoKeysPromise c0 = Some promise /\ outcome promise = Ok result) ->
  let stages := stage_list (keyIsSingle c0) (keyOnSingleRepeats c0) result in
  Forall2 (fun key sv => derived_service rt key = Ok sv) (key_list keys) result /\
  settled_keys (settle c0) = Ok stages /\
  stages <> [] /\
  Forall service_wf stages /\
  (forall key, keys = KeysSingle key ->
     exists sv, result = [sv] /\
       stages = replicate (Z.to_nat (repeats_of keys options)) sv) /\
  (forall list, keys = KeysArray list -> stages = result).
Proof.
  intros Hnew (promise & Hp & Hout).
  apply new_inv in Hnew as (coder & _ & Hne & Hrep & -> & _). simpl in *.
  injection Hp as <-.
  pose proof (all_outcomes_promise_of _ _ (Promise_all_ok _ _ Hout)) as Hall.
  assert (Hwf : Forall service_wf result).
  { clear -Hall. induction Hall; constructor; eauto using derived_service_wf. }
  assert (Hkeys : forall stages,
    stages = stage_list (is_single keys) (repeats_of keys options) result ->
    stages <> [] ->
    settled_keys
      (settle (mkCryptor (decoder coder) (encoder coder) None (is_single keys)
                 (repeats_of keys options) None
                 (Some (Promise_all (promise_of rt <$> key_list keys))))) = Ok stages).
  { intros stages -> Hstages. unfold settle. simpl. rewrite Hout.
    unfold settled_keys. simpl. case_bool_decide as Hlen; [| done].
    by apply length_zero_iff_nil in Hlen. }
  split; [done |].
  destruct keys as [key | list].
  - remember (repeats_of (KeysSingle key) options) as r eqn:Hr. simpl in *.
    apply Forall2_cons_inv_l in Hall as (sv & rest & Hsv & Hrest & ->).
    apply Forall2_nil_inv_l in Hrest as ->.
    unfold stage_list, first_service in *. simpl in *.
    rewrite concat_replicate_singleton in *.
    destruct (Z.to_nat r) as [| n] eqn:Hn; [lia |].
    split_and!.
    + by apply Hkeys.
    + done.
    + apply Forall_replicate. by apply Forall_inv in Hwf.
    + intros key' _. eauto.
    + done.
  - simpl in *.
    assert (Hstages : result <> []).
    { intros ->. apply Forall2_nil_inv_r in Hall. done. }
    split_and!; try done.
    by apply Hkeys.
Qed.

End Constructor.

(** A constructed instance settles in one of two ways: its promise is
    rejected and the error is kept, or it is fulfilled and the stage list
    is not empty and made of stages of [Service_new]. *)
Lemma new_settled rt keys options w c0 w0 :
  SymmetricCryptorBasic_new rt keys options w = (Ok c0, w0) ->
  exists promise, keysToCryptoKeysPromise c0 = Some promise /\
    match outcome promise with
    | Throw e =>
        keysToCryptoKeysFail (settle c0) = Some e /\ settled_keys (settle c0) = Throw e
    | Ok result =>
        keysToCryptoKeysFail (settle c0) = None /\
        exists stages,
          settled_keys (settle c0) = Ok stages /\ stages <> [] /\ Forall service_wf stages
    end.
Proof.
  intros Hnew. pose proof Hnew as Hinv.
  apply new_inv in Hinv as (coder & _ & _ & _ & Hc0 & _).
  exists (Promise_all (promise_of rt <$> key_list keys)).
  split; [by rewrite Hc0 |].
  destruct (outcome (Promise_all (promise_of rt <$> key_list keys)))
    as [result | e] eqn:Hout.
  - destruct (new_stages rt keys options w c0 w0 result Hnew) as (_ & Hk & Hne & Hwf & _).
    { rewrite Hc0. simpl. eauto. }
    split; [| eauto].
    rewrite Hc0. unfold settle. simpl. by rewrite Hout.
  - rewrite Hc0. unfold settle, settled_keys. simpl. by rewrite Hout.
Qed.

(** ** Encrypting and decrypting on a settled instance *)

Lemma encrypt_inv rt c w1 p stages blob s2 :
  settled_keys (settle c) = Ok stages ->
  encrypt rt p (mkSys c w1) = (Ok blob, s2) ->
  exists w2,
    for_of stages (Service_encrypt rt) p w1 = (Ok blob, w2) /\ s2 = mkSys (settle c) w2.
Proof.
  intros Hkeys Henc. rewrite encrypt_eq, Hkeys in Henc.
  unfold in_world in Henc. simpl in Henc.
  destruct (for_of stages (Service_encrypt rt) p w1) as [[out | e] w2];
    [| discriminate].
  injection Henc as -> <-. eauto.
Qed.

Lemma decrypt_of_chain rt c p stages w1 blob w2 :
  subtle_inverse rt ->
  settled_keys (settle c) = Ok stages -> stages <> [] -> Forall service_wf stages ->
  for_of stages (Service_encrypt rt) p w1 = (Ok blob, w2) ->
  forall w3, (decrypt rt blob (mkSys (settle c) w3)).1 = Ok p.
Proof.
  intros Hinv Hkeys Hne Hwf Hchain w3.
  rewrite decrypt_eq, settle_idem, Hkeys.
  pose proof (chain_encrypt_nonempty rt _ _ _ _ _ Hne Hwf Hchain) as Hlen.
  case_bool_decide; [lia |].
  rewrite in_world_fst. simpl.
  by apply (chain_roundtrip rt stages Hinv Hwf p w1 blob w2).
Qed.

Lemma encrypt_total_settled rt c w1 p stages :
  subtle_encrypt_total rt ->
  settled_keys (settle c) = Ok stages ->
  exists blob s2, encrypt rt p (mkSys c w1) = (Ok blob, s2).
Proof.
  intros Htot Hkeys. rewrite encrypt_eq, Hkeys.
  destruct (chain_encrypt_total rt stages Htot p w1) as (blob & w2 & Hchain).
  exists blob, (mkSys (settle c) w2). unfold in_world. simpl. by rewrite Hchain.
Qed.

(** The stages of a constructed instance whose readiness step succeeds. *)
Lemma ready_stages rt keys options w c0 w0 c w1 :
  SymmetricCryptorBasic_new rt keys options w = (Ok c0, w0) ->
  Reachable rt c0 c ->
  (ready (mkSys c w1)).1 = Ok tt ->
  exists stages,
    settled_keys (settle c) = Ok stages /\ stages <> [] /\ Forall service_wf stages.
Proof.
  intros Hnew Hreach Hready.
  apply new_settled in Hnew as (promise & _ & Hsettled).
  apply Reachable_settle in Hreach. rewrite ready_eq in Hready. simpl in Hready.
  rewrite Hreach in *.
  destruct (outcome promise) as [result | e].
  - by destruct Hsettled as [_ H].
  - destruct Hsettled as [Hfail _]. rewrite Hfail in Hready. discriminate.
Qed.

Lemma encrypt_ok_ready rt c w1 p blob s2 :
  encrypt rt p (mkSys c w1) = (Ok blob, s2) -> (ready (mkSys c w1)).1 = Ok tt.
Proof.
  rewrite encrypt_eq, ready_eq. unfold settled_keys. simpl.
  by destruct (keysToCryptoKeysFail (settle c)).
Qed.

Lemma chain_encrypt_entropy rt stages :
  forall data w blob w',
    for_of stages (Service_encrypt rt) data w = (Ok blob, w') ->
    entropy_pos w' = (entropy_pos w + chain_overhead stages)%nat /\ files w' = files w.
Proof.
  induction stages as [| sv stages IH]; intros data w blob w' Henc.
  - simpl in Henc. unfold ret in Henc. simplify_eq. unfold chain_overhead. simpl.
    split; [lia | done].
  - simpl in Henc. apply bind_inv_ok in Henc as (mid & w1 & Hfirst & Hrest).
    rewrite Service_encrypt_eq in Hfirst.
    destruct (subtle_encrypt rt _ _ _); [| discriminate].
    injection Hfirst as _ <-.
    apply IH in Hrest as [-> ->]. unfold chain_overhead. rewrite fmap_cons. simpl.
    split; [lia | done].
Qed.

Lemma chain_overhead_lower_bound stages :
  Forall service_wf stages -> (12 * length stages <= chain_overhead stages)%nat.
Proof.
  unfold chain_overhead. induction 1 as [| sv stages Hsv _ IH]; [simpl; lia |].
  apply service_wf_tokenLength in Hsv.
  rewrite fmap_cons, length_cons.
  change (sum_list (sv_tokenLength sv :: (sv_tokenLength <$> stages)))
    with (sv_tokenLength sv + sum_list (sv_tokenLength <$> stages))%nat.
  lia.
Qed.

(** ** Keys that derive *)

Lemma create_resolve_input_accepted input algorithm key :
  create_resolve_input input = Ok (algorithm, key) -> algorithm ∈ algorithms.
Proof.
  unfold create_resolve_input, includes, algorithms.
  destruct input as [k | [[given |] k]]; simpl.
  - intros [= <- _]. set_solver.
  - case_bool_decide as Hin; simpl; [| done]. by intros [= <- _].
  - intros [= <- _]. set_solver.
Qed.

Lemma Service_new_accepts cryptoKey :
  ck_algorithm_name cryptoKey ∈ algorithms -> exists sv, Service_new cryptoKey = Ok sv.
Proof.
  intros Hname. unfold Service_new, algorithms in *.
  apply elem_of_cons in Hname as [-> | Hname]; [simpl; eauto |].
  apply elem_of_cons in Hname as [-> | Hname]; [simpl; eauto |].
  apply list_elem_of_singleton in Hname as ->. simpl. eauto.
Qed.

Lemma derived_service_ok rt input :
  importKey_total rt -> accepted_algorithm input -> exists sv, derived_service rt input = Ok sv.
Proof.
  intros Himport Hacc. unfold accepted_algorithm, derived_service in *.
  destruct (create_resolve_input input) as [[algorithm key] | e] eqn:Hin; [| done].
  apply create_resolve_input_accepted in Hin.
  destruct (Himport (sha256 rt (key_bytes rt key)) algorithm Hin) as (ck & -> & Hname).
  apply Service_new_accepts. by rewrite Hname.
Qed.

Lemma Promise_all_fulfilled rt keys :
  importKey_total rt -> Forall accepted_algorithm keys ->
  exists result, outcome (Promise_all (promise_of rt <$> keys)) = Ok result.
Proof.
  intros Himport Hacc. unfold Promise_all.
  assert (H : early_rejection (promise_of rt <$> keys) = None /\
              exists result, all_outcomes (promise_of rt <$> keys) = Ok result).
  { induction Hacc as [| k keys Hk _ [IHe [result IHa]]]; [simpl; eauto |].
    rewrite fmap_cons. cbn [early_rejection all_outcomes promise_of outcome settled_at_return].
    destruct (derived_service_ok rt k Himport Hk) as [sv ->].
    rewrite IHa, IHe. split; [| eauto].
    by destruct (create_resolve_input k). }
  destruct H as [-> H]. exact H.
Qed.

(** With keys whose algorithms are accepted and a key import that does
    not fail, the readiness step of a constructed instance succeeds. *)
Lemma valid_chain_ready rt keys options w c0 w0 c w1 :
  importKey_total rt ->
  Forall accepted_algorithm (key_list keys) ->
  SymmetricCryptorBasic_new rt keys options w = (Ok c0, w0) ->
  Reachable rt c0 c ->
  (ready (mkSys c w1)).1 = Ok tt.
Proof.
  intros Himport Hacc Hnew Hreach.
  destruct (Promise_all_fulfilled rt (key_list keys) Himport Hacc) as [result Hout].
  destruct (new_settled _ _ _ _ _ _ Hnew) as (promise & Hp & Hsettled).
  apply new_inv in Hnew as (coder & _ & _ & _ & Hc0 & _).
  rewrite Hc0 in Hp. simpl in Hp. injection Hp as <-. rewrite Hout in Hsettled.
  destruct Hsettled as [Hfail _].
  apply Reachable_settle in Hreach. rewrite ready_eq. simpl. by rewrite Hreach, Hfail.
Qed.

(** * The claims *)

(** C1.  Round trip.  On an instance made by the constructor, in any state
    a sequence of calls has left it in, whenever [encrypt] returns a blob
    for the payload [p], [decrypt] of that blob on the same instance
    returns exactly [p].  And [encrypt] does return a blob as soon as the
    readiness step succeeds and the cipher primitive encrypts; the
    readiness step succeeds when the algorithms of the keys are accepted
    and the key import does not fail.  The cipher primitive is assumed to
    decrypt what it encrypted. *)
Theorem encrypt_decrypt_roundtrip rt keys options w c0 w0 c :
  subtle_inverse rt ->
  SymmetricCryptorBasic_new rt keys options w = (Ok c0, w0) ->
  Reachable rt c0 c ->
  forall p w1,
    (forall blob s2,
       encrypt rt p (mkSys c w1) = (Ok blob, s2) ->
       forall w3, (decrypt rt blob (mkSys (self s2) w3)).1 = Ok p) /\
    (subtle_encrypt_total rt ->
     (ready (mkSys c w1)).1 = Ok tt ->
     exists blob s2, encrypt rt p (mkSys c w1) = (Ok blob, s2)) /\
    (subtle_encrypt_total rt ->
     importKey_total rt ->
     Forall accepted_algorithm (key_list keys) ->
     exists blob s2,
       encrypt rt p (mkSys c w1) = (Ok blob, s2) /\
       forall w3, (decrypt rt blob (mkSys (self s2) w3)).1 = Ok p).
Proof.
  intros Hinv Hnew Hreach p w1.
  assert (Hround : forall blob s2,
    encrypt rt p (mkSys c w1) = (Ok blob, s2) ->
    forall w3, (decrypt rt blob (mkSys (self s2) w3)).1 = Ok p).
  { intros blob s2 Henc w3.
    destruct (ready_stages _ _ _ _ _ _ _ _ Hnew Hreach (encrypt_ok_ready _ _ _ _ _ _ Henc))
      as (stages & Hkeys & Hne & Hwf).
    destruct (encrypt_inv _ _ _ _ _ _ _ Hkeys Henc) as (w2 & Hchain & ->). simpl.
    by apply (decrypt_of_chain rt c p stages w1 blob w2). }
  assert (Htotal : subtle_encrypt_total rt ->
    (ready (mkSys c w1)).1 = Ok tt ->
    exists blob s2, encrypt rt p (mkSys c w1) = (Ok blob, s2)).
  { intros Htot Hready.
    destruct (ready_stages _ _ _ _ _ _ _ _ Hnew Hreach Hready) as (stages & Hkeys & _).
    by apply (encrypt_total_settled rt c w1 p stages). }
  split_and!; [exact Hround | exact Htotal |].
  intros Htot Himport Hacc.
  destruct (Htotal Htot (valid_chain_ready _ _ _ _ _ _ _ w1 Himport Hacc Hnew Hreach))
    as (blob & s2 & Henc).
  exists blob, s2. split; [done | by apply Hround].
Qed.

(** The small runtime meets the assumptions. *)
Lemma toy_subtle_inverse : subtle_inverse toy_runtime.
Proof.
  intros params key data output. simpl. unfold toy_encrypt, toy_decrypt.
  intros [= <-].
  set (tag := take 1 (toy_token params) ++ take 1 (ck_material key)).
  assert (Hn : (length (reverse data ++ tag) - length tag)%nat = length (reverse data)).
  { rewrite length_app. lia. }
  rewrite Hn, drop_app_length, take_app_length, reverse_involutive.
  rewrite bool_decide_true; [done |].
  split; [done |]. rewrite length_app. lia.
Qed.

Lemma toy_subtle_encrypt_total : subtle_encrypt_total toy_runtime.
Proof. intros params key data. simpl. unfold toy_encrypt. eauto. Qed.

Lemma toy_subtle_nonshrinking : subtle_nonshrinking toy_runtime.
Proof.
  intros params key data output. simpl. unfold toy_encrypt. intros [= <-].
  rewrite length_app, length_reverse. lia.
Qed.

Lemma toy_importKey_total : importKey_total toy_runtime.
Proof.
  intros material name Hname. exists (mkCryptoKey name material). split; [| done].
  simpl. unfold toy_importKey, includes. by rewrite bool_decide_true.
Qed.

Lemma toy_chain_accepted : Forall accepted_algorithm (key_list toy_chain).
Proof. repeat constructor. Qed.

Lemma encrypt_decrypt_roundtrip_witness :
  subtle_inverse toy_runtime /\
  exists c0 w0,
    SymmetricCryptorBasic_new toy_runtime toy_chain no_options empty_world = (Ok c0, w0) /\
    forall p w1,
      (forall blob s2,
         encrypt toy_runtime p (mkSys c0 w1) = (Ok blob, s2) ->
         forall w3, (decrypt toy_runtime blob (mkSys (self s2) w3)).1 = Ok p) /\
      (subtle_encrypt_total toy_runtime ->
       (ready (mkSys c0 w1)).1 = Ok tt ->
       exists blob s2, encrypt toy_runtime p (mkSys c0 w1) = (Ok blob, s2)) /\
      (subtle_encrypt_total toy_runtime ->
       importKey_total toy_runtime ->
       Forall accepted_algorithm (key_list toy_chain) ->
       exists blob s2,
         encrypt toy_runtime p (mkSys c0 w1) = (Ok blob, s2) /\
         forall w3, (decrypt toy_runtime blob (mkSys (self s2) w3)).1 = Ok p).
Proof.
  split; [exact toy_subtle_inverse |].
  eexists. eexists. split; [vm_compute; reflexivity |].
  eapply (encrypt_decrypt_roundtrip toy_runtime toy_chain no_options empty_world).
  - exact toy_subtle_inverse.
  - vm_compute; reflexivity.
  - apply Reachable_new.
Defined.

(** ** The order of the stages *)

Lemma apply_in_order_app step front extra order :
  Forall (fun i => (i < length front)%nat) order ->
  forall bin w,
    apply_in_order step (front ++ extra) order bin w = apply_in_order step front order bin w.
Proof.
  induction 1 as [| i order Hi _ IH]; intros bin w; simpl; [done |].
  rewrite lookup_app_l by done.
  destruct (front !! i) as [sv |]; [| apply IH].
  unfold bind. destruct (step sv bin w) as [[bin' | e] w']; [| done].
  by rewrite IH.
Qed.

Lemma decrypt_order_bound n : Forall (fun i => (i < n)%nat) (decrypt_order n).
Proof.
  induction n as [| n IH]; simpl; constructor; [lia |].
  eapply Forall_impl; [exact IH |]. simpl. lia.
Qed.

Lemma for_of_encrypt_order step stages :
  forall front bin w,
    apply_in_order step (front ++ stages) (seq (length front) (length stages)) bin w =
    for_of stages step bin w.
Proof.
  induction stages as [| sv stages IH]; intros front bin w; simpl; [done |].
  rewrite list_lookup_middle by done.
  unfold bind. destruct (step sv bin w) as [[bin' | e] w']; [| done].
  specialize (IH (front ++ [sv]) bin' w').
  rewrite <- app_assoc, length_app in IH. simpl in IH.
  rewrite Nat.add_1_r in IH. by rewrite IH.
Qed.

Lemma for_of_decrypt_order step stages :
  forall bin w,
    apply_in_order step stages (decrypt_order (length stages)) bin w =
    for_of (reverse stages) step bin w.
Proof.
  induction stages as [| sv front IH] using rev_ind; intros bin w; [done |].
  rewrite length_app, Nat.add_1_r, reverse_app. simpl.
  rewrite list_lookup_middle by done.
  unfold bind. destruct (step sv bin w) as [[bin' | e] w']; [| done].
  rewrite apply_in_order_app by apply decrypt_order_bound.
  by rewrite IH.
Qed.

Lemma in_world_ext {A} (m1 m2 : M World A) s :
  (forall w, m1 w = m2 w) -> in_world m1 s = in_world m2 s.
Proof. intros H. unfold in_world. by rewrite H. Qed.

(** C3.  Order of the stages.  With the [n] stages the instance works
    with, [encrypt] runs the per-stage encrypt at the indices
    [0, 1, ..., n-1] in that order, each stage on the output of the one
    before, and [decrypt], on an input that is not empty, runs the
    per-stage decrypt at the indices [n-1, ..., 1, 0]. *)
Theorem chain_order rt c w stages s' :
  getCryptoKeys (mkSys c w) = (Ok stages, s') ->
  forall data,
    encrypt rt data (mkSys c w) =
      in_world (apply_in_order (Service_encrypt rt) stages
                  (encrypt_order (length stages)) data) s' /\
    (data <> [] ->
     decrypt rt data (mkSys c w) =
       in_world (apply_in_order (Service_decrypt rt) stages
                   (decrypt_order (length stages)) data) s').
Proof.
  intros Hkeys data. rewrite getCryptoKeys_eq in Hkeys. injection Hkeys as Hkeys <-.
  split.
  - rewrite encrypt_eq, Hkeys. unfold encrypt_order.
    apply in_world_ext. intros w'. symmetry. apply (for_of_encrypt_order _ stages []).
  - intros Hdata. rewrite decrypt_eq, Hkeys.
    rewrite bool_decide_false by (by destruct data).
    apply in_world_ext. intros w'. symmetry. apply for_of_decrypt_order.
Qed.

Lemma chain_order_witness :
  exists c0 w0 stages s',
    SymmetricCryptorBasic_new toy_runtime toy_chain no_options empty_world = (Ok c0, w0) /\
    getCryptoKeys (mkSys c0 w0) = (Ok stages, s') /\
    encrypt_order (length stages) = [0; 1; 2]%nat /\
    decrypt_order (length stages) = [2; 1; 0]%nat /\
    forall data,
      encrypt toy_runtime data (mkSys c0 w0) =
        in_world (apply_in_order (Service_encrypt toy_runtime) stages
                    (encrypt_order (length stages)) data) s' /\
      (data <> [] ->
       decrypt toy_runtime data (mkSys c0 w0) =
         in_world (apply_in_order (Service_decrypt toy_runtime) stages
                     (decrypt_order (length stages)) data) s').
Proof.
  do 4 eexists.
  split; [vm_compute; reflexivity |].
  split; [vm_compute; reflexivity |].
  split; [reflexivity |]. split; [reflexivity |].
  apply (chain_order toy_runtime). vm_compute; reflexivity.
Defined.

(** C4.  Layout of one stage's blob.  A stage built for a key has a
    random value length of 16 for AES-CBC and AES-CTR and of 12 for
    AES-GCM.  Its encrypt draws a random value of exactly that length and
    runs the cipher primitive with that value as the [iv] (CBC, GCM) or as
    the counter block with bit length 64 (CTR); every blob it returns is
    that random value followed by the output of the primitive, and when
    the primitive throws it throws the same error.  Its decrypt splits its input at exactly that length: the prefix
    goes into the parameters in the same way, the rest is the input of the
    primitive. *)
Theorem stage_blob_layout rt cryptoKey sv :
  Service_new cryptoKey = Ok sv ->
  let name := ck_algorithm_name cryptoKey in
  let n := sv_tokenLength sv in
  let params := stage_params name in
  (name = "AES-CBC"%string /\ n = 16%nat /\
     (forall token, params token = AesIvParams "AES-CBC" token) \/
   name = "AES-CTR"%string /\ n = 16%nat /\
     (forall token, params token = AesCtrParams "AES-CTR" token 64) \/
   name = "AES-GCM"%string /\ n = 12%nat /\
     (forall token, params token = AesIvParams "AES-GCM" token)) /\
  (forall data w, exists token,
     (getRandomValues rt n w).1 = Ok token /\
     length token = n /\
     (forall blob,
        (Service_encrypt rt sv data w).1 = Ok blob ->
        exists output,
          subtle_encrypt rt (params token) cryptoKey data = Ok output /\
          blob = token ++ output /\
          take n blob = token /\ drop n blob = output) /\
     (forall e,
        subtle_encrypt rt (params token) cryptoKey data = Throw e ->
        (Service_encrypt rt sv data w).1 = Throw e)) /\
  (forall blob w,
     (Service_decrypt rt sv blob w).1 =
       subtle_decrypt rt (params (take n blob)) cryptoKey (drop n blob)) /\
  (forall token body w,
     length token = n ->
     (Service_decrypt rt sv (token ++ body) w).1 =
       subtle_decrypt rt (params token) cryptoKey body).
Proof.
  intros Hnew. cbv zeta.
  destruct (Service_new_inv _ _ Hnew) as (Hname & _ & Hkey & Hlen & Hdec & Henc).
  split_and!.
  - rewrite Hlen. unfold nonceLength, stage_params, algorithms in *.
    apply elem_of_cons in Hname as [-> | Hname]; [by left |].
    apply elem_of_cons in Hname as [-> | Hname]; [by right; left |].
    apply list_elem_of_singleton in Hname as ->. by right; right.
  - intros data w. exists (map (entropy rt) (seq (entropy_pos w) (sv_tokenLength sv))).
    pose proof (entropy_token_length rt (entropy_pos w) (sv_tokenLength sv)) as Hlength.
    split_and!; [done | exact Hlength | |].
    + intros blob. rewrite Service_encrypt_eq. simpl. rewrite Henc, Hkey.
      destruct (subtle_encrypt rt _ _ _) as [output | e]; [| done].
      simpl. intros [= <-]. exists output.
      by rewrite take_app_length', drop_app_length'.
    + intros e Hthrow. rewrite Service_encrypt_eq. simpl.
      by rewrite Henc, Hkey, Hthrow.
  - intros blob w. rewrite Service_decrypt_eq. simpl. by rewrite Hdec, Hkey.
  - intros token body w Htoken. rewrite Service_decrypt_eq. simpl.
    rewrite Hdec, Hkey, take_app_length', drop_app_length' by done. done.
Qed.

Lemma stage_blob_layout_witness :
  exists sv,
    Service_new (mkCryptoKey "AES-GCM" [x01; x02]) = Ok sv /\
    sv_tokenLength sv = 12%nat /\
    (forall token body w,
       length token = sv_tokenLength sv ->
       (Service_decrypt toy_runtime sv (token ++ body) w).1 =
         subtle_decrypt toy_runtime (AesIvParams "AES-GCM" token)
           (mkCryptoKey "AES-GCM" [x01; x02]) body).
Proof.
  eexists. split; [reflexivity |]. split; [reflexivity |].
  apply (stage_blob_layout toy_runtime (mkCryptoKey "AES-GCM" [x01; x02])).
  reflexivity.
Defined.

(** C2.  Empty input.  On a constructed instance whose readiness step
    succeeds, with its stage list [stages]: [decrypt] of the empty input
    returns it and leaves the world as it was, so no cipher stage and no
    other collaborator ran; [encrypt] of the empty input, when it returns,
    returns a blob that is not empty, at least as long as a random value
    (12 bytes and up), after drawing one random value per stage; when the
    primitive does not shrink its input the blob is at least as long as
    all the stages' random values together; and decrypting that blob
    returns the empty payload. *)
Theorem empty_input_asymmetry rt keys options w c0 w0 c w1 :
  subtle_inverse rt ->
  SymmetricCryptorBasic_new rt keys options w = (Ok c0, w0) ->
  Reachable rt c0 c ->
  (ready (mkSys c w1)).1 = Ok tt ->
  exists stages,
    (getCryptoKeys (mkSys c w1)).1 = Ok stages /\
    stages <> [] /\
    decrypt rt [] (mkSys c w1) = (Ok [], mkSys (settle c) w1) /\
    (forall blob s2,
       encrypt rt [] (mkSys c w1) = (Ok blob, s2) ->
       blob <> [] /\
       (12 <= length blob)%nat /\
       (forall sv, last stages = Some sv -> (sv_tokenLength sv <= length blob)%nat) /\
       entropy_pos (world s2) = (entropy_pos w1 + chain_overhead stages)%nat /\
       (subtle_nonshrinking rt ->
          (chain_overhead stages <= length blob)%nat /\
          (12 * length stages <= length blob)%nat) /\
       forall w3, (decrypt rt blob (mkSys (self s2) w3)).1 = Ok []) /\
    (subtle_encrypt_total rt ->
     exists blob s2, encrypt rt [] (mkSys c w1) = (Ok blob, s2)).
Proof.
  intros Hinv Hnew Hreach Hready.
  destruct (ready_stages _ _ _ _ _ _ _ _ Hnew Hreach Hready) as (stages & Hkeys & Hne & Hwf).
  exists stages. split_and!.
  - by rewrite getCryptoKeys_eq.
  - done.
  - by rewrite decrypt_eq, Hkeys.
  - intros blob s2 Henc.
    destruct (encrypt_inv _ _ _ _ _ _ _ Hkeys Henc) as (w2 & Hchain & ->). simpl.
    pose proof (chain_encrypt_nonempty rt _ _ _ _ _ Hne Hwf Hchain) as Hlen.
    destruct (chain_encrypt_length rt _ _ _ _ _ Hchain) as [Hlast Hgrow].
    destruct (chain_encrypt_entropy rt _ _ _ _ _ Hchain) as [Hpos _].
    split_and!.
    + intros ->. simpl in Hlen. lia.
    + done.
    + intros sv Hsv. by rewrite Hsv in Hlast.
    + done.
    + intros Hshrink. specialize (Hgrow Hshrink).
      pose proof (chain_overhead_lower_bound stages Hwf). lia.
    + by apply (decrypt_of_chain rt c [] stages w1 blob w2).
  - intros Htot. by apply (encrypt_total_settled rt c w1 [] stages).
Qed.

Lemma empty_input_asymmetry_witness :
  subtle_inverse toy_runtime /\
  exists c0 w0,
    SymmetricCryptorBasic_new toy_runtime toy_chain no_options empty_world = (Ok c0, w0) /\
    (ready (mkSys c0 w0)).1 = Ok tt /\
    exists stages,
      (getCryptoKeys (mkSys c0 w0)).1 = Ok stages /\
      stages <> [] /\
      decrypt toy_runtime [] (mkSys c0 w0) = (Ok [], mkSys (settle c0) w0) /\
      (forall blob s2,
         encrypt toy_runtime [] (mkSys c0 w0) = (Ok blob, s2) ->
         blob <> [] /\
         (12 <= length blob)%nat /\
         (forall sv, last stages = Some sv -> (sv_tokenLength sv <= length blob)%nat) /\
         entropy_pos (world s2) = (entropy_pos w0 + chain_overhead stages)%nat /\
         (subtle_nonshrinking toy_runtime ->
            (chain_overhead stages <= length blob)%nat /\
            (12 * length stages <= length blob)%nat) /\
         forall w3, (decrypt toy_runtime blob (mkSys (self s2) w3)).1 = Ok []) /\
      (subtle_encrypt_total toy_runtime ->
       exists blob s2, encrypt toy_runtime [] (mkSys c0 w0) = (Ok blob, s2)).
Proof.
  split; [exact toy_subtle_inverse |].
  eexists. eexists. split; [vm_compute; reflexivity |].
  split; [vm_compute; reflexivity |].
  eapply (empty_input_asymmetry toy_runtime toy_chain no_options empty_world).
  - exact toy_subtle_inverse.
  - vm_compute; reflexivity.
  - apply Reachable_new.
  - vm_compute; reflexivity.
Defined.

(** ** What a call does to the world *)

Lemma cipher_only_refl w : cipher_only w w.
Proof. split; [done |]. exists []. by rewrite app_nil_r. Qed.

Lemma cipher_only_trans w1 w2 w3 :
  cipher_only w1 w2 -> cipher_only w2 w3 -> cipher_only w1 w3.
Proof.
  intros [Hf1 (evs1 & Ht1 & He1)] [Hf2 (evs2 & Ht2 & He2)].
  split; [congruence |]. exists (evs1 ++ evs2).
  rewrite Ht2, Ht1, <- app_assoc, forallb_app, He1, He2. done.
Qed.

Lemma cipher_only_counts w w' :
  cipher_only w w' ->
  derivation_count w' = derivation_count w /\ writes w' = writes w.
Proof.
  intros [_ (evs & Ht & Hev)]. unfold derivation_count, writes. rewrite Ht, !List.filter_app.
  assert (Hnone : List.filter is_import_event evs = [] /\ List.filter is_write_event evs = []).
  { clear Ht. induction evs as [| ev evs IH]; [done |].
    simpl in Hev. apply andb_true_iff in Hev as [Hev Hrest].
    destruct (IH Hrest) as [IH1 IH2]. by destruct ev; simpl in *. }
  destruct Hnone as [-> ->]. by rewrite !app_nil_r.
Qed.

Lemma Service_encrypt_cipher_only rt sv data w :
  cipher_only w (Service_encrypt rt sv data w).2.
Proof.
  rewrite Service_encrypt_eq. simpl. split; [done |].
  eexists. rewrite <- app_assoc. split; [reflexivity | done].
Qed.

Lemma Service_decrypt_cipher_only rt sv data w :
  cipher_only w (Service_decrypt rt sv data w).2.
Proof.
  rewrite Service_decrypt_eq. simpl. split; [done |].
  eexists. split; [reflexivity | done].
Qed.

Lemma for_of_cipher_only (step : SymmetricCryptoService -> bytes -> M World bytes) stages :
  (forall sv bin w, cipher_only w (step sv bin w).2) ->
  forall bin w, cipher_only w (for_of stages step bin w).2.
Proof.
  intros Hstep. induction stages as [| sv stages IH]; intros bin w; simpl.
  - apply cipher_only_refl.
  - unfold bind. pose proof (Hstep sv bin w) as H1.
    destruct (step sv bin w) as [[bin' | e] w1]; simpl in *; [| done].
    eapply cipher_only_trans; [exact H1 | apply IH].
Qed.

Lemma encrypt_world rt c w data :
  cipher_only w (world (encrypt rt data (mkSys c w)).2).
Proof.
  rewrite encrypt_eq. destruct (settled_keys (settle c)) as [stages | e].
  - rewrite in_world_world. simpl.
    apply for_of_cipher_only. intros. apply Service_encrypt_cipher_only.
  - apply cipher_only_refl.
Qed.

Lemma decrypt_world rt c w data :
  cipher_only w (world (decrypt rt data (mkSys c w)).2).
Proof.
  rewrite decrypt_eq. destruct (settled_keys (settle c)) as [stages | e].
  - case_bool_decide; [apply cipher_only_refl |].
    rewrite in_world_world. simpl.
    apply for_of_cipher_only. intros. apply Service_decrypt_cipher_only.
  - apply cipher_only_refl.
Qed.

Lemma call_world rt c w cl :
  cipher_only w (world (call rt cl (mkSys c w)).2).
Proof.
  destruct cl as [| data | data | data | data]; simpl; rewrite bind_ret_state.
  - rewrite ready_eq. apply cipher_only_refl.
  - apply encrypt_world.
  - apply decrypt_world.
  - unfold encrypt_text, bind. fold (encrypt rt (text_encode rt data)).
    pose proof (encrypt_world rt c w (text_encode rt data)) as H.
    destruct (encrypt rt _ _) as [[bin | e] s]; simpl in *; [| done].
    unfold gets, lift_result. simpl. done.
  - rewrite decrypt_text_eq.
    destruct (cipherTextDecoder c data) as [decoded | e]; [| apply cipher_only_refl].
    pose proof (decrypt_world rt c w decoded) as H.
    by destruct (decrypt rt decoded _) as [[bin | e] s].
Qed.

(** On an instance whose readiness step fails with [e], every call raises
    [e]. *)
Lemma call_failed rt c w cl e :
  keysToCryptoKeysFail (settle c) = Some e ->
  call_decodes c cl ->
  (call rt cl (mkSys c w)).1 = Throw e.
Proof.
  intros Hfail Hdec.
  assert (Hkeys : settled_keys (settle c) = Throw e).
  { unfold settled_keys. by rewrite Hfail. }
  destruct cl as [| data | data | data | data]; simpl; unfold bind at 1.
  - by rewrite ready_eq, Hfail.
  - by rewrite encrypt_eq, Hkeys.
  - by rewrite decrypt_eq, Hkeys.
  - unfold encrypt_text, bind. fold (encrypt rt (text_encode rt data)).
    by rewrite encrypt_eq, Hkeys.
  - rewrite decrypt_text_eq. simpl in Hdec.
    destruct (cipherTextDecoder c data) as [decoded | e']; [| done].
    by rewrite decrypt_eq, Hkeys.
Qed.

Lemma call_coder rt c w cl :
  cipherTextDecoder (self (call rt cl (mkSys c w)).2) = cipherTextDecoder c.
Proof.
  destruct (call_self rt c w cl) as [-> | ->]; [done | apply settle_coder].
Qed.

Lemma call_settle rt c w cl :
  settle (self (call rt cl (mkSys c w)).2) = settle c.
Proof.
  destruct (call_self rt c w cl) as [-> | ->]; [done | apply settle_idem].
Qed.

Lemma call_self_decodes rt c w cl :
  call_decodes c cl -> self (call rt cl (mkSys c w)).2 = settle c.
Proof.
  intros Hdec.
  destruct cl as [| data | data | data | data]; simpl; rewrite bind_ret_state.
  - by rewrite ready_eq.
  - apply encrypt_self.
  - apply decrypt_self.
  - apply encrypt_text_self.
  - rewrite decrypt_text_eq. simpl in Hdec.
    destruct (cipherTextDecoder c data) as [decoded | e]; [| done].
    pose proof (decrypt_self rt c w decoded).
    by destruct (decrypt rt decoded _) as [[r | e] s].
Qed.

Lemma run_calls_spec rt cs :
  forall c w,
    Forall (call_decodes c) cs ->
    let (results, s') := run_calls rt cs (mkSys c w) in
    cipher_only w (world s') /\
    settle (self s') = settle c /\
    (cs <> [] -> self s' = settle c) /\
    forall e, keysToCryptoKeysFail (settle c) = Some e ->
              Forall (fun r => r = Throw e) results.
Proof.
  induction cs as [| cl cs IH]; intros c w Hdec; simpl.
  - split_and!; [apply cipher_only_refl | done | done | by constructor].
  - apply Forall_cons in Hdec as [Hcl Hcs].
    pose proof (call_world rt c w cl) as Hw.
    pose proof (call_settle rt c w cl) as Hs.
    pose proof (call_coder rt c w cl) as Hc.
    pose proof (call_self_decodes rt c w cl Hcl) as Hself.
    pose proof (fun e H => call_failed rt c w cl e H Hcl) as Hfail.
    destruct (call rt cl (mkSys c w)) as [r [c1 w1]]. simpl in *.
    assert (Hcs' : Forall (call_decodes c1) cs).
    { eapply Forall_impl; [exact Hcs |]. intros [] ; simpl; try done. by rewrite Hc. }
    specialize (IH c1 w1 Hcs').
    destruct (run_calls rt cs (mkSys c1 w1)) as [rs s'] eqn:Hrun.
    destruct IH as (IHw & IHs & IHself & IHfail).
    split_and!.
    + eapply cipher_only_trans; eauto.
    + congruence.
    + intros _. destruct cs as [| cl' cs'].
      * simpl in Hrun. by injection Hrun as _ <-.
      * rewrite IHself by done. done.
    + intros e He. constructor; [by apply Hfail |]. apply IHfail. by rewrite Hs.
Qed.

Lemma derivation_events_imports rt keys :
  (length (List.filter is_import_event (concat (derivation_events rt <$> keys)))
   <= length keys)%nat.
Proof.
  induction keys as [| k keys IH]; [done |].
  rewrite fmap_cons, length_cons.
  change (concat (derivation_events rt k :: (derivation_events rt <$> keys)))
    with (derivation_events rt k ++ concat (derivation_events rt <$> keys)).
  rewrite List.filter_app, length_app.
  assert (length (List.filter is_import_event (derivation_events rt k)) <= 1)%nat.
  { unfold derivation_events.
    destruct (create_resolve_input k) as [[algorithm key] | e]; simpl; lia. }
  lia.
Qed.

(** C5.  Key derivation runs once.  The constructor starts at most one key
    import per key (one in single-key mode, whatever [times] is), and no
    later [ready], [encrypt] or [decrypt] call starts another, in whatever
    order and number the calls come.  When the derivation fails with [e],
    every such call raises that same [e], which the instance keeps as its
    captured failure; when it succeeds, after any calls the instance works
    with one and the same stage list: the derived stage [times] times over
    in single-key mode, the derived stages of the keys, in order, in list
    mode.  (A text to decrypt is one the cipher text decoder accepts.) *)
Theorem key_derivation_once rt keys options w c0 w0 :
  SymmetricCryptorBasic_new rt keys options w = (Ok c0, w0) ->
  (derivation_count w0 <= derivation_count w + length (key_list keys))%nat /\
  exists promise,
    keysToCryptoKeysPromise c0 = Some promise /\
    forall cs w1,
      Forall (call_decodes c0) cs ->
      let (results, s') := run_calls rt cs (mkSys c0 w1) in
      derivation_count (world s') = derivation_count w1 /\
      match outcome promise with
      | Throw e =>
          Forall (fun r => r = Throw e) results /\
          (cs <> [] -> keysToCryptoKeysFail (self s') = Some e) /\
          (ready s').1 = Throw e
      | Ok result =>
          exists stages,
            (getCryptoKeys s').1 = Ok stages /\
            match keys with
            | KeysSingle key =>
                exists sv,
                  derived_service rt key = Ok sv /\
                  stages = replicate (Z.to_nat (repeats_of keys options)) sv
            | KeysArray list =>
                Forall2 (fun key sv => derived_service rt key = Ok sv) list stages
            end
      end.
Proof.
  intros Hnew. split.
  - apply new_inv in Hnew as (coder & _ & _ & _ & _ & ->).
    unfold derivation_count, add_events. simpl.
    rewrite List.filter_app, length_app.
    pose proof (derivation_events_imports rt (key_list keys)). lia.
  - destruct (new_settled _ _ _ _ _ _ Hnew) as (promise & Hp & Hsettled).
    exists promise. split; [done |].
    intros cs w1 Hdec.
    pose proof (run_calls_spec rt cs c0 w1 Hdec) as Hrun.
    destruct (run_calls rt cs (mkSys c0 w1)) as [results [c1 w2]].
    destruct Hrun as (Hw & Hs & Hself & Hfail). simpl in *.
    split; [by apply cipher_only_counts in Hw as [-> _] |].
    destruct (outcome promise) as [result | e] eqn:Hout.
    + destruct (new_stages rt keys options w c0 w0 result Hnew)
        as (Hall & Hkeys & _ & _ & Hsingle & Hlist); [eauto |].
      eexists. split.
      * rewrite getCryptoKeys_eq. simpl. rewrite Hs. exact Hkeys.
      * destruct keys as [key | list].
        -- destruct (Hsingle key eq_refl) as (sv & -> & Hst).
           exists sv. split; [| exact Hst].
           simpl in Hall. by apply Forall2_cons_1 in Hall as [? _].
        -- rewrite (Hlist list eq_refl). exact Hall.
    + destruct Hsettled as [He _]. split_and!.
      * by apply Hfail.
      * intros Hcs. rewrite (Hself Hcs). done.
      * rewrite ready_eq. simpl. by rewrite Hs, He.
Qed.

Lemma key_derivation_once_witness :
  exists c0 w0,
    SymmetricCryptorBasic_new toy_runtime (KeysSingle toy_password) times_3 empty_world
      = (Ok c0, w0) /\
    (derivation_count w0 <= derivation_count empty_world + 1)%nat /\
    exists promise,
      keysToCryptoKeysPromise c0 = Some promise /\
      forall cs w1,
        Forall (call_decodes c0) cs ->
        let (results, s') := run_calls toy_runtime cs (mkSys c0 w1) in
        derivation_count (world s') = derivation_count w1 /\
        match outcome promise with
        | Throw e =>
            Forall (fun r => r = Throw e) results /\
            (cs <> [] -> keysToCryptoKeysFail (self s') = Some e) /\
            (ready s').1 = Throw e
        | Ok result =>
            exists stages,
              (getCryptoKeys s').1 = Ok stages /\
              exists sv,
                derived_service toy_runtime toy_password = Ok sv /\
                stages = replicate 3 sv
        end.
Proof.
  do 2 eexists. split; [vm_compute; reflexivity |].
  apply (key_derivation_once toy_runtime (KeysSingle toy_password) times_3 empty_world).
  vm_compute; reflexivity.
Defined.

(** ** When the constructor returns *)

Lemma new_ok rt keys options w coder :
  resolveCipherTextCoder rt (opt_cipherTextCoder options) = Ok coder ->
  key_list keys <> [] ->
  (is_single keys = true -> times_ok options) ->
  SymmetricCryptorBasic_new rt keys options w =
    (Ok (mkCryptor (decoder coder) (encoder coder) None (is_single keys)
           (repeats_of keys options) None
           (Some (Promise_all (promise_of rt <$> key_list keys)))),
     add_events w (concat (derivation_events rt <$> key_list keys))).
Proof.
  intros Hcoder Hne Htimes.
  unfold SymmetricCryptorBasic_new. unfold bind at 1, lift_result at 1. rewrite Hcoder.
  destruct keys as [key | keys]; simpl in *.
  - specialize (Htimes eq_refl). unfold times_ok in Htimes. unfold repeats_of.
    destruct (opt_times options) as [times |].
    + rewrite Htimes. simpl. unfold bind, ret. rewrite create_eq. simpl.
      by rewrite app_nil_r.
    + unfold bind, ret. rewrite create_eq. simpl. by rewrite app_nil_r.
  - rewrite bool_decide_false by (by destruct keys).
    unfold bind, ret. by rewrite map_M_create_eq.
Qed.

Lemma early_rejection_first rt before input after e :
  Forall accepted_algorithm before ->
  create_resolve_input input = Throw e ->
  early_rejection (promise_of rt <$> (before ++ input :: after)) = Some e.
Proof.
  intros Hbefore Hinput. induction Hbefore as [| k before Hk _ IH]; simpl.
  - unfold derived_service. by rewrite Hinput.
  - unfold accepted_algorithm in Hk.
    by destruct (create_resolve_input k).
Qed.

Lemma create_resolve_input_invalid algorithm key :
  algorithm ∉ algorithms ->
  create_resolve_input (KeyObject (mkKeyInput (Some algorithm) key)) =
    Throw (InvalidAlgorithm algorithm).
Proof.
  intros Hnot. unfold create_resolve_input, includes. simpl.
  by rewrite bool_decide_false.
Qed.

Lemma lower_case_not_accepted : "aes-cbc"%string ∉ algorithms.
Proof. by apply (bool_decide_unpack _). Qed.

(** The claim of C6 fails: with an algorithm outside the enumeration (here
    the lower-case spelling) the constructor throws nothing and returns an
    instance. *)
Lemma constructor_accepts_invalid_algorithm :
  ("aes-cbc"%string ∉ algorithms) /\
  forall e,
    (SymmetricCryptorBasic_new toy_runtime
       (KeysSingle (KeyObject (mkKeyInput (Some "aes-cbc"%string) (KeyString "pw"))))
       no_options empty_world).1 <> Throw e.
Proof.
  split.
  - exact lower_case_not_accepted.
  - intros e. vm_compute. discriminate.
Qed.

(** C6, amended.  For a key spec whose algorithm is present and is not one
    of the three enumerated values (compared case-sensitively), the key
    derivation is rejected with the [RangeError] that names the value and
    the accepted set, before any digest or import is started for that key.
    The constructor does not throw it: with fine options it returns an
    instance, and the error is raised by every [ready], [encrypt] and
    [decrypt] call on it (in list mode, the error of the first such key). *)
Theorem invalid_algorithm_deferred rt algorithm key :
  algorithm ∉ algorithms ->
  let input := KeyObject (mkKeyInput (Some algorithm) key) in
  err_class (InvalidAlgorithm algorithm) = ClsRangeError /\
  err_message (InvalidAlgorithm algorithm) =
    ("`" +:+ algorithm +:+
     "` is not a valid symmetric crypto algorithm! Only accept these values: " +:+
     "AES-CBC, AES-CTR, AES-GCM") /\
  (forall w,
     create rt input w = (Ok (mkPromise true (Throw (InvalidAlgorithm algorithm))), w)) /\
  forall keys options w,
    (keys = KeysSingle input \/
     exists before after,
       keys = KeysArray (before ++ input :: after) /\ Forall accepted_algorithm before) ->
    ((exists coder, resolveCipherTextCoder rt (opt_cipherTextCoder options) = Ok coder) ->
     (is_single keys = true -> times_ok options) ->
     exists c0 w0, SymmetricCryptorBasic_new rt keys options w = (Ok c0, w0)) /\
    (forall c0 w0,
       SymmetricCryptorBasic_new rt keys options w = (Ok c0, w0) ->
       forall cs w1,
         Forall (call_decodes c0) cs ->
         Forall (fun r => r = Throw (InvalidAlgorithm algorithm))
           (run_calls rt cs (mkSys c0 w1)).1).
Proof.
  intros Hnot input.
  pose proof (create_resolve_input_invalid algorithm key Hnot) as Hinput.
  split_and!; [done | done | |].
  - intros w. rewrite create_eq. unfold promise_of, derived_service, derivation_events.
    fold input in Hinput. rewrite Hinput. unfold add_events. destruct w. simpl.
    by rewrite app_nil_r.
  - intros keys options w Hkeys.
    assert (Hne : key_list keys <> []).
    { destruct Hkeys as [-> | (before & after & -> & _)]; simpl; [done |].
      by destruct before. }
    assert (Hearly : early_rejection (promise_of rt <$> key_list keys)
                     = Some (InvalidAlgorithm algorithm)).
    { destruct Hkeys as [-> | (before & after & -> & Hbefore)]; simpl key_list.
      - by apply (early_rejection_first rt [] input []).
      - by apply early_rejection_first. }
    split.
    + intros [coder Hcoder] Htimes. do 2 eexists. by apply new_ok.
    + intros c0 w0 Hnew cs w1 Hdec.
      apply new_inv in Hnew as (coder & _ & _ & _ & Hc0 & _).
      pose proof (run_calls_spec rt cs c0 w1 Hdec) as Hrun.
      destruct (run_calls rt cs (mkSys c0 w1)) as [results s'].
      destruct Hrun as (_ & _ & _ & Hfail). simpl. apply Hfail.
      rewrite Hc0. unfold settle. simpl. unfold Promise_all. by rewrite Hearly.
Qed.

Lemma invalid_algorithm_deferred_witness :
  ("aes-cbc"%string ∉ algorithms) /\
  exists c0 w0,
    SymmetricCryptorBasic_new toy_runtime
      (KeysSingle (KeyObject (mkKeyInput (Some "aes-cbc"%string) (KeyString "pw"))))
      no_options empty_world = (Ok c0, w0) /\
    Forall (fun r => r = Throw (InvalidAlgorithm "aes-cbc"))
      (run_calls toy_runtime [CallReady; CallEncrypt [x01]; CallDecrypt []; CallReady]
         (mkSys c0 w0)).1.
Proof.
  split; [exact lower_case_not_accepted |].
  do 2 eexists. split; [vm_compute; reflexivity |].
  destruct (invalid_algorithm_deferred toy_runtime "aes-cbc" (KeyString "pw")
              lower_case_not_accepted) as (_ & _ & _ & H).
  destruct (H (KeysSingle (KeyObject (mkKeyInput (Some "aes-cbc"%string) (KeyString "pw"))))
              no_options empty_world (or_introl eq_refl)) as [_ Hcalls].
  eapply Hcalls.
  - vm_compute; reflexivity.
  - repeat constructor.
Defined.

(** The claim of C7 fails: a key list together with a supplied [times] is
    accepted; here [times] is even one the single-key guard would refuse. *)
Lemma list_with_times_accepted :
  Number_isSafeInteger (NumFinite 0) && number_ge_1 (NumFinite 0) = false /\
  forall e,
    (SymmetricCryptorBasic_new toy_runtime (KeysArray [toy_password])
       (mkOptions None (Some (NumFinite 0))) empty_world).1 <> Throw e.
Proof.
  split; [reflexivity |]. intros e. vm_compute. discriminate.
Qed.

(** C7, amended.  With a key list the constructor never looks at
    [options.times] (its declared option type for a list leaves [times]
    out): whatever is supplied there, construction goes exactly as with no
    [times] at all, so nothing is rejected on its account and the
    instance repeats nothing. *)
Theorem list_mode_ignores_times rt keys coder times w :
  SymmetricCryptorBasic_new rt (KeysArray keys) (mkOptions coder times) w =
  SymmetricCryptorBasic_new rt (KeysArray keys) (mkOptions coder None) w /\
  forall c0 w0,
    SymmetricCryptorBasic_new rt (KeysArray keys) (mkOptions coder times) w = (Ok c0, w0) ->
    keyIsSingle c0 = false /\ keyOnSingleRepeats c0 = 1.
Proof.
  split; [reflexivity |].
  intros c0 w0 Hnew. apply new_inv in Hnew as (c & _ & _ & _ & -> & _). done.
Qed.

(** ** The guards of the constructor *)

Lemma below_one_refused q :
  Qle_bool 1 q = false ->
  Number_isSafeInteger (NumFinite q) && number_ge_1 (NumFinite q) = false.
Proof. intros H. simpl. rewrite H. apply andb_false_r. Qed.

Lemma fraction_refused q :
  Qnum q mod Zpos (Qden q) <> 0 ->
  Number_isSafeInteger (NumFinite q) && number_ge_1 (NumFinite q) = false.
Proof.
  intros H. simpl. apply Z.eqb_neq in H. by rewrite H.
Qed.

(** C8.  With a cipher text coder option that resolves: constructing with
    an empty key list throws [MissingKeys], a [ReferenceError], and leaves
    the world as it was, so no key derivation was started; in single-key
    mode a [times] that is not a safe integer at least 1 (zero, a negative
    number, a fraction, [NaN], an infinity) throws the [TypeError] of the
    repeat count, again with the world as it was.  Whatever the options,
    the empty list never yields an instance and never touches the world. *)
Theorem construction_guards rt options w coder :
  resolveCipherTextCoder rt (opt_cipherTextCoder options) = Ok coder ->
  SymmetricCryptorBasic_new rt (KeysArray []) options w = (Throw MissingKeys, w) /\
  err_class MissingKeys = ClsReferenceError /\
  (forall key times,
     opt_times options = Some times ->
     Number_isSafeInteger times && number_ge_1 times = false ->
     SymmetricCryptorBasic_new rt (KeysSingle key) options w =
       (Throw (InvalidRepeatCount rt times), w) /\
     err_class (InvalidRepeatCount rt times) = ClsTypeError) /\
  (forall q,
     (Qle_bool 1 q = false \/ Qnum q mod Zpos (Qden q) <> 0) ->
     Number_isSafeInteger (NumFinite q) && number_ge_1 (NumFinite q) = false) /\
  Number_isSafeInteger (NumFinite 0) && number_ge_1 (NumFinite 0) = false /\
  Number_isSafeInteger NumNaN && number_ge_1 NumNaN = false /\
  (forall negative,
     Number_isSafeInteger (NumInfinity negative) && number_ge_1 (NumInfinity negative)
     = false) /\
  (forall options', exists e,
     SymmetricCryptorBasic_new rt (KeysArray []) options' w = (Throw e, w)).
Proof.
  intros Hcoder. split_and!.
  - unfold SymmetricCryptorBasic_new, bind, lift_result. by rewrite Hcoder.
  - done.
  - intros key times Htimes Hbad. split; [| done].
    unfold SymmetricCryptorBasic_new. unfold bind at 1, lift_result at 1.
    rewrite Hcoder, Htimes, Hbad. done.
  - intros q [H | H]; [by apply below_one_refused | by apply fraction_refused].
  - done.
  - done.
  - done.
  - intros options'. unfold SymmetricCryptorBasic_new, bind, lift_result.
    destruct (resolveCipherTextCoder rt (opt_cipherTextCoder options')) as [c | e];
      [by exists MissingKeys | by exists e].
Qed.

Lemma construction_guards_witness :
  SymmetricCryptorBasic_new toy_runtime (KeysArray []) no_options empty_world
    = (Throw MissingKeys, empty_world) /\
  SymmetricCryptorBasic_new toy_runtime (KeysSingle toy_password)
    (mkOptions None (Some (NumFinite (-2)))) empty_world
    = (Throw (InvalidRepeatCount toy_runtime (NumFinite (-2))), empty_world) /\
  SymmetricCryptorBasic_new toy_runtime (KeysSingle toy_password)
    (mkOptions None (Some (NumFinite (3 # 2)))) empty_world
    = (Throw (InvalidRepeatCount toy_runtime (NumFinite (3 # 2))), empty_world).
Proof.
  split.
  - eapply (construction_guards toy_runtime no_options empty_world). reflexivity.
  - split.
    + eapply (construction_guards toy_runtime (mkOptions None (Some (NumFinite (-2))))
                empty_world); reflexivity.
    + eapply (construction_guards toy_runtime (mkOptions None (Some (NumFinite (3 # 2))))
                empty_world); reflexivity.
Defined.

(** ** The file layer *)

Lemma readFile_eq filePath c w :
  in_world (Deno_readFile filePath) (mkSys c w) =
    (match files w !! filePath with
     | Some content => Ok content
     | None => Throw (NotFound filePath)
     end, mkSys c (add_events w [EvReadFile filePath])).
Proof.
  unfold in_world, Deno_readFile, bind, log, modify, gets. simpl.
  by destruct (files w !! filePath).
Qed.

Lemma readFile_quiet filePath s :
  files (world (in_world (Deno_readFile filePath) s).2) = files (world s) /\
  writes (world (in_world (Deno_readFile filePath) s).2) = writes (world s).
Proof.
  destruct s as [c w]. rewrite readFile_eq. simpl. split; [done |].
  unfold writes. simpl. rewrite List.filter_app. simpl. by rewrite app_nil_r.
Qed.

Lemma encrypt_quiet rt data s :
  files (world (encrypt rt data s).2) = files (world s) /\
  writes (world (encrypt rt data s).2) = writes (world s).
Proof.
  destruct s as [c w]. pose proof (encrypt_world rt c w data) as H.
  split; [apply H | by apply cipher_only_counts in H as [_ ?]].
Qed.

Lemma decrypt_quiet rt data s :
  files (world (decrypt rt data s).2) = files (world s) /\
  writes (world (decrypt rt data s).2) = writes (world s).
Proof.
  destruct s as [c w]. pose proof (decrypt_world rt c w data) as H.
  split; [apply H | by apply cipher_only_counts in H as [_ ?]].
Qed.

Lemma read_crypt_write_failed read crypt write s input s1 e s2 :
  read s = (Ok input, s1) ->
  crypt input s1 = (Throw e, s2) ->
  read_crypt_write read crypt write s = (Throw e, s2).
Proof.
  intros Hread Hcrypt. unfold read_crypt_write, bind. by rewrite Hread, Hcrypt.
Qed.

(** When the writes or the files differ after the operation, the crypto
    step had returned. *)
Lemma read_crypt_write_wrote read crypt write s :
  (forall s0, files (world (read s0).2) = files (world s0) /\
              writes (world (read s0).2) = writes (world s0)) ->
  (forall input s0, files (world (crypt input s0).2) = files (world s0) /\
                    writes (world (crypt input s0).2) = writes (world s0)) ->
  let s3 := (read_crypt_write read crypt write s).2 in
  files (world s3) <> files (world s) \/ writes (world s3) <> writes (world s) ->
  exists input s1 output s2,
    read s = (Ok input, s1) /\ crypt input s1 = (Ok output, s2) /\
    read_crypt_write read crypt write s = write output s2.
Proof.
  intros Hread Hcrypt. unfold read_crypt_write, bind.
  specialize (Hread s).
  destruct (read s) as [[input | e] s1] eqn:Hr; simpl in *.
  - specialize (Hcrypt input s1).
    destruct (crypt input s1) as [[output | e] s2] eqn:Hc; simpl in *.
    + intros _. by exists input, s1, output, s2.
    + destruct Hread as [Hf1 Hw1], Hcrypt as [Hf2 Hw2].
      intros [H | H]; exfalso; apply H; congruence.
  - destruct Hread as [Hf1 Hw1]. intros [H | H]; exfalso; by apply H.
Qed.

(** C9.  The write comes after the crypto step.  For [decryptFileInPlace],
    [encryptFileInPlace] and [writeEncryptedFile], of [SymmetricCryptor]
    and of [SymmetricCryptorEnhance] alike: when the decrypt or encrypt
    step throws, the operation throws the same error, no write has been
    started and every file has the content it had; and whenever a write
    has been started or a file has changed, the crypto step had returned
    its result before. *)
Theorem file_untouched_when_crypto_fails rt filePath data options s :
  let read := in_world (Deno_readFile filePath) in
  let rewrite_file := fun output =>
    in_world (Deno_writeFile filePath output options_create_false) in
  let write_file := fun output =>
    in_world (Deno_writeFile filePath output (options_append_false options)) in
  (* the two classes agree *)
  Enhance.decryptFileInPlace rt filePath s = Standard.decryptFileInPlace rt filePath s /\
  Enhance.encryptFileInPlace rt filePath s = Standard.encryptFileInPlace rt filePath s /\
  Enhance.writeEncryptedFile rt filePath data options s =
    Standard.writeEncryptedFile rt filePath data options s /\
  (* a failed crypto step *)
  (forall context s1 e s2,
     read s = (Ok context, s1) ->
     decrypt rt context s1 = (Throw e, s2) ->
     Standard.decryptFileInPlace rt filePath s = (Throw e, s2) /\
     files (world s2) = files (world s) /\ writes (world s2) = writes (world s)) /\
  (forall context s1 e s2,
     read s = (Ok context, s1) ->
     encrypt rt context s1 = (Throw e, s2) ->
     Standard.encryptFileInPlace rt filePath s = (Throw e, s2) /\
     files (world s2) = files (world s) /\ writes (world s2) = writes (world s)) /\
  (forall e s2,
     encrypt rt data s = (Throw e, s2) ->
     Standard.writeEncryptedFile rt filePath data options s = (Throw e, s2) /\
     files (world s2) = files (world s) /\ writes (world s2) = writes (world s)) /\
  (* a write, or a changed file, means the crypto step had returned *)
  (let s3 := (Standard.decryptFileInPlace rt filePath s).2 in
   files (world s3) <> files (world s) \/ writes (world s3) <> writes (world s) ->
   exists context s1 decrypted s2,
     read s = (Ok context, s1) /\ decrypt rt context s1 = (Ok decrypted, s2) /\
     Standard.decryptFileInPlace rt filePath s = rewrite_file decrypted s2) /\
  (let s3 := (Standard.encryptFileInPlace rt filePath s).2 in
   files (world s3) <> files (world s) \/ writes (world s3) <> writes (world s) ->
   exists context s1 encrypted s2,
     read s = (Ok context, s1) /\ encrypt rt context s1 = (Ok encrypted, s2) /\
     Standard.encryptFileInPlace rt filePath s = rewrite_file encrypted s2) /\
  (let s3 := (Standard.writeEncryptedFile rt filePath data options s).2 in
   files (world s3) <> files (world s) \/ writes (world s3) <> writes (world s) ->
   exists encrypted s2,
     encrypt rt data s = (Ok encrypted, s2) /\
     Standard.writeEncryptedFile rt filePath data options s = write_file encrypted s2).
Proof.
  cbv zeta. split_and!.
  - unfold Enhance.decryptFileInPlace, Standard.decryptFileInPlace, bind.
    destruct (in_world (Deno_readFile filePath) s) as [[context | e] s1]; [| done].
    by destruct (decrypt rt context s1) as [[out | e] s2].
  - unfold Enhance.encryptFileInPlace, Standard.encryptFileInPlace, bind.
    destruct (in_world (Deno_readFile filePath) s) as [[context | e] s1]; [| done].
    by destruct (encrypt rt context s1) as [[out | e] s2].
  - done.
  - intros context s1 e s2 Hread Hcrypt. split.
    + by apply (read_crypt_write_failed _ (decrypt rt) _ s context s1 e s2).
    + pose proof (readFile_quiet filePath s) as [Hf1 Hw1].
      pose proof (decrypt_quiet rt context s1) as [Hf2 Hw2].
      rewrite Hread in Hf1, Hw1. rewrite Hcrypt in Hf2, Hw2. simpl in *.
      split; congruence.
  - intros context s1 e s2 Hread Hcrypt. split.
    + by apply (read_crypt_write_failed _ (encrypt rt) _ s context s1 e s2).
    + pose proof (readFile_quiet filePath s) as [Hf1 Hw1].
      pose proof (encrypt_quiet rt context s1) as [Hf2 Hw2].
      rewrite Hread in Hf1, Hw1. rewrite Hcrypt in Hf2, Hw2. simpl in *.
      split; congruence.
  - intros e s2 Hcrypt. split.
    + unfold Standard.writeEncryptedFile, bind. by rewrite Hcrypt.
    + pose proof (encrypt_quiet rt data s) as [Hf Hw].
      rewrite Hcrypt in Hf, Hw. done.
  - apply (read_crypt_write_wrote _ (decrypt rt)).
    + apply readFile_quiet.
    + intros. apply decrypt_quiet.
  - apply (read_crypt_write_wrote _ (encrypt rt)).
    + apply readFile_quiet.
    + intros. apply encrypt_quiet.
  - unfold Standard.writeEncryptedFile, bind.
    pose proof (encrypt_quiet rt data s) as [Hf Hw].
    destruct (encrypt rt data s) as [[encrypted | e] s2] eqn:He; simpl in *.
    + intros _. by exists encrypted, s2.
    + intros [H | H]; exfalso; by apply H.
Qed.

Lemma file_untouched_when_crypto_fails_witness :
  let s := mkSys toy_instance (toy_file_world [x09; x09; x09]) in
  exists s1 e s2,
    in_world (Deno_readFile "file") s = (Ok [x09; x09; x09], s1) /\
    decrypt toy_runtime [x09; x09; x09] s1 = (Throw e, s2) /\
    Standard.decryptFileInPlace toy_runtime "file" s = (Throw e, s2) /\
    files (world s2) = files (world s) /\
    writes (world s2) = writes (world s).
Proof.
  cbv zeta. do 3 eexists.
  split; [vm_compute; reflexivity |].
  split; [vm_compute; reflexivity |].
  eapply (file_untouched_when_crypto_fails toy_runtime "file" [] None).
  - vm_compute; reflexivity.
  - vm_compute; reflexivity.
Defined.

(** C10.  On an instance whose key derivation failed with [e], in any
    state calls have left it in, [decrypt] of the empty byte sequence
    raises [e], and so does [decrypt] of a text that decodes to the empty
    sequence: the readiness step comes before the test for an empty
    input, and the empty input is not returned. *)
Theorem decrypt_empty_raises_cached_failure rt keys options w c0 w0 promise e c w1 :
  SymmetricCryptorBasic_new rt keys options w = (Ok c0, w0) ->
  keysToCryptoKeysPromise c0 = Some promise ->
  outcome promise = Throw e ->
  Reachable rt c0 c ->
  (decrypt rt [] (mkSys c w1)).1 = Throw e /\
  (decrypt rt [] (mkSys c w1)).1 <> Ok [] /\
  (forall text,
     cipherTextDecoder c text = Ok [] ->
     (decrypt_text rt text (mkSys c w1)).1 = Throw e).
Proof.
  intros Hnew Hp Hout Hreach.
  destruct (new_settled _ _ _ _ _ _ Hnew) as (promise' & Hp' & Hsettled).
  rewrite Hp in Hp'. injection Hp' as <-. rewrite Hout in Hsettled.
  destruct Hsettled as [_ Hkeys].
  apply Reachable_settle in Hreach.
  assert (Hdec : (decrypt rt [] (mkSys c w1)).1 = Throw e).
  { by rewrite decrypt_eq, Hreach, Hkeys. }
  split_and!.
  - exact Hdec.
  - by rewrite Hdec.
  - intros text Htext. rewrite decrypt_text_eq, Htext.
    by destruct (decrypt rt [] (mkSys c w1)) as [[bin | e'] s]; simpl in Hdec; simplify_eq.
Qed.

Lemma decrypt_empty_raises_cached_failure_witness :
  exists c0 w0 promise,
    SymmetricCryptorBasic_new toy_runtime
      (KeysSingle (KeyObject (mkKeyInput (Some "AES-ECB"%string) (KeyString "pw"))))
      no_options empty_world = (Ok c0, w0) /\
    keysToCryptoKeysPromise c0 = Some promise /\
    outcome promise = Throw (InvalidAlgorithm "AES-ECB") /\
    (decrypt toy_runtime [] (mkSys c0 w0)).1 = Throw (InvalidAlgorithm "AES-ECB") /\
    (decrypt toy_runtime [] (mkSys c0 w0)).1 <> Ok [] /\
    (forall text,
       cipherTextDecoder c0 text = Ok [] ->
       (decrypt_text toy_runtime text (mkSys c0 w0)).1 = Throw (InvalidAlgorithm "AES-ECB")).
Proof.
  do 3 eexists.
  split; [vm_compute; reflexivity |].
  split; [vm_compute; reflexivity |].
  split; [vm_compute; reflexivity |].
  eapply (decrypt_empty_raises_cached_failure toy_runtime
            (KeysSingle (KeyObject (mkKeyInput (Some "AES-ECB"%string) (KeyString "pw"))))
            no_options empty_world).
  - vm_compute; reflexivity.
  - vm_compute; reflexivity.
  - vm_compute; reflexivity.
  - apply Reachable_new.
Defined.

(** ** The definitions at work on the small runtime *)

Example three_stage_roundtrip :
  encrypt_then_decrypt toy_runtime toy_chain no_options [x71; x77; x65] = Ok [x71; x77; x65].
Proof. vm_compute. reflexivity. Qed.

Example repeated_key_roundtrip :
  encrypt_then_decrypt toy_runtime (KeysSingle toy_password) times_3 [x71; x77; x65]
    = Ok [x71; x77; x65].
Proof. vm_compute. reflexivity. Qed.

Example empty_payload_roundtrip :
  encrypt_then_decrypt toy_runtime toy_chain no_options [] = Ok [].
Proof. vm_compute. reflexivity. Qed.

Example garbage_file_left_alone :
  decrypt_file_in_place toy_runtime (KeysSingle toy_password) [x09; x09; x09] =
    (Throw (mkError (ClsDOMException "OperationError") EmptyString), Some [x09; x09; x09]).
Proof. vm_compute. reflexivity. Qed.

Example upper_case_coder_accepted :
  match resolveCipherTextCoder toy_runtime (Some (CoderDefault "Base64URL")) with
  | Ok _ => True
  | Throw _ => False
  end.
Proof. exact I. Qed.

Example unknown_coder_refused :
  SymmetricCryptorBasic_new toy_runtime (KeysArray []) (mkOptions (Some (CoderDefault "hex")) None)
    empty_world = (Throw (InvalidCoder "hex"), empty_world).
Proof. reflexivity. Qed.

(** ** Overlapping readiness steps *)

Lemma ready_resume_eq c w promise :
  ready_resume promise (mkSys c w) =
    (match keysToCryptoKeysFail (settle (with_pending c promise)) with
     | Some e => Throw e
     | None => Ok tt
     end, mkSys (settle (with_pending c promise)) w).
Proof.
  destruct c as [dec enc storage single repeats fail pending].
  destruct promise as [early [result | e]]; unfold ready_resume, ready_finish, settle; simpl.
  - unfold bind at 1. unfold bind at 1. unfold try_catch, await, lift_result.
    unfold bind at 1. unfold bind at 1. unfold set_cryptoKeysStorage at 1, modify. simpl.
    unfold bind at 1. unfold gets at 1. simpl.
    destruct single; simpl.
    + unfold bind at 1. unfold gets at 1. simpl.
      rewrite push_loop. simpl.
      unfold set_keysToCryptoKeysPromise, modify, bind, gets. simpl.
      unfold stage_list. by destruct fail.
    + unfold push_cryptoKeysStorage, bind, gets, set_cryptoKeysStorage,
        set_keysToCryptoKeysPromise, modify. simpl.
      unfold stage_list. by destruct fail.
  - unfold bind, gets, try_catch, await, lift_result, set_keysToCryptoKeysFail,
      set_keysToCryptoKeysPromise, modify. simpl. done.
Qed.

(** A call that runs its two pieces back to back is [ready]. *)
Lemma ready_in_two_pieces c w :
  ready (mkSys c w) =
    (let! pending := ready_begin in
     match pending with
     | Some promise => ready_resume promise
     | None => ready_finish
     end) (mkSys c w).
Proof.
  rewrite ready_eq. unfold bind at 1, ready_begin, gets. simpl.
  destruct (keysToCryptoKeysPromise c) as [promise |] eqn:Hp.
  - rewrite ready_resume_eq.
    assert (Hc : with_pending c promise = c).
    { destruct c. simpl in Hp. unfold with_pending. simpl. by rewrite Hp. }
    by rewrite Hc.
  - unfold settle. rewrite Hp. unfold ready_finish, bind, gets. simpl.
    by destruct (keysToCryptoKeysFail c).
Qed.

Lemma fresh_settle_again c promise :
  fresh c promise ->
  with_pending c promise = c /\
  settle (with_pending (settle c) promise) = settle c /\
  match keysToCryptoKeysFail (settle c) with
  | Some e => Throw e
  | None => Ok tt
  end = ready_outcome promise.
Proof.
  destruct c as [dec enc storage single repeats fail pending].
  intros (Hs & Hf & Hp). simpl in *. subst.
  unfold with_pending, settle, ready_outcome. simpl.
  by destruct promise as [early [result | e]].
Qed.

Lemma new_fresh rt keys options w c0 w0 :
  SymmetricCryptorBasic_new rt keys options w = (Ok c0, w0) ->
  exists promise, fresh c0 promise.
Proof.
  intros Hnew. apply new_inv in Hnew as (coder & _ & _ & _ & -> & _).
  eexists. by split_and!.
Qed.

(** However the pieces of any number of [ready] calls interleave, the
    world is not touched (no key import is started), every suspended call
    waits for the promise of the constructor, every call that returns
    returns the one outcome of that promise, and from the first return on
    the object is the settled one. *)
Lemma overlapping_ready_calls rt keys options w c0 w0 w1 o :
  SymmetricCryptorBasic_new rt keys options w = (Ok c0, w0) ->
  overlap_steps (mkOverlap (mkSys c0 w1) [] []) o ->
  exists promise,
    keysToCryptoKeysPromise c0 = Some promise /\
    world (ov_sys o) = w1 /\
    Forall (fun p => p = promise) (ov_waiting o) /\
    Forall (fun r => r = ready_outcome promise) (ov_returned o) /\
    (self (ov_sys o) = c0 /\ ov_returned o = [] \/ self (ov_sys o) = settle c0).
Proof.
  intros Hnew Hsteps.
  destruct (new_fresh _ _ _ _ _ _ Hnew) as [promise Hfresh].
  exists promise. split; [apply Hfresh |].
  destruct (fresh_settle_again _ _ Hfresh) as (Hsame & Hagain & Hresult).
  remember (mkOverlap (mkSys c0 w1) [] []) as start eqn:Hstart.
  induction Hsteps as [o | o1 o2 o3 _ IH Hstep]; [subst; simpl; by split_and!; [| | | left] |].
  specialize (IH Hstart). destruct IH as (Hw & Hwait & Hret & Hself).
  destruct Hstep as [s waiting returned p s' Hbegin
                    | s waiting returned s' r s'' Hbegin Hfinish
                    | s before p after returned r s' Hresume]; simpl in *.
  - unfold ready_begin, gets in Hbegin. injection Hbegin as Hp <-.
    split_and!; try done. constructor; [| done].
    destruct Hself as [[Hc _] | Hc]; rewrite Hc in Hp.
    + destruct Hfresh as (_ & _ & Hp0). congruence.
    + by rewrite settle_promise in Hp.
  - unfold ready_begin, gets in Hbegin. injection Hbegin as Hp <-.
    destruct Hself as [[Hc _] | Hc]; rewrite Hc in Hp.
    { destruct Hfresh as (_ & _ & Hp0). congruence. }
    destruct s as [c ws]. simpl in *. subst c.
    unfold ready_finish, bind, gets in Hfinish. simpl in Hfinish.
    destruct (keysToCryptoKeysFail (settle c0)); injection Hfinish as <- <-;
      (split_and!; [done | done | by constructor | by right]).
  - destruct s as [c ws]. simpl in *.
    apply Forall_app in Hwait as [Hbefore Hafter].
    apply Forall_cons in Hafter as [-> Hafter].
    rewrite ready_resume_eq in Hresume.
    assert (Hsettled : settle (with_pending c promise) = settle c0).
    { destruct Hself as [[-> _] | ->]; [by rewrite Hsame | done]. }
    rewrite Hsettled, Hresult in Hresume. injection Hresume as <- <-. simpl.
    split_and!; [done | by apply Forall_app | by constructor | by right].
Qed.

(** * Further properties of the code *)

(** ** What an instance works with *)

Lemma instance_chain rt keys options w c0 w0 c :
  SymmetricCryptorBasic_new rt keys options w = (Ok c0, w0) ->
  Reachable rt c0 c ->
  settled_keys (settle c) = chain_of rt keys options.
Proof.
  intros Hnew Hreach. rewrite (Reachable_settle _ _ _ Hreach).
  destruct (new_settled _ _ _ _ _ _ Hnew) as (promise & Hp & Hsettled).
  pose proof Hnew as Hinv. apply new_inv in Hinv as (coder & _ & _ & _ & Hc0 & _).
  assert (Hpromise : promise = Promise_all (promise_of rt <$> key_list keys)).
  { rewrite Hc0 in Hp. simpl in Hp. congruence. }
  unfold chain_of. rewrite <- Hpromise.
  destruct (outcome promise) as [result | e] eqn:Hout.
  - destruct (new_stages rt keys options w c0 w0 result Hnew) as (_ & Hkeys & _); [eauto |].
    rewrite Hkeys, Hc0. done.
  - by destruct Hsettled as [_ ->].
Qed.

(** The check of [#getCryptoKeys] for missing or empty storage never
    decides: on an instance the constructor made, in any state, the
    readiness step followed by that check returns the stage list of the
    fulfilled promise, or raises the error the promise was rejected with. *)
Theorem getCryptoKeys_guard_never_decides rt keys options w c0 w0 c w1 :
  SymmetricCryptorBasic_new rt keys options w = (Ok c0, w0) ->
  Reachable rt c0 c ->
  exists promise,
    keysToCryptoKeysPromise c0 = Some promise /\
    getCryptoKeys (mkSys c w1) =
      (match outcome promise with
       | Ok result => Ok (stage_list (keyIsSingle c0) (keyOnSingleRepeats c0) result)
       | Throw e => Throw e
       end, mkSys (settle c0) w1).
Proof.
  intros Hnew Hreach.
  pose proof (instance_chain _ _ _ _ _ _ _ Hnew Hreach) as Hchain.
  pose proof Hnew as Hinv. apply new_inv in Hinv as (coder & _ & _ & _ & Hc0 & _).
  exists (Promise_all (promise_of rt <$> key_list keys)).
  split; [by rewrite Hc0 |].
  rewrite getCryptoKeys_eq, Hchain, (Reachable_settle _ _ _ Hreach).
  unfold chain_of. rewrite Hc0. done.
Qed.

Lemma getCryptoKeys_guard_never_decides_witness :
  exists c0 w0 promise,
    SymmetricCryptorBasic_new toy_runtime toy_chain no_options empty_world = (Ok c0, w0) /\
    keysToCryptoKeysPromise c0 = Some promise /\
    getCryptoKeys (mkSys c0 w0) =
      (match outcome promise with
       | Ok result => Ok (stage_list (keyIsSingle c0) (keyOnSingleRepeats c0) result)
       | Throw e => Throw e
       end, mkSys (settle c0) w0).
Proof.
  do 2 eexists.
  destruct (getCryptoKeys_guard_never_decides toy_runtime toy_chain no_options empty_world
              _ _ _ (add_events empty_world
                       (concat (derivation_events toy_runtime <$> key_list toy_chain)))
              ltac:(vm_compute; reflexivity) (Reachable_new _ _)) as (promise & Hp & Hkeys).
  exists promise. split; [vm_compute; reflexivity |]. split; [exact Hp | exact Hkeys].
Defined.

(** ** Instances with the same stages *)

Lemma chain_of_wf rt keys options w c0 w0 stages :
  SymmetricCryptorBasic_new rt keys options w = (Ok c0, w0) ->
  chain_of rt keys options = Ok stages ->
  stages <> [] /\ Forall service_wf stages.
Proof.
  intros Hnew Hchain.
  pose proof (instance_chain _ _ _ _ _ _ _ Hnew (Reachable_new _ _)) as Hkeys.
  destruct (new_settled _ _ _ _ _ _ Hnew) as (promise & _ & Hsettled).
  rewrite Hkeys, Hchain in Hsettled.
  destruct (outcome promise) as [result | e].
  - destruct Hsettled as (_ & stages' & [= <-] & Hne & Hwf). done.
  - by destruct Hsettled as [_ ?].
Qed.

Lemma same_chain_same_behaviour rt c c' :
  settled_keys (settle c) = settled_keys (settle c') -> same_behaviour rt c c'.
Proof.
  intros Hsame data w. rewrite !encrypt_eq, !decrypt_eq, Hsame.
  destruct (settled_keys (settle c')) as [stages | e]; [| done].
  rewrite !in_world_fst, !in_world_world. simpl.
  case_bool_decide; [done |].
  by rewrite !in_world_fst, !in_world_world.
Qed.

Lemma cross_roundtrip rt keys options w c0 w0 c c' :
  subtle_inverse rt ->
  SymmetricCryptorBasic_new rt keys options w = (Ok c0, w0) ->
  Reachable rt c0 c ->
  settled_keys (settle c') = settled_keys (settle c) ->
  forall p w1 blob s2,
    encrypt rt p (mkSys c w1) = (Ok blob, s2) ->
    forall w3, (decrypt rt blob (mkSys c' w3)).1 = Ok p.
Proof.
  intros Hinv Hnew Hreach Hsame p w1 blob s2 Henc w3.
  destruct (ready_stages _ _ _ _ _ _ _ _ Hnew Hreach (encrypt_ok_ready _ _ _ _ _ _ Henc))
    as (stages & Hkeys & Hne & Hwf).
  destruct (encrypt_inv _ _ _ _ _ _ _ Hkeys Henc) as (w2 & Hchain & _).
  pose proof (decrypt_of_chain rt c p stages w1 blob w2 Hinv Hkeys Hne Hwf Hchain w3) as Hdec.
  destruct (same_chain_same_behaviour rt c' (settle c)
              ltac:(by rewrite settle_idem) blob w3) as (_ & _ & -> & _).
  exact Hdec.
Qed.

(** A blob decrypts on any other instance built from the same keys with
    the same repeat count, whatever its coder option and whatever has
    happened to either instance: the two instances encrypt and decrypt
    alike. *)
Theorem blob_decrypts_on_another_instance rt keys options options' w w' c0 w0 c0' w0' c c' :
  subtle_inverse rt ->
  SymmetricCryptorBasic_new rt keys options w = (Ok c0, w0) ->
  SymmetricCryptorBasic_new rt keys options' w' = (Ok c0', w0') ->
  opt_times options = opt_times options' ->
  Reachable rt c0 c ->
  Reachable rt c0' c' ->
  same_behaviour rt c c' /\
  forall p w1 blob s2,
    encrypt rt p (mkSys c w1) = (Ok blob, s2) ->
    forall w3, (decrypt rt blob (mkSys c' w3)).1 = Ok p.
Proof.
  intros Hinv Hnew Hnew' Htimes Hreach Hreach'.
  assert (Hsame : settled_keys (settle c) = settled_keys (settle c')).
  { rewrite (instance_chain _ _ _ _ _ _ _ Hnew Hreach),
            (instance_chain _ _ _ _ _ _ _ Hnew' Hreach').
    unfold chain_of, repeats_of. by rewrite Htimes. }
  split; [by apply same_chain_same_behaviour |].
  by apply (cross_roundtrip rt keys options w c0 w0 c c').
Qed.

Lemma blob_decrypts_on_another_instance_witness :
  exists c0 w0 c0' w0',
    SymmetricCryptorBasic_new toy_runtime toy_chain no_options empty_world = (Ok c0, w0) /\
    SymmetricCryptorBasic_new toy_runtime toy_chain base64url_options
      (toy_file_world [x01]) = (Ok c0', w0') /\
    same_behaviour toy_runtime c0 c0' /\
    forall p w1 blob s2,
      encrypt toy_runtime p (mkSys c0 w1) = (Ok blob, s2) ->
      forall w3, (decrypt toy_runtime blob (mkSys c0' w3)).1 = Ok p.
Proof.
  do 4 eexists.
  split; [vm_compute; reflexivity |].
  split; [vm_compute; reflexivity |].
  eapply (blob_decrypts_on_another_instance toy_runtime toy_chain no_options
            base64url_options empty_world (toy_file_world [x01])).
  - exact toy_subtle_inverse.
  - vm_compute; reflexivity.
  - vm_compute; reflexivity.
  - reflexivity.
  - apply Reachable_new.
  - apply Reachable_new.
Defined.

Lemma early_rejection_replicate {A} (p : Promise A) n :
  early_rejection (replicate (S n) p) =
    match settled_at_return p, outcome p with
    | true, Throw e => Some e
    | _, _ => None
    end.
Proof.
  induction n as [| n IH]; simpl in *.
  - by destruct (settled_at_return p), (outcome p).
  - destruct (settled_at_return p), (outcome p); try done; apply IH.
Qed.

Lemma all_outcomes_replicate {A} (p : Promise A) n :
  all_outcomes (replicate (S n) p) =
    match outcome p with
    | Ok a => Ok (replicate (S n) a)
    | Throw e => Throw e
    end.
Proof.
  induction n as [| n IH].
  - simpl. by destruct (outcome p).
  - change (replicate (S (S n)) p) with (p :: replicate (S n) p).
    cbn [all_outcomes]. rewrite IH. by destruct (outcome p).
Qed.

Lemma chain_of_repeated rt key options options' n :
  Z.to_nat (repeats_of (KeysSingle key) options) = S n ->
  chain_of rt (KeysSingle key) options =
  chain_of rt (KeysArray (replicate (S n) key)) options'.
Proof.
  intros Hn. unfold chain_of. cbn [key_list is_single].
  rewrite fmap_replicate. unfold Promise_all at 2.
  rewrite early_rejection_replicate, all_outcomes_replicate.
  unfold Promise_all. cbn [fmap list_fmap early_rejection all_outcomes].
  unfold stage_list, first_service. rewrite Hn.
  destruct (settled_at_return (promise_of rt key)), (outcome (promise_of rt key));
    simpl; try done; by rewrite concat_replicate_singleton.
Qed.

(** Repeating one key [times] times is the same as listing it [times]
    times: the instance of the single key with [times] and the instance
    of the list of that many copies encrypt and decrypt alike, each
    decrypts the blobs of the other, and only the first imports the key
    once instead of once per copy. *)
Theorem repeated_key_as_list rt key coder coder' times w w' c0 w0 c0' w0' c c' :
  subtle_inverse rt ->
  SymmetricCryptorBasic_new rt (KeysSingle key) (mkOptions coder (Some times)) w
    = (Ok c0, w0) ->
  SymmetricCryptorBasic_new rt
    (KeysArray (replicate (Z.to_nat (number_to_Z times)) key)) (mkOptions coder' None) w'
    = (Ok c0', w0') ->
  Reachable rt c0 c ->
  Reachable rt c0' c' ->
  same_behaviour rt c c' /\
  (forall p w1 blob s2,
     encrypt rt p (mkSys c w1) = (Ok blob, s2) ->
     forall w3, (decrypt rt blob (mkSys c' w3)).1 = Ok p) /\
  (forall p w1 blob s2,
     encrypt rt p (mkSys c' w1) = (Ok blob, s2) ->
     forall w3, (decrypt rt blob (mkSys c w3)).1 = Ok p) /\
  (derivation_count w0 <= derivation_count w + 1)%nat.
Proof.
  intros Hinv Hnew Hnew' Hreach Hreach'.
  assert (Hrep : exists n, Z.to_nat (number_to_Z times) = S n).
  { pose proof Hnew as H. apply new_inv in H as (_ & _ & _ & Hge & _).
    unfold repeats_of in Hge. simpl in Hge.
    exists (Z.to_nat (number_to_Z times - 1)). lia. }
  destruct Hrep as [n Hn]. rewrite Hn in Hnew'.
  assert (Hsame : settled_keys (settle c) = settled_keys (settle c')).
  { rewrite (instance_chain _ _ _ _ _ _ _ Hnew Hreach),
            (instance_chain _ _ _ _ _ _ _ Hnew' Hreach').
    by apply chain_of_repeated. }
  split_and!.
  - by apply same_chain_same_behaviour.
  - by apply (cross_roundtrip rt _ _ w c0 w0 c c' Hinv Hnew Hreach).
  - by apply (cross_roundtrip rt _ _ w' c0' w0' c' c Hinv Hnew' Hreach').
  - pose proof Hnew as H. apply new_inv in H as (_ & _ & _ & _ & _ & ->).
    unfold derivation_count, add_events. simpl.
    rewrite List.filter_app, length_app.
    pose proof (derivation_events_imports rt [key]). simpl in *. lia.
Qed.

Lemma repeated_key_as_list_witness :
  exists c0 w0 c0' w0',
    SymmetricCryptorBasic_new toy_runtime (KeysSingle toy_password) times_3 empty_world
      = (Ok c0, w0) /\
    SymmetricCryptorBasic_new toy_runtime
      (KeysArray [toy_password; toy_password; toy_password]) no_options empty_world
      = (Ok c0', w0') /\
    derivation_count w0 = 1%nat /\
    derivation_count w0' = 3%nat /\
    same_behaviour toy_runtime c0 c0' /\
    (forall p w1 blob s2,
       encrypt toy_runtime p (mkSys c0 w1) = (Ok blob, s2) ->
       forall w3, (decrypt toy_runtime blob (mkSys c0' w3)).1 = Ok p).
Proof.
  do 4 eexists.
  split; [vm_compute; reflexivity |].
  split; [vm_compute; reflexivity |].
  split; [vm_compute; reflexivity |].
  split; [vm_compute; reflexivity |].
  destruct (repeated_key_as_list toy_runtime toy_password None None (NumFinite 3)
              empty_world empty_world _ _ _ _ _ _
              toy_subtle_inverse ltac:(vm_compute; reflexivity)
              ltac:(vm_compute; reflexivity) (Reachable_new _ _) (Reachable_new _ _))
    as (Hsame & Hcross & _).
  split; [exact Hsame | exact Hcross].
Defined.

(** ** The forms of a key *)

Lemma promise_of_written_out rt input :
  promise_of rt (written_out rt input) = promise_of rt input.
Proof.
  unfold written_out.
  destruct (create_resolve_input input) as [[algorithm key] | e] eqn:Hin; [| done].
  pose proof (create_resolve_input_accepted _ _ _ Hin) as Hacc.
  unfold promise_of, derived_service. rewrite Hin.
  unfold create_resolve_input, includes. simpl.
  by rewrite bool_decide_true.
Qed.

Lemma chain_of_written_out rt keys options options' :
  opt_times options = opt_times options' ->
  chain_of rt (map_keys (written_out rt) keys) options' = chain_of rt keys options.
Proof.
  intros Htimes. unfold chain_of, repeats_of. rewrite Htimes.
  destruct keys as [key | keys]; simpl.
  - by rewrite promise_of_written_out.
  - rewrite <- list_fmap_compose.
    assert (H : (promise_of rt ∘ written_out rt) <$> keys = promise_of rt <$> keys).
    { apply list_fmap_ext. intros _ k _. apply promise_of_written_out. }
    by rewrite H.
Qed.

(** The forms of a key are one key: a passphrase stands for its encoded
    bytes, a bare key for the object with that key, a missing algorithm
    for ["AES-CBC"].  The instance built from keys in any of these forms
    and the instance built from the same keys written out in full
    (algorithm named, key as bytes) encrypt and decrypt alike and decrypt
    each other's blobs. *)
Theorem key_forms_are_one_key rt keys options options' w w' c0 w0 c0' w0' c c' :
  subtle_inverse rt ->
  SymmetricCryptorBasic_new rt keys options w = (Ok c0, w0) ->
  SymmetricCryptorBasic_new rt (map_keys (written_out rt) keys) options' w' = (Ok c0', w0') ->
  opt_times options = opt_times options' ->
  Reachable rt c0 c ->
  Reachable rt c0' c' ->
  same_behaviour rt c c' /\
  (forall p w1 blob s2,
     encrypt rt p (mkSys c w1) = (Ok blob, s2) ->
     forall w3, (decrypt rt blob (mkSys c' w3)).1 = Ok p) /\
  (forall p w1 blob s2,
     encrypt rt p (mkSys c' w1) = (Ok blob, s2) ->
     forall w3, (decrypt rt blob (mkSys c w3)).1 = Ok p).
Proof.
  intros Hinv Hnew Hnew' Htimes Hreach Hreach'.
  assert (Hsame : settled_keys (settle c) = settled_keys (settle c')).
  { rewrite (instance_chain _ _ _ _ _ _ _ Hnew Hreach),
            (instance_chain _ _ _ _ _ _ _ Hnew' Hreach').
    symmetry. by apply chain_of_written_out. }
  split_and!.
  - by apply same_chain_same_behaviour.
  - by apply (cross_roundtrip rt _ _ w c0 w0 c c' Hinv Hnew Hreach).
  - by apply (cross_roundtrip rt _ _ w' c0' w0' c' c Hinv Hnew' Hreach').
Qed.

Lemma key_forms_are_one_key_witness :
  written_out toy_runtime toy_password =
    KeyObject (mkKeyInput (Some "AES-CBC"%string)
                 (KeyBuffer (list_byte_of_string "<PassWord123456>!!"))) /\
  exists c0 w0 c0' w0',
    SymmetricCryptorBasic_new toy_runtime (KeysSingle toy_password) no_options empty_world
      = (Ok c0, w0) /\
    SymmetricCryptorBasic_new toy_runtime
      (KeysSingle (KeyObject (mkKeyInput (Some "AES-CBC"%string)
                                (KeyBuffer (list_byte_of_string "<PassWord123456>!!")))))
      no_options empty_world = (Ok c0', w0') /\
    same_behaviour toy_runtime c0 c0'.
Proof.
  split; [reflexivity |].
  do 4 eexists.
  split; [vm_compute; reflexivity |].
  split; [vm_compute; reflexivity |].
  eapply (key_forms_are_one_key toy_runtime (KeysSingle toy_password) no_options no_options
            empty_world empty_world).
  - exact toy_subtle_inverse.
  - vm_compute; reflexivity.
  - vm_compute; reflexivity.
  - reflexivity.
  - apply Reachable_new.
  - apply Reachable_new.
Defined.

(** ** Text in, text out *)

Lemma Reachable_coder rt c0 c :
  Reachable rt c0 c ->
  cipherTextDecoder c = cipherTextDecoder c0 /\ cipherTextEncoder c = cipherTextEncoder c0.
Proof.
  intros H. apply Reachable_cases in H as [-> | ->]; [done | apply settle_coder].
Qed.

Lemma Reachable_settled rt c0 c : Reachable rt c0 c -> Reachable rt c0 (settle c).
Proof.
  intros H.
  assert (Hs : settle c = self (call rt CallReady (mkSys c empty_world)).2).
  { simpl. rewrite bind_ret_state, ready_eq. done. }
  rewrite Hs. by constructor.
Qed.

Lemma encrypt_text_eq rt c w text :
  encrypt_text rt text (mkSys c w) =
    match encrypt rt (text_encode rt text) (mkSys c w) with
    | (Ok bin, s) => (cipherTextEncoder (self s) bin, s)
    | (Throw e, s) => (Throw e, s)
    end.
Proof.
  unfold encrypt_text, bind. fold (encrypt rt (text_encode rt text)).
  by destruct (encrypt rt _ _) as [[bin | e] s].
Qed.

Lemma text_roundtrip_of_coder rt keys options w c0 w0 c :
  subtle_inverse rt ->
  SymmetricCryptorBasic_new rt keys options w = (Ok c0, w0) ->
  coder_roundtrip c0 ->
  Reachable rt c0 c ->
  forall text w1 encrypted s2,
    encrypt_text rt text (mkSys c w1) = (Ok encrypted, s2) ->
    forall w3,
      (decrypt_text rt encrypted (mkSys (self s2) w3)).1 = Ok (text_recoded rt text).
Proof.
  intros Hinv Hnew Hcoder Hreach text w1 encrypted s2 Henc w3.
  rewrite encrypt_text_eq in Henc.
  destruct (encrypt rt (text_encode rt text) (mkSys c w1)) as [[bin | e] s] eqn:Hbin;
    [| discriminate].
  injection Henc as Hencode <-.
  pose proof (encrypt_self rt c w1 (text_encode rt text)) as Hself.
  rewrite Hbin in Hself. simpl in Hself.
  assert (Hreach2 : Reachable rt c0 (self s)).
  { rewrite Hself. by apply Reachable_settled. }
  destruct (Reachable_coder _ _ _ Hreach2) as [Hd He].
  rewrite He in Hencode. apply Hcoder in Hencode.
  rewrite decrypt_text_eq, Hd, Hencode.
  pose proof (cross_roundtrip rt keys options w c0 w0 c (self s) Hinv Hnew Hreach
                ltac:(by rewrite Hself, settle_idem) _ _ _ _ Hbin w3) as Hdec.
  destruct (decrypt rt bin (mkSys (self s) w3)) as [[out | e] s3]; simpl in Hdec;
    [| discriminate].
  injection Hdec as ->. done.
Qed.

(** Text through [encrypt] and [decrypt].  On a constructed instance
    whose decoder undoes its encoder, in any later state, [decrypt] of the
    text that [encrypt] returned for a text returns what the text decoder
    makes of the encoded text: the text itself exactly when the text
    comes through the text encoder and decoder as it is. *)
Theorem encrypt_text_decrypt_text rt keys options w c0 w0 c :
  subtle_inverse rt ->
  SymmetricCryptorBasic_new rt keys options w = (Ok c0, w0) ->
  coder_roundtrip c0 ->
  Reachable rt c0 c ->
  forall text w1 encrypted s2,
    encrypt_text rt text (mkSys c w1) = (Ok encrypted, s2) ->
    forall w3,
      (decrypt_text rt encrypted (mkSys (self s2) w3)).1 = Ok (text_recoded rt text) /\
      ((decrypt_text rt encrypted (mkSys (self s2) w3)).1 = Ok text <->
       text_survives rt text).
Proof.
  intros Hinv Hnew Hcoder Hreach text w1 encrypted s2 Henc w3.
  pose proof (text_roundtrip_of_coder rt keys options w c0 w0 c Hinv Hnew Hcoder Hreach
                text w1 encrypted s2 Henc w3) as Hback.
  split; [exact Hback |]. rewrite Hback. unfold text_survives.
  split; [by intros [= ->] | by intros ->].
Qed.

Lemma toy_text_survives text : text_survives toy_runtime text.
Proof. apply string_of_list_byte_of_string. Qed.

Lemma toy_buffer_roundtrip : builtin_buffer_roundtrip toy_runtime.
Proof. intros data name _. apply list_byte_of_string_of_list_byte. Qed.

(** The coders built in for an accepted name never throw, and undo each
    other when [Buffer] does. *)
Lemma builtin_coder rt name coder :
  resolveCipherTextCoder rt (Some (CoderDefault name)) = Ok coder ->
  (forall text, decoder coder text = Ok (buffer_from rt text name)) /\
  (forall data, encoder coder data = Ok (buffer_toString rt data name)).
Proof.
  unfold resolveCipherTextCoder. simpl.
  destruct (includes cipherTextCodersDefault (toLowerCase name)); [| done].
  by intros [= <-].
Qed.

Lemma builtin_coder_accepted rt name coder :
  resolveCipherTextCoder rt (Some (CoderDefault name)) = Ok coder ->
  includes cipherTextCodersDefault (toLowerCase name) = true.
Proof.
  unfold resolveCipherTextCoder. simpl.
  by destruct (includes cipherTextCodersDefault (toLowerCase name)).
Qed.

Lemma encrypt_text_decrypt_text_witness :
  exists c0 w0,
    SymmetricCryptorBasic_new toy_runtime toy_chain no_options empty_world = (Ok c0, w0) /\
    forall text w1 encrypted s2,
      encrypt_text toy_runtime text (mkSys c0 w1) = (Ok encrypted, s2) ->
      forall w3,
        (decrypt_text toy_runtime encrypted (mkSys (self s2) w3)).1
          = Ok (text_recoded toy_runtime text) /\
        ((decrypt_text toy_runtime encrypted (mkSys (self s2) w3)).1 = Ok text <->
         text_survives toy_runtime text).
Proof.
  do 2 eexists. split; [vm_compute; reflexivity |].
  eapply (encrypt_text_decrypt_text toy_runtime toy_chain no_options empty_world).
  - exact toy_subtle_inverse.
  - vm_compute; reflexivity.
  - intros data text. cbn. intros [= <-]. f_equal. apply list_byte_of_string_of_list_byte.
  - apply Reachable_new.
Defined.

(** ** The readiness step, called by hand *)

(** [ready] can be called any number of times, on any object: a second
    call returns what the first returned and changes nothing, and no call
    touches the world. *)
Theorem ready_again_changes_nothing c w :
  let first := ready (mkSys c w) in
  ready first.2 = (first.1, first.2) /\
  world first.2 = w.
Proof.
  cbv zeta. rewrite ready_eq. simpl. rewrite ready_eq, settle_idem. done.
Qed.

(** Calling [ready] before [encrypt] or [decrypt] is never needed: with
    or without it, each of the four entry points returns the same and
    leaves the object and the world the same. *)
Theorem ready_first_changes_nothing rt c w :
  let s := (ready (mkSys c w)).2 in
  (forall data, encrypt rt data s = encrypt rt data (mkSys c w)) /\
  (forall data, decrypt rt data s = decrypt rt data (mkSys c w)) /\
  (forall text, encrypt_text rt text s = encrypt_text rt text (mkSys c w)) /\
  (forall text,
     (decrypt_text rt text s).1 = (decrypt_text rt text (mkSys c w)).1 /\
     world (decrypt_text rt text s).2 = world (decrypt_text rt text (mkSys c w)).2).
Proof.
  cbv zeta. rewrite ready_eq. simpl.
  assert (Henc : forall data,
    encrypt rt data (mkSys (settle c) w) = encrypt rt data (mkSys c w)).
  { intros data. by rewrite !encrypt_eq, settle_idem. }
  assert (Hdec : forall data,
    decrypt rt data (mkSys (settle c) w) = decrypt rt data (mkSys c w)).
  { intros data. by rewrite !decrypt_eq, settle_idem. }
  split_and!; [done | done | |].
  - intros text. by rewrite !encrypt_text_eq, Henc.
  - intros text. rewrite !decrypt_text_eq.
    destruct (settle_coder c) as [-> _].
    destruct (cipherTextDecoder c text) as [decoded | e]; [| done].
    by rewrite Hdec.
Qed.

(** ** An instance whose key derivation failed *)

(** On an object whose readiness step fails, no call does any work: the
    calls of an instance with a failed key derivation draw no random
    value, run no cipher stage, start no import, and leave the object
    settled; in list mode no stage of a key that did derive is ever run. *)
Theorem failed_instance_does_no_work rt c w e cl :
  (ready (mkSys c w)).1 = Throw e ->
  call_decodes c cl ->
  call rt cl (mkSys c w) = (Throw e, mkSys (settle c) w).
Proof.
  intros Hready Hdec. rewrite ready_eq in Hready. simpl in Hready.
  assert (Hfail : keysToCryptoKeysFail (settle c) = Some e).
  { destruct (keysToCryptoKeysFail (settle c)); by simplify_eq. }
  assert (Hkeys : settled_keys (settle c) = Throw e).
  { unfold settled_keys. by rewrite Hfail. }
  destruct cl as [| data | data | data | data]; simpl; unfold bind at 1.
  - by rewrite ready_eq, Hfail.
  - by rewrite encrypt_eq, Hkeys.
  - by rewrite decrypt_eq, Hkeys.
  - by rewrite encrypt_text_eq, encrypt_eq, Hkeys.
  - rewrite decrypt_text_eq. simpl in Hdec.
    destruct (cipherTextDecoder c data) as [decoded | e']; [| done].
    by rewrite decrypt_eq, Hkeys.
Qed.

Lemma failed_instance_does_no_work_witness :
  exists c0 w0,
    SymmetricCryptorBasic_new toy_runtime half_bad_chain no_options empty_world = (Ok c0, w0) /\
    (ready (mkSys c0 w0)).1 = Throw (InvalidAlgorithm "AES-ECB") /\
    call toy_runtime (CallEncrypt [x01; x02]) (mkSys c0 w0) =
      (Throw (InvalidAlgorithm "AES-ECB"), mkSys (settle c0) w0).
Proof.
  do 2 eexists.
  split; [vm_compute; reflexivity |].
  split; [vm_compute; reflexivity |].
  apply (failed_instance_does_no_work toy_runtime).
  - vm_compute; reflexivity.
  - exact I.
Defined.

(** With one of the built-in coder names the text decoder never throws,
    so on an instance whose key derivation failed with [e] every call
    whatever, [decrypt] of any text included, raises [e]. *)
Theorem builtin_coder_failure_replay rt keys name times w c0 w0 promise e c w1 cl :
  SymmetricCryptorBasic_new rt keys (mkOptions (Some (CoderDefault name)) times) w
    = (Ok c0, w0) ->
  keysToCryptoKeysPromise c0 = Some promise ->
  outcome promise = Throw e ->
  Reachable rt c0 c ->
  (call rt cl (mkSys c w1)).1 = Throw e.
Proof.
  intros Hnew Hp Hout Hreach.
  destruct (new_settled _ _ _ _ _ _ Hnew) as (promise' & Hp' & Hsettled).
  rewrite Hp in Hp'. injection Hp' as <-. rewrite Hout in Hsettled.
  destruct Hsettled as [Hfail _].
  destruct (Reachable_coder _ _ _ Hreach) as [Hd _].
  pose proof Hnew as Hinv. apply new_inv in Hinv as (coder & Hcoder & _ & _ & Hc0 & _).
  destruct (builtin_coder _ _ _ Hcoder) as [Hdecoder _].
  apply call_failed.
  - by rewrite (Reachable_settle _ _ _ Hreach).
  - destruct cl; simpl; try done. rewrite Hd, Hc0. simpl. by rewrite Hdecoder.
Qed.

Lemma builtin_coder_failure_replay_witness :
  exists c0 w0 promise,
    SymmetricCryptorBasic_new toy_runtime half_bad_chain
      (mkOptions (Some (CoderDefault "BASE64")) None) empty_world = (Ok c0, w0) /\
    keysToCryptoKeysPromise c0 = Some promise /\
    outcome promise = Throw (InvalidAlgorithm "AES-ECB") /\
    (call toy_runtime (CallDecryptText "not base64 at all") (mkSys c0 w0)).1
      = Throw (InvalidAlgorithm "AES-ECB").
Proof.
  do 3 eexists.
  split; [vm_compute; reflexivity |].
  split; [vm_compute; reflexivity |].
  split; [vm_compute; reflexivity |].
  eapply (builtin_coder_failure_replay toy_runtime half_bad_chain "BASE64" None empty_world).
  - vm_compute; reflexivity.
  - vm_compute; reflexivity.
  - vm_compute; reflexivity.
  - apply Reachable_new.
Defined.

(** ** Where an error of [decrypt] comes from *)

Lemma chain_decrypt_throw rt stages :
  forall data w e w',
    for_of stages (Service_decrypt rt) data w = (Throw e, w') ->
    exists params key body evs,
      subtle_decrypt rt params key body = Throw e /\
      trace w' = trace w ++ evs ++ [EvSubtleDecrypt params key body] /\
      forallb is_decrypt_event evs = true /\
      (length evs < length stages)%nat.
Proof.
  induction stages as [| sv stages IH]; intros data w e w' H; simpl in H; [done |].
  unfold bind in H. rewrite Service_decrypt_eq in H.
  destruct (subtle_decrypt rt _ _ _) as [mid | e1] eqn:Hprim.
  - apply IH in H as (params & key & body & evs & Hthrow & Htrace & Hevs & Hlen).
    exists params, key, body, (EvSubtleDecrypt
      (sv_resolveDecryptParameters sv data) (sv_cryptoKey sv)
      (drop (sv_tokenLength sv) data) :: evs).
    split_and!; [done | | done |].
    + rewrite Htrace. simpl. by rewrite <- app_assoc.
    + rewrite !length_cons. lia.
  - injection H as <- <-. do 3 eexists. exists [].
    split_and!; [exact Hprim | done | done |]. rewrite length_cons. simpl. lia.
Qed.

(** On an object that is ready, [decrypt] raises no error of its own:
    when it throws, the cipher primitive threw that very error, its call
    is the last thing logged, and before it only earlier stages of the
    primitive were run; so the chain stops at the first stage that fails
    and no later stage is run.  In particular a truncated or malformed
    blob is refused by the primitive only. *)
Theorem decrypt_errors_come_from_the_primitive rt c w stages data e s' :
  settled_keys (settle c) = Ok stages ->
  decrypt rt data (mkSys c w) = (Throw e, s') ->
  exists params key body evs,
    subtle_decrypt rt params key body = Throw e /\
    trace (world s') = trace w ++ evs ++ [EvSubtleDecrypt params key body] /\
    forallb is_decrypt_event evs = true /\
    (length evs < length stages)%nat /\
    self s' = settle c.
Proof.
  intros Hkeys. pose proof (decrypt_self rt c w data) as Hself.
  rewrite decrypt_eq, Hkeys. rewrite decrypt_eq, Hkeys in Hself.
  case_bool_decide; [done |].
  unfold in_world in *. simpl in *.
  destruct (for_of (reverse stages) _ data w) as [[out | e1] w1] eqn:Hchain; [done |].
  intros [= <- <-]. simpl.
  destruct (chain_decrypt_throw rt (reverse stages) data _ _ _ Hchain)
    as (params & key & body & evs & Hthrow & Htrace & Hevs & Hlen).
  exists params, key, body, evs. rewrite length_reverse in Hlen. done.
Qed.

Lemma decrypt_errors_come_from_the_primitive_witness :
  exists stages,
    settled_keys (settle toy_instance) = Ok stages /\
    (decrypt toy_runtime [x09; x09; x09] (mkSys toy_instance empty_world)).1
      = Throw (mkError (ClsDOMException "OperationError") EmptyString) /\
    forall e s',
      decrypt toy_runtime [x09; x09; x09] (mkSys toy_instance empty_world) = (Throw e, s') ->
      exists params key body evs,
        subtle_decrypt toy_runtime params key body = Throw e /\
        trace (world s') = trace empty_world ++ evs ++ [EvSubtleDecrypt params key body] /\
        forallb is_decrypt_event evs = true /\
        (length evs < length stages)%nat /\
        self s' = settle toy_instance.
Proof.
  eexists. split; [vm_compute; reflexivity |]. split; [vm_compute; reflexivity |].
  intros e s'.
  eapply (decrypt_errors_come_from_the_primitive toy_runtime toy_instance empty_world _
            [x09; x09; x09] e s').
  vm_compute; reflexivity.
Defined.

(** ** Random values and lengths *)

Lemma chain_decrypt_entropy rt stages :
  forall data w, entropy_pos (for_of stages (Service_decrypt rt) data w).2 = entropy_pos w.
Proof.
  induction stages as [| sv stages IH]; intros data w; simpl; [done |].
  unfold bind. rewrite Service_decrypt_eq.
  destruct (subtle_decrypt rt _ _ _) as [mid | e]; [| done].
  by rewrite IH.
Qed.

Lemma chain_encrypt_entropy_le rt stages :
  forall data w,
    (entropy_pos w <= entropy_pos (for_of stages (Service_encrypt rt) data w).2
     <= entropy_pos w + chain_overhead stages)%nat.
Proof.
  induction stages as [| sv stages IH]; intros data w.
  - simpl. unfold chain_overhead. simpl. lia.
  - simpl. unfold bind. rewrite Service_encrypt_eq.
    unfold chain_overhead. rewrite fmap_cons.
    change (sum_list (sv_tokenLength sv :: (sv_tokenLength <$> stages)))
      with (sv_tokenLength sv + chain_overhead stages)%nat.
    destruct (subtle_encrypt rt _ _ _) as [mid | e]; simpl; [| lia].
    match goal with |- context [for_of stages _ ?d ?w1] =>
      specialize (IH d w1) end.
    simpl in IH. lia.
Qed.

(** Random values are drawn by [encrypt] alone.  [decrypt] and [ready]
    leave the position of the random source where it was; an [encrypt]
    that returns has advanced it by exactly the token lengths of its
    stages, and one that throws by no more than that; it never moves
    back. *)
Theorem random_values_are_drawn_by_encrypt_only rt c w data :
  entropy_pos (world (ready (mkSys c w)).2) = entropy_pos w /\
  entropy_pos (world (decrypt rt data (mkSys c w)).2) = entropy_pos w /\
  (entropy_pos w <= entropy_pos (world (encrypt rt data (mkSys c w)).2))%nat /\
  forall stages,
    settled_keys (settle c) = Ok stages ->
    (entropy_pos (world (encrypt rt data (mkSys c w)).2)
     <= entropy_pos w + chain_overhead stages)%nat /\
    forall blob s2,
      encrypt rt data (mkSys c w) = (Ok blob, s2) ->
      entropy_pos (world s2) = (entropy_pos w + chain_overhead stages)%nat.
Proof.
  split_and!.
  - by rewrite ready_eq.
  - rewrite decrypt_eq. destruct (settled_keys (settle c)) as [stages | e]; [| done].
    case_bool_decide; [done |]. rewrite in_world_world. apply chain_decrypt_entropy.
  - rewrite encrypt_eq. destruct (settled_keys (settle c)) as [stages | e]; [| done].
    rewrite in_world_world. apply chain_encrypt_entropy_le.
  - intros stages Hkeys. split.
    + rewrite encrypt_eq, Hkeys, in_world_world. apply chain_encrypt_entropy_le.
    + intros blob s2 Henc.
      destruct (encrypt_inv _ _ _ _ _ _ _ Hkeys Henc) as (w2 & Hchain & ->). simpl.
      by apply chain_encrypt_entropy in Hchain as [-> _].
Qed.

Lemma service_wf_tokenLength_le sv : service_wf sv -> (sv_tokenLength sv <= 16)%nat.
Proof.
  intros [ck H]. apply Service_new_inv in H as (_ & _ & _ & -> & _).
  unfold nonceLength. case_bool_decide; lia.
Qed.

Lemma chain_overhead_upper_bound stages :
  Forall service_wf stages -> (chain_overhead stages <= 16 * length stages)%nat.
Proof.
  unfold chain_overhead. induction 1 as [| sv stages Hsv _ IH]; [simpl; lia |].
  apply service_wf_tokenLength_le in Hsv.
  rewrite fmap_cons, length_cons.
  change (sum_list (sv_tokenLength sv :: (sv_tokenLength <$> stages)))
    with (sv_tokenLength sv + sum_list (sv_tokenLength <$> stages))%nat.
  lia.
Qed.

(** The blob [encrypt] returns for a payload, on a constructed instance
    with [n] stages, is at least 12 bytes long; when the primitive returns
    no less than it is given, the blob is longer than the payload by at
    least the random values of all stages, which take between [12 n] and
    [16 n] bytes. *)
Theorem blob_is_longer_than_payload rt keys options w c0 w0 c w1 data blob s2 :
  SymmetricCryptorBasic_new rt keys options w = (Ok c0, w0) ->
  Reachable rt c0 c ->
  encrypt rt data (mkSys c w1) = (Ok blob, s2) ->
  exists stages,
    (getCryptoKeys (mkSys c w1)).1 = Ok stages /\
    (12 <= length blob)%nat /\
    (12 * length stages <= chain_overhead stages <= 16 * length stages)%nat /\
    (subtle_nonshrinking rt -> (length data + chain_overhead stages <= length blob)%nat).
Proof.
  intros Hnew Hreach Henc.
  destruct (ready_stages _ _ _ _ _ _ _ _ Hnew Hreach (encrypt_ok_ready _ _ _ _ _ _ Henc))
    as (stages & Hkeys & Hne & Hwf).
  destruct (encrypt_inv _ _ _ _ _ _ _ Hkeys Henc) as (w2 & Hchain & _).
  exists stages. split_and!.
  - by rewrite getCryptoKeys_eq.
  - by apply (chain_encrypt_nonempty rt stages data w1 blob w2).
  - by apply chain_overhead_lower_bound.
  - by apply chain_overhead_upper_bound.
  - intros Hgrow. apply chain_encrypt_length in Hchain as [_ H]. specialize (H Hgrow). lia.
Qed.

Lemma blob_is_longer_than_payload_witness :
  exists c0 w0 blob s2,
    SymmetricCryptorBasic_new toy_runtime toy_chain no_options empty_world = (Ok c0, w0) /\
    encrypt toy_runtime [x01; x02] (mkSys c0 w0) = (Ok blob, s2) /\
    exists stages,
      (getCryptoKeys (mkSys c0 w0)).1 = Ok stages /\
      (12 <= length blob)%nat /\
      (12 * length stages <= chain_overhead stages <= 16 * length stages)%nat /\
      (subtle_nonshrinking toy_runtime ->
       (length [x01; x02] + chain_overhead stages <= length blob)%nat).
Proof.
  do 4 eexists.
  split; [vm_compute; reflexivity |]. split; [vm_compute; reflexivity |].
  eapply (blob_is_longer_than_payload toy_runtime toy_chain no_options empty_world).
  - vm_compute; reflexivity.
  - apply Reachable_new.
  - vm_compute; reflexivity.
Defined.

(** ** Files: writing and reading back *)

Lemma writeFile_eq filePath data options c w :
  in_world (Deno_writeFile filePath data options) (mkSys c w) =
    let w1 := add_events w [EvWriteFile filePath data] in
    match files w !! filePath with
    | Some content =>
        if default false (wo_createNew options)
        then (Throw (AlreadyExists filePath), mkSys c w1)
        else if default false (wo_append options)
        then (Ok tt, mkSys c (mkWorld (entropy_pos w1)
                                 (<[filePath := content ++ data]> (files w)) (trace w1)))
        else (Ok tt, mkSys c (mkWorld (entropy_pos w1)
                                (<[filePath := data]> (files w)) (trace w1)))
    | None =>
        if default false (wo_createNew options) || default true (wo_create options)
        then (Ok tt, mkSys c (mkWorld (entropy_pos w1)
                                (<[filePath := data]> (files w)) (trace w1)))
        else (Throw (NotFound filePath), mkSys c w1)
    end.
Proof.
  unfold in_world, Deno_writeFile, bind, log, modify, gets, set_files, throw. simpl.
  destruct (files w !! filePath);
    destruct (default false (wo_createNew options));
    destruct (default false (wo_append options));
    destruct (default true (wo_create options)); done.
Qed.

(** A write that the file operations of the classes make, when it
    succeeds, leaves exactly [data] in the file and the other files as
    they were: never the old content followed by [data]. *)
Lemma writeFile_replaces filePath data options c w s1 :
  default false (wo_append options) = false ->
  in_world (Deno_writeFile filePath data options) (mkSys c w) = (Ok tt, s1) ->
  self s1 = c /\ files (world s1) = <[filePath := data]> (files w).
Proof.
  intros Happend. rewrite writeFile_eq, Happend. cbv zeta.
  destruct (files w !! filePath);
    destruct (default false (wo_createNew options)); simpl;
    try destruct (default true (wo_create options)); simpl;
    intros [= <-]; done.
Qed.

Lemma options_append_false_spec options :
  default false (wo_append (options_append_false options)) = false.
Proof. by destruct options. Qed.

Lemma writeEncryptedFile_inv rt filePath data options c w s1 :
  Standard.writeEncryptedFile rt filePath data options (mkSys c w) = (Ok tt, s1) ->
  exists blob w2,
    encrypt rt data (mkSys c w) = (Ok blob, mkSys (settle c) w2) /\
    self s1 = settle c /\
    files (world s1) = <[filePath := blob]> (files w).
Proof.
  unfold Standard.writeEncryptedFile, bind.
  pose proof (encrypt_self rt c w data) as Hself.
  pose proof (encrypt_quiet rt data (mkSys c w)) as [Hfiles _].
  destruct (encrypt rt data (mkSys c w)) as [[blob | e] [c2 w2]] eqn:Henc; [| done].
  simpl in *. subst c2. intros Hwrite.
  apply writeFile_replaces in Hwrite as [Hs Hf]; [| apply options_append_false_spec].
  exists blob, w2. split_and!; [done | done |]. by rewrite Hf, Hfiles.
Qed.

Lemma readEncryptedFile_eq rt filePath c w :
  Standard.readEncryptedFile rt filePath (mkSys c w) =
    match files w !! filePath with
    | Some content => decrypt rt content (mkSys c (add_events w [EvReadFile filePath]))
    | None => (Throw (NotFound filePath), mkSys c (add_events w [EvReadFile filePath]))
    end.
Proof.
  unfold Standard.readEncryptedFile, bind. rewrite readFile_eq.
  by destruct (files w !! filePath).
Qed.

(** What [writeEncryptedFile] wrote, [readEncryptedFile] reads back: after
    a write that returned, whatever the write options (an [append] among
    them is overridden, an existing file is replaced), reading the file on
    the same instance returns the data, as long as the file is still what
    was written.  With text, [readEncryptedTextFile] returns what the text
    decoder makes of the encoded text that [writeEncryptedTextFile] was
    given: the text itself exactly when the text comes through the text
    encoder and decoder as it is.  The two classes have the same four
    operations. *)
Theorem file_written_is_read_back rt keys options w c0 w0 c filePath wopts w1 :
  subtle_inverse rt ->
  SymmetricCryptorBasic_new rt keys options w = (Ok c0, w0) ->
  Reachable rt c0 c ->
  (forall data s1,
     Standard.writeEncryptedFile rt filePath data wopts (mkSys c w1) = (Ok tt, s1) ->
     forall w3,
       files w3 !! filePath = files (world s1) !! filePath ->
       (Standard.readEncryptedFile rt filePath (mkSys (self s1) w3)).1 = Ok data) /\
  (forall text s1,
     Standard.writeEncryptedTextFile rt filePath text wopts (mkSys c w1) = (Ok tt, s1) ->
     forall w3,
       files w3 !! filePath = files (world s1) !! filePath ->
       (Standard.readEncryptedTextFile rt filePath (mkSys (self s1) w3)).1
         = Ok (text_recoded rt text) /\
       ((Standard.readEncryptedTextFile rt filePath (mkSys (self s1) w3)).1 = Ok text <->
        text_survives rt text)) /\
  (forall data text s,
     Enhance.writeEncryptedFile rt filePath data wopts s =
       Standard.writeEncryptedFile rt filePath data wopts s /\
     Enhance.readEncryptedFile rt filePath s = Standard.readEncryptedFile rt filePath s /\
     Enhance.writeEncryptedTextFile rt filePath text wopts s =
       Standard.writeEncryptedTextFile rt filePath text wopts s /\
     Enhance.readEncryptedTextFile rt filePath s =
       Standard.readEncryptedTextFile rt filePath s).
Proof.
  intros Hinv Hnew Hreach.
  assert (Hbytes : forall data s1,
    Standard.writeEncryptedFile rt filePath data wopts (mkSys c w1) = (Ok tt, s1) ->
    forall w3,
      files w3 !! filePath = files (world s1) !! filePath ->
      (Standard.readEncryptedFile rt filePath (mkSys (self s1) w3)).1 = Ok data).
  { intros data s1 Hwrite w3 Hfile.
    apply writeEncryptedFile_inv in Hwrite as (blob & w2 & Henc & Hself & Hfiles).
    rewrite readEncryptedFile_eq, Hfile, Hfiles, lookup_insert_eq, Hself.
    apply (cross_roundtrip rt keys options w c0 w0 c (settle c) Hinv Hnew Hreach
             ltac:(by rewrite settle_idem) _ _ _ _ Henc). }
  split_and!; [exact Hbytes | | done].
  intros text s1 Hwrite w3 Hfile.
  unfold Standard.writeEncryptedTextFile in Hwrite.
  specialize (Hbytes _ _ Hwrite w3 Hfile).
  assert (Hback : (Standard.readEncryptedTextFile rt filePath (mkSys (self s1) w3)).1
                    = Ok (text_recoded rt text)).
  { unfold Standard.readEncryptedTextFile, bind.
    destruct (Standard.readEncryptedFile rt filePath _) as [[out | e] s3]; simpl in *;
      [| discriminate].
    by injection Hbytes as ->. }
  split; [exact Hback |]. rewrite Hback. unfold text_survives.
  split; [by intros [= ->] | by intros ->].
Qed.

Lemma file_written_is_read_back_witness :
  exists c0 w0 s1,
    SymmetricCryptorBasic_new toy_runtime toy_chain no_options empty_world = (Ok c0, w0) /\
    Standard.writeEncryptedFile toy_runtime "file" [x71; x77]
      (Some (mkWriteFileOptions (Some true) None None))
      (mkSys c0 (toy_file_world [x00; x00])) = (Ok tt, s1) /\
    (Standard.readEncryptedFile toy_runtime "file" s1).1 = Ok [x71; x77].
Proof.
  do 3 eexists.
  split; [vm_compute; reflexivity |]. split; [vm_compute; reflexivity |].
  destruct (file_written_is_read_back toy_runtime toy_chain no_options empty_world
              _ _ _ "file" (Some (mkWriteFileOptions (Some true) None None))
              (toy_file_world [x00; x00])
              toy_subtle_inverse ltac:(vm_compute; reflexivity) (Reachable_new _ _))
    as (Hbytes & _).
  apply (Hbytes [x71; x77] _ ltac:(vm_compute; reflexivity) _ eq_refl).
Defined.

(** ** Files: in place *)

Lemma in_place_inv (crypt : bytes -> M Sys bytes) filePath c w s1 :
  (let! context := in_world (Deno_readFile filePath) in
   let! output := crypt context in
   in_world (Deno_writeFile filePath output options_create_false)) (mkSys c w) = (Ok tt, s1) ->
  exists content output s2,
    files w !! filePath = Some content /\
    crypt content (mkSys c (add_events w [EvReadFile filePath])) = (Ok output, s2) /\
    in_world (Deno_writeFile filePath output options_create_false) s2 = (Ok tt, s1).
Proof.
  unfold bind. rewrite readFile_eq.
  destruct (files w !! filePath) as [content |]; [| done].
  destruct (crypt content _) as [[output | e] s2] eqn:Hcrypt; [| done].
  intros Hwrite. by exists content, output, s2.
Qed.

(** [encryptFileInPlace] followed by [decryptFileInPlace] on the same
    instance restores the file: when the first returns, the second returns
    too, and every file then has the content it had before the first. *)
Theorem in_place_roundtrip rt keys options w c0 w0 c filePath w1 s1 :
  subtle_inverse rt ->
  SymmetricCryptorBasic_new rt keys options w = (Ok c0, w0) ->
  Reachable rt c0 c ->
  Standard.encryptFileInPlace rt filePath (mkSys c w1) = (Ok tt, s1) ->
  exists s2,
    Standard.decryptFileInPlace rt filePath s1 = (Ok tt, s2) /\
    files (world s2) = files w1 /\
    (exists blob, files (world s1) !! filePath = Some blob /\ (12 <= length blob)%nat).
Proof.
  intros Hinv Hnew Hreach Henc.
  apply (in_place_inv (encrypt rt)) in Henc as (content & blob & [c2 w2] & Hfile & Hcrypt & Hwrite).
  pose proof (encrypt_self rt c (add_events w1 [EvReadFile filePath]) content) as Hself.
  pose proof (encrypt_quiet rt content (mkSys c (add_events w1 [EvReadFile filePath])))
    as [Hfiles _].
  rewrite Hcrypt in Hself, Hfiles. simpl in Hself, Hfiles. subst c2.
  apply writeFile_replaces in Hwrite as [Hs1 Hf1]; [| done].
  destruct s1 as [c1 ws1]. simpl in *. subst c1.
  assert (Hlen : (12 <= length blob)%nat).
  { destruct (ready_stages _ _ _ _ _ _ _ _ Hnew Hreach
                (encrypt_ok_ready _ _ _ _ _ _ Hcrypt)) as (stages & Hkeys & Hne & Hwf).
    destruct (encrypt_inv _ _ _ _ _ _ _ Hkeys Hcrypt) as (w2' & Hchain & _).
    by apply (chain_encrypt_nonempty rt stages content _ blob w2' Hne Hwf Hchain). }
  pose proof (cross_roundtrip rt keys options w c0 w0 c (settle c) Hinv Hnew Hreach
                ltac:(by rewrite settle_idem) _ _ _ _ Hcrypt
                (add_events ws1 [EvReadFile filePath])) as Hdec.
  pose proof (decrypt_self rt (settle c) (add_events ws1 [EvReadFile filePath]) blob) as Hself.
  pose proof (decrypt_quiet rt blob (mkSys (settle c) (add_events ws1 [EvReadFile filePath])))
    as [Hfiles2 _].
  unfold Standard.decryptFileInPlace, bind. rewrite readFile_eq, Hf1, lookup_insert_eq.
  destruct (decrypt rt blob _) as [[out | e] [c3 w3]]; simpl in *; [| discriminate].
  injection Hdec as ->. subst c3.
  rewrite writeFile_eq. cbv zeta. rewrite Hfiles2, Hf1, lookup_insert_eq. simpl.
  eexists. split; [reflexivity |]. simpl.
  split.
  - rewrite insert_insert_eq, Hfiles. by apply insert_id.
  - exists blob. done.
Qed.

Lemma in_place_roundtrip_witness :
  exists c0 w0 s1 s2,
    SymmetricCryptorBasic_new toy_runtime toy_chain no_options empty_world = (Ok c0, w0) /\
    Standard.encryptFileInPlace toy_runtime "file" (mkSys c0 (toy_file_world [x71; x77]))
      = (Ok tt, s1) /\
    Standard.decryptFileInPlace toy_runtime "file" s1 = (Ok tt, s2) /\
    files (world s2) = files (toy_file_world [x71; x77]).
Proof.
  do 3 eexists.
  destruct (in_place_roundtrip toy_runtime toy_chain no_options empty_world _ _ _ "file"
              (toy_file_world [x71; x77]) _
              toy_subtle_inverse ltac:(vm_compute; reflexivity) (Reachable_new _ _)
              ltac:(vm_compute; reflexivity)) as (s2 & Hdec & Hfiles & _).
  exists s2.
  split; [vm_compute; reflexivity |]. split; [vm_compute; reflexivity |].
  split; [exact Hdec | exact Hfiles].
Defined.

(** [readEncryptedFile] and [readEncryptedTextFile] only read: whatever
    they return, no write was started and every file is as it was.  And
    when the file is missing, these two and the two in-place operations
    throw the error of the read before anything else happens: the object
    is not even made ready, no cipher stage runs, no file is created. *)
Theorem reading_a_file rt filePath c w :
  files (world (Standard.readEncryptedFile rt filePath (mkSys c w)).2) = files w /\
  writes (world (Standard.readEncryptedFile rt filePath (mkSys c w)).2) = writes w /\
  files (world (Standard.readEncryptedTextFile rt filePath (mkSys c w)).2) = files w /\
  writes (world (Standard.readEncryptedTextFile rt filePath (mkSys c w)).2) = writes w /\
  (files w !! filePath = None ->
   let untouched := mkSys c (add_events w [EvReadFile filePath]) in
   Standard.readEncryptedFile rt filePath (mkSys c w) = (Throw (NotFound filePath), untouched) /\
   Standard.readEncryptedTextFile rt filePath (mkSys c w)
     = (Throw (NotFound filePath), untouched) /\
   Standard.decryptFileInPlace rt filePath (mkSys c w) = (Throw (NotFound filePath), untouched) /\
   Standard.encryptFileInPlace rt filePath (mkSys c w) = (Throw (NotFound filePath), untouched) /\
   Enhance.decryptFileInPlace rt filePath (mkSys c w) = (Throw (NotFound filePath), untouched) /\
   Enhance.encryptFileInPlace rt filePath (mkSys c w) = (Throw (NotFound filePath), untouched)).
Proof.
  assert (Hread : files (world (Standard.readEncryptedFile rt filePath (mkSys c w)).2) = files w /\
                  writes (world (Standard.readEncryptedFile rt filePath (mkSys c w)).2) = writes w).
  { rewrite readEncryptedFile_eq.
    assert (Hw : writes (add_events w [EvReadFile filePath]) = writes w).
    { unfold writes. simpl. rewrite List.filter_app. simpl. by rewrite app_nil_r. }
    destruct (files w !! filePath) as [content |]; [| done].
    destruct (decrypt_quiet rt content (mkSys c (add_events w [EvReadFile filePath])))
      as [-> ->]. done. }
  assert (Htext : (Standard.readEncryptedTextFile rt filePath (mkSys c w)).2
                  = (Standard.readEncryptedFile rt filePath (mkSys c w)).2).
  { unfold Standard.readEncryptedTextFile. apply bind_ret_state. }
  destruct Hread as [Hf Hw].
  split_and!; [done | done | by rewrite Htext | by rewrite Htext |].
  intros Hmissing. cbv zeta.
  unfold Standard.readEncryptedTextFile, Standard.readEncryptedFile,
    Standard.decryptFileInPlace, Standard.encryptFileInPlace,
    Enhance.decryptFileInPlace, Enhance.encryptFileInPlace, bind.
  rewrite readFile_eq, Hmissing. done.
Qed.

Lemma reading_a_file_witness :
  Standard.encryptFileInPlace toy_runtime "elsewhere"
    (mkSys toy_instance (toy_file_world [x01]))
  = (Throw (NotFound "elsewhere"),
     mkSys toy_instance (add_events (toy_file_world [x01]) [EvReadFile "elsewhere"])).
Proof.
  apply (reading_a_file toy_runtime "elsewhere" toy_instance (toy_file_world [x01])).
  vm_compute; reflexivity.
Defined.

(** An empty file in place.  On an instance that is ready,
    [decryptFileInPlace] of an empty file returns and writes the empty
    content back: the file stays empty, nothing is decrypted and no
    cipher stage runs.  [encryptFileInPlace] of an empty file, when it
    returns, leaves a file of at least 12 bytes. *)
Theorem empty_file_in_place rt keys options w c0 w0 c filePath w1 :
  SymmetricCryptorBasic_new rt keys options w = (Ok c0, w0) ->
  Reachable rt c0 c ->
  (ready (mkSys c w1)).1 = Ok tt ->
  files w1 !! filePath = Some [] ->
  Standard.decryptFileInPlace rt filePath (mkSys c w1) =
    (Ok tt, mkSys (settle c)
              (mkWorld (entropy_pos w1) (files w1)
                 (trace w1 ++ [EvReadFile filePath; EvWriteFile filePath []]))) /\
  (forall s1,
     Standard.encryptFileInPlace rt filePath (mkSys c w1) = (Ok tt, s1) ->
     exists blob, files (world s1) !! filePath = Some blob /\ (12 <= length blob)%nat).
Proof.
  intros Hnew Hreach Hready Hfile.
  destruct (ready_stages _ _ _ _ _ _ _ _ Hnew Hreach Hready) as (stages & Hkeys & Hne & Hwf).
  split.
  - unfold Standard.decryptFileInPlace, bind. rewrite readFile_eq, Hfile.
    rewrite decrypt_eq, Hkeys. simpl.
    rewrite writeFile_eq. cbv zeta. simpl. rewrite Hfile. simpl.
    rewrite insert_id by done. by rewrite <- app_assoc.
  - intros s1 Henc.
    apply (in_place_inv (encrypt rt)) in Henc
      as (content & blob & [c2 w2] & Hfile' & Hcrypt & Hwrite).
    apply writeFile_replaces in Hwrite as [_ Hf1]; [| done].
    exists blob. split; [by rewrite Hf1, lookup_insert_eq |].
    destruct (encrypt_inv _ _ _ _ _ _ _ Hkeys Hcrypt) as (w2' & Hchain & _).
    by apply (chain_encrypt_nonempty rt stages content _ blob w2' Hne Hwf Hchain).
Qed.

Lemma empty_file_in_place_witness :
  exists c0 w0,
    SymmetricCryptorBasic_new toy_runtime toy_chain no_options empty_world = (Ok c0, w0) /\
    Standard.decryptFileInPlace toy_runtime "file" (mkSys c0 (toy_file_world [])) =
      (Ok tt, mkSys (settle c0)
                (mkWorld 0 (files (toy_file_world []))
                   [EvReadFile "file"; EvWriteFile "file" []])).
Proof.
  do 2 eexists. split; [vm_compute; reflexivity |].
  eapply (empty_file_in_place toy_runtime toy_chain no_options empty_world _ _ _ "file"
            (toy_file_world [])).
  - vm_compute; reflexivity.
  - apply Reachable_new.
  - vm_compute; reflexivity.
  - vm_compute; reflexivity.
Defined.

(** ** The service of the earlier file *)

Lemma algorithm_of_string_accepted name :
  includes algorithms name = true ->
  exists algorithm,
    Legacy.algorithm_of_string name = Some algorithm /\
    Legacy.algorithm_name algorithm = name.
Proof.
  unfold includes, algorithms. intros H. apply bool_decide_eq_true in H.
  apply elem_of_cons in H as [-> | H]; [by exists Legacy.AES_CBC |].
  apply elem_of_cons in H as [-> | H]; [by exists Legacy.AES_CTR |].
  apply list_elem_of_singleton in H as ->. by exists Legacy.AES_GCM.
Qed.

Lemma legacy_resolve_input rt input :
  match Legacy.create_resolve_input rt input, create_resolve_input input with
  | Ok (old_algorithm, bytes), Ok (algorithm, key) =>
      Legacy.algorithm_name old_algorithm = algorithm /\ bytes = key_bytes rt key
  | Throw e_old, Throw e => e_old = e
  | _, _ => False
  end.
Proof.
  destruct input as [[text | data] | [[given |] [text | data]]]; simpl; try done.
  - unfold Legacy.create_resolve_input, create_resolve_input. simpl.
    destruct (includes algorithms given) eqn:Hin; simpl; [| done].
    by destruct (algorithm_of_string_accepted given Hin) as (a & -> & <-).
  - unfold Legacy.create_resolve_input, create_resolve_input. simpl.
    destruct (includes algorithms given) eqn:Hin; simpl; [| done].
    by destruct (algorithm_of_string_accepted given Hin) as (a & -> & <-).
Qed.

Lemma legacy_service_new rt algorithm cryptoKey :
  ck_algorithm_name cryptoKey = Legacy.algorithm_name algorithm ->
  exists sv,
    Service_new cryptoKey = Ok sv /\
    services_agree rt (Legacy.Service_new algorithm cryptoKey) sv.
Proof.
  intros Hname. unfold Service_new. rewrite Hname.
  destruct algorithm; simpl; eexists; (split; [reflexivity |]);
    unfold services_agree; simpl; by rewrite ?Hname.
Qed.

(** The service of the earlier file and the service of the present file
    are the same service.  For every key spec, when the key import returns
    a key under the name it was asked for, the two [create] functions log
    the same digest and import, settle at the same time, reject with the
    same error, and otherwise fulfil with services that have the same key
    and the same random value length and encrypt and decrypt alike. *)
Theorem earlier_service_agrees rt input w :
  importKey_names_kept rt ->
  exists old p,
    Legacy.create rt input w = (Ok old, add_events w (derivation_events rt input)) /\
    create rt input w = (Ok p, add_events w (derivation_events rt input)) /\
    promises_agree rt old p.
Proof.
  intros Hnames. rewrite create_eq.
  unfold Legacy.create, async, promise_of, derived_service, derivation_events, promises_agree.
  pose proof (legacy_resolve_input rt input) as Hres.
  destruct (Legacy.create_resolve_input rt input) as [[old_algorithm bytes] | e_old],
           (create_resolve_input input) as [[algorithm key] | e]; try done.
  - destruct Hres as [<- ->].
    unfold bind, digest, import_key, bind, log, modify, lift_result, ret. simpl.
    destruct (importKey rt _ _) as [cryptoKey | e] eqn:Himport.
    + destruct (legacy_service_new rt old_algorithm cryptoKey (Hnames _ _ _ Himport))
        as (sv & Hsv & Hagree).
      do 2 eexists. unfold add_events. simpl. rewrite <- app_assoc. simpl.
      split; [reflexivity |]. split; [reflexivity |]. simpl. by rewrite Hsv.
    + do 2 eexists. unfold add_events. simpl. rewrite <- app_assoc. simpl.
      split; [reflexivity |]. split; [reflexivity |]. done.
  - subst. do 2 eexists. unfold ret, add_events. simpl. rewrite app_nil_r.
    destruct w. simpl.
    split; [reflexivity |]. split; [reflexivity |]. done.
Qed.

Lemma toy_importKey_names_kept : importKey_names_kept toy_runtime.
Proof.
  intros material name cryptoKey. simpl. unfold toy_importKey.
  destruct (includes algorithms name); [| done]. by intros [= <-].
Qed.

Lemma earlier_service_agrees_witness :
  exists old p,
    (Legacy.create toy_runtime
       (KeyObject (mkKeyInput (Some "AES-GCM"%string) (KeyString "keyA"))) empty_world).1
      = Ok old /\
    (create toy_runtime
       (KeyObject (mkKeyInput (Some "AES-GCM"%string) (KeyString "keyA"))) empty_world).1
      = Ok p /\
    promises_agree toy_runtime old p.
Proof.
  destruct (earlier_service_agrees toy_runtime
              (KeyObject (mkKeyInput (Some "AES-GCM"%string) (KeyString "keyA")))
              empty_world toy_importKey_names_kept) as (old & p & Hold & Hp & Hagree).
  exists old, p. rewrite Hold, Hp. done.
Defined.

(** ** The constructor of the service *)

(** The constructor of the service takes a key of exactly the three
    algorithm names and refuses any other with its own error.  Through
    [create] that error never arises when the key import returns keys
    under the name it was asked for: a derivation is then rejected only
    with the error of the algorithm check or with the error of the import,
    and otherwise yields the service of the imported key, with the random
    value length of the requested algorithm. *)
Theorem unsupported_algorithm_is_unreachable rt input :
  importKey_names_kept rt ->
  (forall cryptoKey,
     match Service_new cryptoKey with
     | Ok sv => (ck_algorithm_name cryptoKey ∈ algorithms) /\ sv_cryptoKey sv = cryptoKey
     | Throw e =>
         (ck_algorithm_name cryptoKey ∉ algorithms) /\
         e = mkError ClsError
               ("Unsupported algorithm `" +:+ ck_algorithm_name cryptoKey +:+ "`!")
     end) /\
  match create_resolve_input input with
  | Throw e => derived_service rt input = Throw e
  | Ok (algorithm, key) =>
      match importKey rt (sha256 rt (key_bytes rt key)) algorithm with
      | Throw e => derived_service rt input = Throw e
      | Ok cryptoKey =>
          exists sv,
            derived_service rt input = Ok sv /\
            sv_cryptoKey sv = cryptoKey /\
            sv_algorithmName sv = algorithm /\
            sv_tokenLength sv = nonceLength algorithm
      end
  end.
Proof.
  intros Hnames. split.
  - intros cryptoKey. destruct (Service_new cryptoKey) as [sv | e] eqn:Hnew.
    + by apply Service_new_inv in Hnew as (? & _ & ? & _).
    + split.
      * intros Hin. apply Service_new_accepts in Hin as [sv Hsv]. congruence.
      * unfold Service_new in Hnew. repeat case_match; by simplify_eq.
  - unfold derived_service.
    destruct (create_resolve_input input) as [[algorithm key] | e] eqn:Hin; [| done].
    destruct (importKey rt _ _) as [cryptoKey | e] eqn:Himport; [| done].
    pose proof (Hnames _ _ _ Himport) as Hname.
    pose proof (create_resolve_input_accepted _ _ _ Hin) as Hacc.
    destruct (Service_new_accepts cryptoKey) as [sv Hsv]; [by rewrite Hname |].
    exists sv. split; [done |].
    apply Service_new_inv in Hsv as (_ & Ha & Hk & Hl & _).
    by rewrite Ha, Hk, Hl, Hname.
Qed.

Lemma unsupported_algorithm_is_unreachable_witness :
  exists sv,
    derived_service toy_runtime toy_password = Ok sv /\
    sv_algorithmName sv = "AES-CBC"%string /\
    sv_tokenLength sv = 16%nat.
Proof.
  destruct (unsupported_algorithm_is_unreachable toy_runtime toy_password
              toy_importKey_names_kept) as [_ H].
  vm_compute in H. destruct H as (sv & Hsv & _ & Hname & Hlen).
  exists sv. split; [| split; [exact Hname | exact Hlen]].
  vm_compute. exact Hsv.
Defined.

(** ** Text with a built-in coder *)

(** With no coder option or one of the built-in coder names, in any
    spelling of upper and lower case, [decrypt] of the text that [encrypt]
    returned for a text returns what the text decoder makes of the encoded
    text, when [Buffer] decodes what it encoded under the accepted
    encoding names: the text itself exactly when the text comes through
    the text encoder and decoder as it is. *)
Theorem builtin_coder_text_roundtrip rt keys coder times w c0 w0 c :
  subtle_inverse rt ->
  builtin_buffer_roundtrip rt ->
  match coder with
  | None | Some (CoderDefault _) => True
  | Some (CoderCustom _) => False
  end ->
  SymmetricCryptorBasic_new rt keys (mkOptions coder times) w = (Ok c0, w0) ->
  Reachable rt c0 c ->
  forall text w1 encrypted s2,
    encrypt_text rt text (mkSys c w1) = (Ok encrypted, s2) ->
    forall w3,
      (decrypt_text rt encrypted (mkSys (self s2) w3)).1 = Ok (text_recoded rt text) /\
      ((decrypt_text rt encrypted (mkSys (self s2) w3)).1 = Ok text <->
       text_survives rt text).
Proof.
  intros Hinv Hbuffer Hbuiltin Hnew Hreach text w1 encrypted s2 Henc w3.
  assert (Hcoder : coder_roundtrip c0).
  { pose proof Hnew as H. apply new_inv in H as (resolved & Hres & _ & _ & -> & _).
    simpl in Hres.
    assert (Hname : exists name,
              resolveCipherTextCoder rt (Some (CoderDefault name)) = Ok resolved).
    { destruct coder as [[name | custom] |];
        [by exists name | done | by exists "base64"%string]. }
    destruct Hname as [name Hname].
    destruct (builtin_coder _ _ _ Hname) as [Hd He].
    pose proof (builtin_coder_accepted _ _ _ Hname) as Haccepted.
    intros data encoded. simpl. rewrite He, Hd. intros [= <-].
    by rewrite Hbuffer. }
  pose proof (text_roundtrip_of_coder rt keys (mkOptions coder times) w c0 w0 c
                Hinv Hnew Hcoder Hreach text w1 encrypted s2 Henc w3) as Hback.
  split; [exact Hback |]. rewrite Hback. unfold text_survives.
  split; [by intros [= ->] | by intros ->].
Qed.

Lemma builtin_coder_text_roundtrip_witness :
  exists c0 w0,
    SymmetricCryptorBasic_new toy_runtime (KeysSingle toy_password)
      (mkOptions (Some (CoderDefault "Base64URL")) None) empty_world = (Ok c0, w0) /\
    forall text w1 encrypted s2,
      encrypt_text toy_runtime text (mkSys c0 w1) = (Ok encrypted, s2) ->
      forall w3,
        (decrypt_text toy_runtime encrypted (mkSys (self s2) w3)).1
          = Ok (text_recoded toy_runtime text) /\
        ((decrypt_text toy_runtime encrypted (mkSys (self s2) w3)).1 = Ok text <->
         text_survives toy_runtime text).
Proof.
  do 2 eexists. split; [vm_compute; reflexivity |].
  eapply (builtin_coder_text_roundtrip toy_runtime (KeysSingle toy_password)
            (Some (CoderDefault "Base64URL")) None empty_world).
  - exact toy_subtle_inverse.
  - exact toy_buffer_roundtrip.
  - exact I.
  - vm_compute; reflexivity.
  - apply Reachable_new.
Defined.

(** ** Overlapping readiness steps, run *)

Lemma overlapping_ready_calls_witness :
  exists c0 w0 o,
    SymmetricCryptorBasic_new toy_runtime toy_chain no_options empty_world = (Ok c0, w0) /\
    overlap_steps (mkOverlap (mkSys c0 w0) [] []) o /\
    ov_returned o = [Ok tt; Ok tt; Ok tt] /\
    exists promise,
      keysToCryptoKeysPromise c0 = Some promise /\
      world (ov_sys o) = w0 /\
      Forall (fun p => p = promise) (ov_waiting o) /\
      Forall (fun r => r = ready_outcome promise) (ov_returned o) /\
      (self (ov_sys o) = c0 /\ ov_returned o = [] \/ self (ov_sys o) = settle c0).
Proof.
  do 3 eexists.
  split; [vm_compute; reflexivity |].
  match goal with |- ?A /\ _ => assert (Hsteps : A) end.
  { eapply overlap_more.
    - eapply overlap_more.
      + eapply overlap_more.
        * eapply overlap_more.
          -- eapply overlap_more.
             ++ apply overlap_refl.
             ++ eapply step_call_waits. vm_compute; reflexivity.
          -- eapply step_call_waits. vm_compute; reflexivity.
        * eapply (step_resume _ [_] _ []). vm_compute; reflexivity.
      + eapply step_call_returns; vm_compute; reflexivity.
    - eapply (step_resume _ [] _ []). vm_compute; reflexivity. }
  split; [exact Hsteps |]. split; [reflexivity |].
  eapply (overlapping_ready_calls toy_runtime toy_chain no_options empty_world).
  - vm_compute; reflexivity.
  - exact Hsteps.
Defined.
